(** * ApiQR: Hilbert-curve rendering of API vectors

    A shallow embedding of [apiscout/ApiQR.py]: the curve generator
    [__hilbertCurve], the colour mapper [__mapColor], the re-indexing
    [__vectorToHilbert] with its two callers [exportPng] and
    [vector_hilbert], the per-cell part of [exportHtml], and [__add__].

    Conventions.
    - Python exceptions are values of [exn]; a function that can raise
      returns a [result].  Built-ins behave as in Python 3: [map] is lazy
      and stops with its shortest argument, [//] rounds down.
    - A two-dimensional numpy array is a list of rows.  Python integers and
      the entries of integer arrays are [Z]: the entries of a curve of side
      [n] stay below [n * n] (lemma [curve_bound]), and numpy widens the
      int32 array to int64 when an added offset no longer fits, so no
      entry wraps around.
    - The interpreter's recursion limit is the explicit parameter [depth]
      of [hilbertCurve]: the number of calls of [__hilbertCurve] that can
      nest.  A recursion that nests more calls raises [RecursionError].
      The frames of the numpy helpers called inside a call are not
      counted, so [depth] is a lower bound on what the interpreter must
      allow.
    - Arithmetic on weights goes through the interface [Number], with two
      instances: IEEE binary64 ([float]), which is what Python's [float]
      computes, and exact rationals ([Q]).  What is stated about the
      colours of weights is proved on the binary64 instance, from the
      standard library's specification of the primitive floats; the exact
      instance serves for properties in which rounding plays no part. *)

From Stdlib Require Import List ZArith Lia Bool Arith PeanoNat Permutation FinFun.
From Stdlib Require Import QArith Qround Qminmax Qpower Lqa.
From Stdlib Require Import Uint63 Floats.PrimFloat Floats.SpecFloat Floats.FloatOps.
From Stdlib Require Import Floats.FloatAxioms.
From Stdlib Require Strings.String.
Import String.StringSyntax.
Delimit Scope string_scope with string.
Import ListNotations.
Close Scope Q_scope.

Set Implicit Arguments.

(* ================================================================== *)
(** ** Exceptions *)

Inductive exn : Type :=
| RecursionError
| IndexError
| ValueError
| TypeError
| OverflowError
| ZeroDivisionError.

Inductive result (A : Type) : Type :=
| Ok (a : A)
| Raise (e : exn).

Arguments Ok {A} a.
Arguments Raise {A} e.

Definition bind {A B : Type} (m : result A) (f : A -> result B) : result B :=
  match m with
  | Ok a => f a
  | Raise e => Raise e
  end.

Notation "x <- m ;; k" := (bind m (fun x => k))
  (at level 61, m at next level, right associativity).

Fixpoint mapM {A B : Type} (f : A -> result B) (l : list A) : result (list B) :=
  match l with
  | [] => Ok []
  | x :: xs => y <- f x ;; ys <- mapM f xs ;; Ok (y :: ys)
  end.

Definition raises {A : Type} (m : result A) : Prop :=
  exists e, m = Raise e.

(* ================================================================== *)
(** ** The numpy operations the module uses *)

Module np.

Definition ndarray : Type := list (list Z).

(** [np.zeros((r, c), np.int32)] *)
Definition zeros (r c : nat) : ndarray := repeat (repeat 0%Z c) r.

(** [t.size]: the number of entries. *)
Definition size (t : ndarray) : Z := Z.of_nat (length (concat t)).

Definition nrows (t : ndarray) : nat := length t.

Definition ncols (t : ndarray) : nat :=
  match t with
  | [] => 0
  | r :: _ => length r
  end.

Definition transpose (t : ndarray) : ndarray :=
  map (fun j => map (fun row => nth j row 0%Z) t) (seq 0 (ncols t)).

(** [np.flipud]: reverse the order of the rows. *)
Definition flipud (t : ndarray) : ndarray := rev t.

(** [flip(t, 1)]: reverse every row. *)
Definition fliplr (t : ndarray) : ndarray := map (@rev Z) t.

(** [np.rot90(t, k)], as numpy writes it: [k] is reduced modulo 4, one
    turn is [transpose(flip(t, 1))], three turns are
    [flip(transpose(t), 1)]. *)
Definition rot90 (t : ndarray) (k : Z) : ndarray :=
  match (k mod 4)%Z with
  | 0%Z => t
  | 1%Z => transpose (fliplr t)
  | 2%Z => flipud (fliplr t)
  | _ => fliplr (transpose t)
  end.

(** [t + c] for a Python integer [c]. *)
Definition add (t : ndarray) (c : Z) : ndarray :=
  map (map (fun x => (x + c)%Z)) t.

Fixpoint zip_rows (a b : ndarray) : ndarray :=
  match a, b with
  | x :: a', y :: b' => (x ++ y) :: zip_rows a' b'
  | _, _ => []
  end.

(** Concatenation along the second axis; numpy refuses arrays whose
    numbers of rows differ. *)
Definition hstack2 (a b : ndarray) : result ndarray :=
  if Nat.eqb (nrows a) (nrows b) then Ok (zip_rows a b) else Raise ValueError.

(** Concatenation along the first axis; numpy refuses arrays whose
    numbers of columns differ. *)
Definition vstack2 (a b : ndarray) : result ndarray :=
  if Nat.eqb (ncols a) (ncols b) then Ok (a ++ b) else Raise ValueError.

Definition stack (op : ndarray -> ndarray -> result ndarray)
    (blocks : list ndarray) : result ndarray :=
  match blocks with
  | [] => Raise ValueError
  | a :: rest => fold_left (fun acc b => x <- acc ;; op x b) rest (Ok a)
  end.

Definition hstack : list ndarray -> result ndarray := stack hstack2.
Definition vstack : list ndarray -> result ndarray := stack vstack2.

(** [t.ravel()] *)
Definition ravel (t : ndarray) : list Z := concat t.

(** [np.digitize(x, bins, right=True)] for increasing [bins]: the index
    [i] with [bins[i-1] < x <= bins[i]], that is the number of bins
    strictly below [x]. *)
Definition digitize (x : Z) (bins : list Z) : nat :=
  length (filter (fun b => (b <? x)%Z) bins).

(** [flat.reshape(r, c, ...)] on the leading two axes. *)
Fixpoint reshape {A : Type} (r c : nat) (flat : list A) : list (list A) :=
  match r with
  | O => []
  | S r' => firstn c flat :: reshape r' c (skipn c flat)
  end.

End np.

(* ================================================================== *)
(** ** The curve generator *)

(** The body of [__hilbertCurve] after the recursive call returned [t].
    [map(np.hstack, ...)] yields the upper and the lower half, which
    [np.vstack] takes one after the other (numpy releases since 1.24 refuse
    an iterator there; the code predates them). *)
Definition hilbert_blocks (t : np.ndarray) : result np.ndarray :=
  let a := np.flipud (np.rot90 t 1) in
  let b := np.add t (np.size t) in
  let c := np.add t (np.size t * 2) in
  let d := np.add (np.flipud (np.rot90 t (-1))) (np.size t * 3) in
  rows <- mapM np.hstack [[a; b]; [d; c]] ;;
  np.vstack rows.

(** [__hilbertCurve(n)] when the interpreter's recursion limit lets
    [depth] calls of [__hilbertCurve] nest.  Only the frames of the function
    itself are counted, not those of the numpy helpers it calls.  [n // 2]
    is Python's floor division. *)
Fixpoint hilbertCurve (depth : nat) (n : Z) : result np.ndarray :=
  match depth with
  | O => Raise RecursionError
  | S depth' =>
      if (n =? 1)%Z then Ok (np.zeros 1 1)
      else t <- hilbertCurve depth' (n / 2)%Z ;; hilbert_blocks t
  end.

(* ================================================================== *)
(** ** Python numbers *)

(** What a weight can be at run time: a [bool], an [int], or a [float]
    whose carrier [T] is fixed by an instance of [Number]. *)
Inductive pyval (T : Type) : Type :=
| PBool (b : bool)
| PInt (i : Z)
| PFloat (x : T).

Arguments PBool {T} b.
Arguments PInt {T} i.
Arguments PFloat {T} x.

(** The float operations [__mapColor] and [exportHtml] use. *)
Class Number (T : Type) : Type := {
  of_int : Z -> T;            (* float(i) *)
  of_Q : Q -> T;              (* a decimal literal such as 0.4 *)
  num_add : T -> T -> T;
  num_sub : T -> T -> T;
  num_mul : T -> T -> T;
  num_eqb : T -> T -> bool;   (* == *)
  num_ltb : T -> T -> bool;   (* < *)
  to_int : T -> result Z      (* int(x): truncation toward zero *)
}.

(** Exact arithmetic: the weights as rational numbers, without rounding,
    [nan] or infinities.  An idealisation of Python's [float]. *)
#[export] Instance Number_Q : Number Q := {
  of_int := inject_Z;
  of_Q := fun q => q;
  num_add := Qplus;
  num_sub := Qminus;
  num_mul := Qmult;
  num_eqb := Qeq_bool;
  num_ltb := fun x y => negb (Qle_bool y x);
  to_int := fun x => Ok (Z.quot (Qnum x) (Zpos (Qden x)))
}.

Module binary64.

(** [float(i)] for [|i| < 2^63]. *)
Definition of_Z (i : Z) : float :=
  if (i <? 0)%Z then PrimFloat.opp (PrimFloat.of_uint63 (Uint63.of_Z (- i)))
  else PrimFloat.of_uint63 (Uint63.of_Z i).

(** [int(x)]: the integer part; [nan] and the infinities have none. *)
Definition trunc (x : float) : result Z :=
  match Prim2SF x with
  | S754_zero _ => Ok 0%Z
  | S754_finite s m e =>
      let a := match e with
               | Z0 => Zpos m
               | Zpos p => Z.shiftl (Zpos m) (Zpos p)
               | Zneg p => Z.shiftr (Zpos m) (Zpos p)
               end in
      Ok (if s then Z.opp a else a)
  | S754_infinity _ => Raise OverflowError
  | S754_nan => Raise ValueError
  end.

(** The rational number a finite binary64 number stands for, [m * 2^e]
    with its sign; 0 for [nan] and the infinities. *)
Definition SF2Q (x : spec_float) : Q :=
  match x with
  | S754_finite s m e =>
      let a := (inject_Z (Zpos m) * 2 ^ e)%Q in if s then (- a)%Q else a
  | _ => 0%Q
  end.

Definition to_Q (x : float) : Q := SF2Q (Prim2SF x).

(** Finite and of positive sign or zero. *)
Definition SFnonneg (x : spec_float) : bool :=
  match x with
  | S754_zero _ | S754_finite false _ _ => true
  | _ => false
  end.

Definition nonneg (x : float) : bool := SFnonneg (Prim2SF x).

(** Half the distance between 1 and the next binary64 number, and half
    the smallest positive binary64 number. *)
Definition unit_roundoff : Q := (2 ^ (-53))%Q.
Definition eta : Q := (2 ^ (-1075))%Q.

(** [rounded] is as close to [exact] as rounding to nearest leaves it. *)
Definition near (exact rounded : Q) : Prop :=
  (exact - (unit_roundoff * exact + eta) <= rounded
   <= exact + (unit_roundoff * exact + eta))%Q.

End binary64.

(** IEEE binary64, round to nearest even: Python's [float]. *)
#[export] Instance Number_float : Number float := {
  of_int := binary64.of_Z;
  of_Q := fun q =>
    PrimFloat.div (binary64.of_Z (Qnum q)) (binary64.of_Z (Zpos (Qden q)));
  num_add := PrimFloat.add;
  num_sub := PrimFloat.sub;
  num_mul := PrimFloat.mul;
  num_eqb := PrimFloat.eqb;
  num_ltb := PrimFloat.ltb;
  to_int := binary64.trunc
}.

Section PythonArithmetic.

Context {T : Type} `{Number T}.

Definition int_of_bool (b : bool) : Z := if b then 1%Z else 0%Z.

(** [bool] is a subtype of [int]; an [int] meeting a [float] is
    converted to [float]. *)
Definition py_binop (fz : Z -> Z -> Z) (ft : T -> T -> T)
    (a b : pyval T) : pyval T :=
  match a, b with
  | PFloat x, PFloat y => PFloat (ft x y)
  | PFloat x, PInt j => PFloat (ft x (of_int j))
  | PFloat x, PBool c => PFloat (ft x (of_int (int_of_bool c)))
  | PInt i, PFloat y => PFloat (ft (of_int i) y)
  | PBool b, PFloat y => PFloat (ft (of_int (int_of_bool b)) y)
  | PInt i, PInt j => PInt (fz i j)
  | PInt i, PBool c => PInt (fz i (int_of_bool c))
  | PBool b, PInt j => PInt (fz (int_of_bool b) j)
  | PBool b, PBool c => PInt (fz (int_of_bool b) (int_of_bool c))
  end.

Definition py_add : pyval T -> pyval T -> pyval T := py_binop Z.add num_add.
Definition py_sub : pyval T -> pyval T -> pyval T := py_binop Z.sub num_sub.
Definition py_mul : pyval T -> pyval T -> pyval T := py_binop Z.mul num_mul.

Definition py_cmp (fz : Z -> Z -> bool) (ft : T -> T -> bool)
    (a b : pyval T) : bool :=
  match a, b with
  | PFloat x, PFloat y => ft x y
  | PFloat x, PInt j => ft x (of_int j)
  | PFloat x, PBool c => ft x (of_int (int_of_bool c))
  | PInt i, PFloat y => ft (of_int i) y
  | PBool b, PFloat y => ft (of_int (int_of_bool b)) y
  | PInt i, PInt j => fz i j
  | PInt i, PBool c => fz i (int_of_bool c)
  | PBool b, PInt j => fz (int_of_bool b) j
  | PBool b, PBool c => fz (int_of_bool b) (int_of_bool c)
  end.

Definition py_eq : pyval T -> pyval T -> bool := py_cmp Z.eqb num_eqb.
Definition py_lt : pyval T -> pyval T -> bool := py_cmp Z.ltb num_ltb.

(** [value is True], [value is False] *)
Definition is_True (v : pyval T) : bool :=
  match v with PBool true => true | _ => false end.
Definition is_False (v : pyval T) : bool :=
  match v with PBool false => true | _ => false end.

(** [min(a, b)] keeps [a] unless [b < a]; [max(a, b)] keeps [a] unless
    [b > a]. *)
Definition py_min (a b : pyval T) : pyval T := if py_lt b a then b else a.
Definition py_max (a b : pyval T) : pyval T := if py_lt a b then b else a.

(** [int(v)] *)
Definition py_int (v : pyval T) : result Z :=
  match v with
  | PBool b => Ok (int_of_bool b)
  | PInt i => Ok i
  | PFloat x => to_int x
  end.

End PythonArithmetic.

(* ================================================================== *)
(** ** The context and the object *)

Definition color : Type := (Z * Z * Z)%type.

(** Modelled from the spec: the value the context's sentinel has by
    convention, "white, e.g. (255,255,255)". *)
Definition white : color := (255, 255, 255)%Z.

(** Modelled from the spec: the class [ApiQRContext] is imported from a
    module that is not among the sources.  Of what the specification says
    it supplies, [ApiQR] reads the base colours, the sentinel colour and
    the labels, one entry per index. *)
Record ApiQRContext : Type := {
  colors : list color;
  colors_white : color;
  apis : list (list String.string)
}.

Record ApiQR (T : Type) : Type := {
  vector : list (pyval T);
  context : ApiQRContext
}.

Definition color_eqb (c1 c2 : color) : bool :=
  let '(r1, g1, b1) := c1 in
  let '(r2, g2, b2) := c2 in
  (r1 =? r2)%Z && (g1 =? g2)%Z && (b1 =? b2)%Z.

(** [seq[i]] for a non-negative index. *)
Definition getitem {A : Type} (l : list A) (i : nat) : result A :=
  match nth_error l i with
  | Some x => Ok x
  | None => Raise IndexError
  end.

(** [list(range(n))] *)
Definition range (n : nat) : list Z := map Z.of_nat (seq 0 n).

(** [int(len(vector) ** 0.5)]: the integer part of the square root (the
    binary64 square root has the same integer part for lengths below
    [2^52]). *)
Definition int_sqrt_len {A : Type} (v : list A) : Z :=
  Z.sqrt (Z.of_nat (length v)).

(* ================================================================== *)
(** ** The colour mapper and the renderers *)

Section Rendering.

Context {T : Type} `{Number T}.

(** One channel of the interpolated colour. *)
Definition channel (alpha : pyval T) (c : Z) : result Z :=
  py_int (py_add (py_mul (py_sub (PInt 1) alpha) (PInt 255))
                 (py_mul alpha (PInt c))).

(** [__mapColor(value, color)] *)
Definition mapColor (ctx : ApiQRContext) (value : pyval T) (c : color)
    : result color :=
  if is_True value || py_eq value (PInt 1) || py_eq value (PFloat (of_int 1))
  then Ok c
  else if is_False value || py_eq value (PInt 0)
          || py_eq value (PFloat (of_int 0))
  then Ok (colors_white ctx)
  else
    let alpha := py_max (py_min value (PInt 1)) (PInt 0) in
    let '(c0, c1, c2) := c in
    r <- channel alpha c0 ;;
    g <- channel alpha c1 ;;
    b <- channel alpha c2 ;;
    Ok (r, g, b).

(** [__vectorToHilbert(vector)].  An element of [vector] is kept whole:
    the trailing axis of the result, of length [element_size], holds the
    components of one element. *)
Definition vectorToHilbert {A : Type} (depth : nat) (v : list A)
    : result (list (list A)) :=
  match v with
  | [] => Raise IndexError
  | _ :: _ =>
      hilbert_indices <- hilbertCurve depth (int_sqrt_len v) ;;
      let positions :=
        map (fun x => np.digitize x (range (length v)))
            (np.ravel hilbert_indices) in
      picked <- mapM (getitem v) positions ;;
      Ok (np.reshape (np.nrows hilbert_indices) (np.ncols hilbert_indices)
                     picked)
  end.

(** The property [vector_hilbert]. *)
Definition vector_hilbert (depth : nat) (self : ApiQR T)
    : result (list (list (pyval T))) :=
  vectorToHilbert depth (vector self).

(** [np.int8(x)]: conversion to a signed byte wraps around. *)
Definition int8 (z : Z) : Z := ((z + 128) mod 256 - 128)%Z.

Definition int8_color (c : color) : color :=
  let '(r, g, b) := c in (int8 r, int8 g, int8 b).

(** [map(self.__mapColor, self.vector, self.context.colors)]: a [map]
    over two sequences stops with the shorter one. *)
Definition colored_vector (self : ApiQR T) : result (list color) :=
  mapM (fun vc => mapColor (context self) (fst vc) (snd vc))
       (combine (vector self) (colors (context self))).

(** [sum(([e] * 4 ** scale_factor for e in colored_vector), [])]: a
    negative [scale_factor] makes [4 ** scale_factor] a float, which a
    list cannot be multiplied by. *)
Definition scaled_vector {A : Type} (scale_factor : Z) (l : list A)
    : result (list A) :=
  if (scale_factor <? 0)%Z then
    match l with
    | [] => Ok []
    | _ :: _ => Raise TypeError
    end
  else Ok (concat (map (fun e => repeat e (Z.to_nat (4 ^ scale_factor))) l)).

(** [exportPng], up to the array handed to [Image.fromarray]. *)
Definition exportPng (depth : nat) (self : ApiQR T) (scale_factor : Z)
    : result (list (list color)) :=
  colored <- colored_vector self ;;
  scaled <- scaled_vector scale_factor colored ;;
  transformed <- vectorToHilbert depth scaled ;;
  Ok (map (map int8_color) transformed).

(** One table cell of [exportHtml]: which branch wrote it, its popover
    text and its background colour.  [labels] is the outcome of
    [self.context.apis[index]], which each branch evaluates in its turn. *)
Record cell : Type := {
  sentinel_branch : bool;
  popover : String.string;
  background : color
}.

Definition html_cell (ctx : ApiQRContext) (value : pyval T)
    (raw_color : color) (labels : result (list String.string)) : result cell :=
  c <- mapColor ctx value raw_color ;;
  if color_eqb c (colors_white ctx) then
    c' <- mapColor ctx (PFloat (of_Q (2 # 10))) raw_color ;;
    l <- labels ;;
    Ok {| sentinel_branch := true;
          popover := String.concat ":" l;
          background := c' |}
  else
    l <- labels ;;
    let text := String.concat ":" l in
    let value' :=
      py_add (PFloat (of_Q (4 # 10)))
             (py_mul value (py_sub (PInt 1) (PFloat (of_Q (4 # 10))))) in
    c' <- mapColor ctx value' raw_color ;;
    Ok {| sentinel_branch := false; popover := text; background := c' |}.

(** [exportHtml], up to the cells of the table: the style header divides
    by [hilbert_size] before the curve is generated. *)
Definition exportHtml (depth : nat) (self : ApiQR T)
    : result (list (list cell)) :=
  let hilbert_size := int_sqrt_len (vector self) in
  if (hilbert_size =? 0)%Z then Raise ZeroDivisionError
  else
    rows <- hilbertCurve depth hilbert_size ;;
    mapM (mapM (fun index =>
                  let i := Z.to_nat index in
                  value <- getitem (vector self) i ;;
                  raw_color <- getitem (colors (context self)) i ;;
                  html_cell (context self) value raw_color
                            (getitem (apis (context self)) i)))
         rows.

End Rendering.

(* ================================================================== *)
(** ** Addition *)

(** How Python binds the keyword arguments of a call to the parameters of
    the callee: a keyword that names no parameter is a [TypeError], and so
    is a parameter without default that receives no argument. *)
Definition bind_keywords (params : list (String.string * bool))
    (keywords : list String.string) : result unit :=
  if forallb (fun k => existsb (fun p => String.eqb (fst p) k) params) keywords
  then
    if forallb (fun p => snd p || existsb (String.eqb (fst p)) keywords) params
    then Ok tt
    else Raise TypeError
  else Raise TypeError.

(** [ApiQR.__init__(self, winapi1024_filepath, vector=None)]: the
    parameters after [self], each with whether it has a default. *)
Definition ApiQR_init_params : list (String.string * bool) :=
  [("winapi1024_filepath"%string, false); ("vector"%string, true)].

Inductive pyobject (T : Type) : Type :=
| AnApiQR (q : ApiQR T)
| Other.

Arguments AnApiQR {T} q.
Arguments Other {T}.

Section Addition.

Context {T : Type} `{Number T}.

(** [self.context != other.context]: the comparison is the one
    [ApiQRContext] defines, a parameter here. *)
Variable context_ne : ApiQRContext -> ApiQRContext -> bool.

(** The call [ApiQR(vector=..., context=...)] of [__add__]: the
    constructor's body runs only once the arguments are bound. *)
Definition ApiQR_call (v : list (pyval T)) (ctx : ApiQRContext)
    : result (ApiQR T) :=
  _ <- bind_keywords ApiQR_init_params ["vector"%string; "context"%string] ;;
  Ok {| vector := v; context := ctx |}.

(** [__add__(self, other)] *)
Definition add (self : ApiQR T) (other : pyobject T) : result (ApiQR T) :=
  match other with
  | Other => Raise ValueError
  | AnApiQR o =>
      if context_ne (context self) (context o) then Raise ValueError
      else
        ApiQR_call
          (map (fun ab => py_add (fst ab) (snd ab))
               (combine (vector self) (vector o)))
          (context self)
  end.

End Addition.

(* ================================================================== *)
(** ** Scaling *)

(** The quotient of two floats. *)
Class Divide (T : Type) : Type := {
  num_div : T -> T -> T
}.

#[export] Instance Divide_Q : Divide Q := {
  num_div := Qdiv
}.

#[export] Instance Divide_float : Divide float := {
  num_div := PrimFloat.div
}.

(** The right operand of [*] and [/]: a number ([bool], [int] or [float],
    all instances of [numbers.Number]) or anything else. *)
Inductive operand (T : Type) : Type :=
| ANumber (v : pyval T)
| NotANumber.

Arguments ANumber {T} v.
Arguments NotANumber {T}.

Section Scaling.

Context {T : Type} `{Number T} `{Divide T}.

(** [float(v)] *)
Definition py_float (v : pyval T) : T :=
  match v with
  | PBool b => of_int (int_of_bool b)
  | PInt i => of_int i
  | PFloat x => x
  end.

(** [a / b] for a float [a]: a divisor equal to zero is refused. *)
Definition py_truediv (a b : pyval T) : result (pyval T) :=
  if py_eq b (PInt 0) then Raise ZeroDivisionError
  else Ok (PFloat (num_div (py_float a) (py_float b))).

(** [__mul__(self, other)] *)
Definition mul (self : ApiQR T) (other : operand T) : result (ApiQR T) :=
  match other with
  | NotANumber => Raise ValueError
  | ANumber o =>
      ApiQR_call (map (fun x => py_mul x o) (vector self)) (context self)
  end.

(** [__div__(self, other)]: the list of quotients is built before the
    constructor is called. *)
Definition div (self : ApiQR T) (other : operand T) : result (ApiQR T) :=
  match other with
  | NotANumber => Raise ValueError
  | ANumber o =>
      v <- mapM (fun x => py_truediv (py_mul (PFloat (of_int 1)) x) o)
                (vector self) ;;
      ApiQR_call v (context self)
  end.

(** [__truediv__(self, other)] *)
Definition truediv (self : ApiQR T) (other : operand T) : result (ApiQR T) :=
  div self other.

End Scaling.

(* ================================================================== *)
(** ** Notions used by the statements *)

(** The entry in row [i], column [j]. *)
Definition get (g : np.ndarray) (i j : nat) : Z := nth j (nth i g []) 0%Z.

(** A grid with [m] rows of [m] entries each. *)
Definition square {A : Type} (m : nat) (g : list (list A)) : Prop :=
  length g = m /\ Forall (fun row => length row = m) g.

Fixpoint index_of (v : Z) (l : list Z) : option nat :=
  match l with
  | [] => None
  | x :: xs => if (x =? v)%Z then Some 0 else option_map S (index_of v xs)
  end.

(** Row and column of the first occurrence of [v], scanning row by row. *)
Fixpoint argwhere (g : np.ndarray) (v : Z) : option (nat * nat) :=
  match g with
  | [] => None
  | row :: rows =>
      match index_of v row with
      | Some j => Some (0, j)
      | None => option_map (fun p => (S (fst p), snd p)) (argwhere rows v)
      end
  end.

Definition distance (a b : nat) : nat := (a - b) + (b - a).

(** Two cells are adjacent when they differ by exactly 1 in exactly one
    coordinate and by 0 in the other. *)
Definition adjacent (p q : nat * nat) : bool :=
  (Nat.eqb (distance (fst p) (fst q)) 1 && Nat.eqb (distance (snd p) (snd q)) 0)
  || (Nat.eqb (distance (fst p) (fst q)) 0 && Nat.eqb (distance (snd p) (snd q)) 1).

(** Four arrays side by side: [a] and [b] above [d] and [c]. *)
Definition blocks (a b d c : np.ndarray) : np.ndarray :=
  np.zip_rows a b ++ np.zip_rows d c.

(** The turned and flipped copies of [t] in [hilbert_blocks]. *)
Definition top_left (t : np.ndarray) : np.ndarray := np.flipud (np.rot90 t 1).
Definition bottom_left (t : np.ndarray) : np.ndarray :=
  np.flipud (np.rot90 t (-1)).

(** The four blocks of [hilbert_blocks], assembled without the shape
    checks of [hstack] and [vstack]. *)
Definition quadrants (t : np.ndarray) : np.ndarray :=
  blocks (top_left t) (np.add t (np.size t))
         (np.add (bottom_left t) (np.size t * 3)) (np.add t (np.size t * 2)).

(** The grid after [k] halvings of the side: what [hilbertCurve] returns
    for every [n] with [2^k <= n < 2^(k+1)] (lemma [hilbertCurve_curve]). *)
Fixpoint curve (k : nat) : np.ndarray :=
  match k with
  | O => np.zeros 1 1
  | S k' => quadrants (curve k')
  end.

(** Where the value [v] sits in [curve k]. *)
Fixpoint coord (k : nat) (v : nat) : nat * nat :=
  match k with
  | O => (0, 0)
  | S k' =>
      let m := 2 ^ k' in
      let '(i, j) := coord k' (v mod (m * m)) in
      match v / (m * m) with
      | 0 => (j, i)
      | 1 => (i, j + m)
      | 2 => (i + m, j + m)
      | _ => (2 * m - 1 - j, m - 1 - i)
      end
  end.

(** Nearest-neighbour upsampling, as the specification words it: every
    cell becomes a block of [f] by [f] identical cells. *)
Definition upsample {A : Type} (f : nat) (g : list (list A)) : list (list A) :=
  flat_map (fun row => repeat (flat_map (fun x => repeat x f) row) f) g.

(** Rounding to the nearest integer, as the specification words the
    interpolation. *)
Definition round_nearest (x : Q) : Z := Qfloor (x + (1 # 2)).

(** The channel the specification describes:
    [round((1 - alpha) * 255 + alpha * base)] with
    [alpha = max(0, min(value, 1))]. *)
Definition spec_channel (value : Q) (base : Z) : Z :=
  let alpha := Qmax 0 (Qmin value 1) in
  round_nearest ((1 - alpha) * 255 + alpha * inject_Z base).

(** [x] lies between [lo] and [hi], whichever of the two is larger. *)
Definition between (lo hi x : Z) : Prop :=
  (Z.min lo hi <= x <= Z.max lo hi)%Z.

Definition channels (c : color) : list Z :=
  let '(r, g, b) := c in [r; g; b].

(* ================================================================== *)
(** ** Sample objects *)

(** A context for [n] APIs, all drawn black on white. *)
Definition sample_context (n : nat) : ApiQRContext :=
  {| colors := repeat (0, 0, 0)%Z n;
     colors_white := white;
     apis := repeat ["kernel32.dll"; "Sleep"]%string n |}.

(** Fifteen weights: not a square number of them. *)
Definition sample_15 : ApiQR float :=
  {| vector := map PInt (range 15); context := sample_context 15 |}.

(** Four weights of four kinds, on four colours. *)
Definition sample_4 : ApiQR float :=
  {| vector := [PInt 1; PFloat 0.5%float; PInt 0; PBool true];
     context :=
       {| colors := [(10, 20, 30); (100, 0, 200); (1, 1, 1); (7, 7, 7)]%Z;
          colors_white := white;
          apis := repeat ["kernel32.dll"; "Sleep"]%string 4 |} |}.

Definition sample_4_colored : list color :=
  [(10, 20, 30); (177, 127, 227); (255, 255, 255); (7, 7, 7)]%Z.

(** The binary64 number [0.04] is read as. *)
Definition weight_near_white : float := 0x1.47ae147ae147bp-5%float.

(** Two neighbouring binary64 weights, about 0.437. *)
Definition weight_lo : float := 0x1.bf7efdfbf7effp-2%float.
Definition weight_hi : float := 0x1.bf7efdfbf7f00p-2%float.

(* ================================================================== *)
(** ** Exact interpolation *)

(** The weight as a rational number. *)
Definition weight (v : pyval Q) : Q :=
  match v with
  | PBool b => inject_Z (int_of_bool b)
  | PInt i => inject_Z i
  | PFloat x => x
  end.

(** The interpolated channel before conversion to an integer. *)
Definition interpolate (alpha : Q) (c : Z) : Q :=
  ((1 - alpha) * 255 + alpha * inject_Z c)%Q.

(** The integer part of a rational number. *)
Definition Qtrunc (x : Q) : Z := Z.quot (Qnum x) (Zpos (Qden x)).

(** The weight a binary64 run computes with, as a rational number. *)
Definition weight64 (v : pyval float) : Q :=
  match v with
  | PBool b => inject_Z (int_of_bool b)
  | PInt i => inject_Z i
  | PFloat x => binary64.to_Q x
  end.

(** A weight that is a number: neither [nan] nor infinite. *)
Definition finite64 (v : pyval float) : bool :=
  match v with
  | PFloat x =>
      match Prim2SF x with
      | S754_nan | S754_infinity _ => false
      | _ => true
      end
  | _ => true
  end.

(** A weight that is a number the model converts: any [bool], an [int]
    below [2^63] in magnitude, a [float] other than [nan]. *)
Definition number64 (v : pyval float) : bool :=
  match v with
  | PBool _ => true
  | PInt i => (Z.abs i <? 2 ^ 63)%Z
  | PFloat x =>
      match Prim2SF x with
      | S754_nan => false
      | _ => true
      end
  end.

(** What the four roundings of one channel can add up to: [3 * 2^-45]. *)
Definition rounding_error : Q := 3 # 35184372088832.

(** [out] is the integer part of a number that is not negative and lies
    within [rounding_error] of [x]. *)
Definition integer_part_near (x : Q) (out : Z) : Prop :=
  exists f : Q,
    (0 <= f)%Q /\
    (x - rounding_error <= f <= x + rounding_error)%Q /\
    out = Qfloor f.

(** What [__mapColor] promises at the two ends of the scale, for the
    three ways Python writes each end. *)
Definition maps_endpoints (T : Type) `{Number T} (ctx : ApiQRContext) (c : color)
    : Prop :=
  mapColor ctx (PInt 1) c = Ok c /\
  mapColor ctx (PFloat (of_int 1)) c = Ok c /\
  mapColor ctx (PBool true) c = Ok c /\
  mapColor ctx (PInt 0) c = Ok (colors_white ctx) /\
  mapColor ctx (PFloat (of_int 0)) c = Ok (colors_white ctx) /\
  mapColor ctx (PBool false) c = Ok (colors_white ctx).

Arguments maps_endpoints T {_} ctx c.

(** Four exact weights on four colours, and a cell to stand for a
    missing one. *)
Definition sample_4_exact : ApiQR Q :=
  {| vector := [PInt 1; PFloat (1 # 2)%Q; PInt 0; PBool true];
     context :=
       {| colors := [(10, 20, 30); (100, 0, 200); (1, 1, 1); (7, 7, 7)]%Z;
          colors_white := white;
          apis := repeat ["kernel32.dll"; "Sleep"]%string 4 |} |}.

Definition blank_cell : cell :=
  {| sentinel_branch := true;
     popover := String.EmptyString;
     background := white |}.

(* ================================================================== *)
(** ** Tactics *)

(** Reads an expression over injected integers as one injected integer. *)
Ltac Q_of_Z :=
  unfold Qminus; change 2%Q with (inject_Z 2);
  repeat (rewrite <- inject_Z_opp || rewrite <- inject_Z_mult
          || rewrite <- inject_Z_plus).

(* ================================================================== *)
(** * Properties *)

Example hilbertCurve_1 : hilbertCurve 10 1 = Ok [[0%Z]].
Proof. reflexivity. Qed.

Example hilbertCurve_2 : hilbertCurve 10 2 = Ok [[0; 1]; [3; 2]]%Z.
Proof. reflexivity. Qed.

Example hilbertCurve_4 :
  hilbertCurve 10 4 =
  Ok [[0; 3; 4; 5]; [1; 2; 7; 6]; [14; 13; 8; 9]; [15; 12; 11; 10]]%Z.
Proof. reflexivity. Qed.

(* ------------------------------------------------------------------ *)
(** ** Lists and grids *)

Section Grids.

Variable A : Type.

Lemma square_length (m : nat) (g : list (list A)) :
  square m g -> length g = m.
Proof. intros [Hl _]; exact Hl. Qed.

Lemma square_row (m : nat) (g : list (list A)) (i : nat) :
  square m g -> i < m -> length (nth i g []) = m.
Proof.
  intros [Hl Hr] Hi.
  rewrite Forall_forall in Hr. apply Hr, nth_In. lia.
Qed.

Lemma square_intro (m : nat) (g : list (list A)) :
  length g = m ->
  (forall i, i < m -> length (nth i g []) = m) ->
  square m g.
Proof.
  intros Hl Hr. split; [exact Hl|].
  apply Forall_forall. intros row Hin.
  destruct (In_nth _ _ [] Hin) as (i & Hi & <-).
  apply Hr. lia.
Qed.

Lemma length_concat_square (m : nat) (g : list (list A)) :
  square m g -> length (concat g) = m * m.
Proof.
  intros [Hl Hr]. revert m Hl Hr.
  assert (G : forall (c : nat) (g : list (list A)),
             Forall (fun row => length row = c) g ->
             length (concat g) = length g * c).
  { intros c g0 Hf. induction Hf as [|row rows Hrow _ IH]; simpl; [reflexivity|].
    rewrite length_app, IH, Hrow. reflexivity. }
  intros m Hl Hr. rewrite (G m g Hr), Hl. reflexivity.
Qed.

(** Two grids of the same shape with the same entries are equal. *)
Lemma grid_ext (m : nat) (g h : list (list A)) (d : A) :
  square m g -> square m h ->
  (forall i j, i < m -> j < m ->
     nth j (nth i g []) d = nth j (nth i h []) d) ->
  g = h.
Proof.
  intros Hg Hh Heq.
  apply (nth_ext g h [] []).
  - rewrite (square_length Hg), (square_length Hh). reflexivity.
  - intros i Hi. rewrite (square_length Hg) in Hi.
    apply (nth_ext _ _ d d).
    + rewrite (square_row Hg Hi), (square_row Hh Hi). reflexivity.
    + intros j Hj. rewrite (square_row Hg Hi) in Hj. apply Heq; assumption.
Qed.

Lemma nth_concat_square (m : nat) (g : list (list A)) (d : A) (i j : nat) :
  square m g -> i < m -> j < m ->
  nth (i * m + j) (concat g) d = nth j (nth i g []) d.
Proof.
  intros [Hl Hr]. revert i m Hl Hr.
  assert (G : forall (c : nat) (g : list (list A)) (i : nat),
             Forall (fun row => length row = c) g ->
             i < length g -> j < c ->
             nth (i * c + j) (concat g) d = nth j (nth i g []) d).
  { intros c g0 i Hf. revert i.
    induction Hf as [|row rows Hrow _ IH]; intros i Hi Hj; simpl in *; [lia|].
    destruct i as [|i]; simpl.
    - rewrite app_nth1 by lia. reflexivity.
    - rewrite app_nth2 by lia. rewrite Hrow.
      replace (c + i * c + j - c) with (i * c + j) by lia.
      apply IH; lia. }
  intros i m Hl Hr Hi Hj. apply G; [assumption | lia | assumption].
Qed.

Lemma reshape_concat (c : nat) (g : list (list A)) :
  Forall (fun row => length row = c) g ->
  np.reshape (length g) c (concat g) = g.
Proof.
  induction 1 as [|row rows Hrow _ IH]; simpl; [reflexivity|].
  subst c.
  rewrite firstn_app, skipn_app, Nat.sub_diag, firstn_all, skipn_all.
  simpl. rewrite app_nil_r. f_equal. exact IH.
Qed.

End Grids.

Lemma nth_map_in (A B : Type) (f : A -> B) (l : list A) (d : A) (d' : B) (i : nat) :
  i < length l -> nth i (map f l) d' = f (nth i l d).
Proof.
  intros Hi. rewrite (nth_indep _ d' (f d)) by (rewrite length_map; exact Hi).
  apply map_nth.
Qed.

(* ------------------------------------------------------------------ *)
(** ** The numpy operations on square arrays *)

Section SquareArrays.

Variable m : nat.
Variable t : np.ndarray.
Hypothesis Hsq : square m t.

Lemma ncols_square : 0 < m -> np.ncols t = m.
Proof.
  intros Hm. destruct Hsq as [Hl Hr].
  destruct t as [|row rows]; simpl in *; [lia|].
  inversion Hr; assumption.
Qed.

Lemma size_square : np.size t = Z.of_nat (m * m).
Proof. unfold np.size. rewrite (length_concat_square Hsq). reflexivity. Qed.

Lemma square_transpose : square m (np.transpose t).
Proof.
  destruct (Nat.eq_dec m 0) as [->|Hm].
  - destruct Hsq as [Hl _]. apply length_zero_iff_nil in Hl. rewrite Hl.
    split; [reflexivity | constructor].
  - unfold np.transpose. rewrite ncols_square by lia.
    apply square_intro.
    + rewrite length_map, length_seq. reflexivity.
    + intros i Hi. rewrite (nth_map_in _ _ 0) by (rewrite length_seq; exact Hi).
      rewrite length_map. apply (square_length Hsq).
Qed.

Lemma get_transpose (i j : nat) :
  i < m -> j < m -> get (np.transpose t) i j = get t j i.
Proof.
  intros Hi Hj. unfold get, np.transpose.
  rewrite ncols_square by lia.
  rewrite (nth_map_in _ _ 0) by (rewrite length_seq; exact Hi).
  rewrite seq_nth by exact Hi. simpl.
  rewrite (nth_map_in _ _ []) by (rewrite (square_length Hsq); exact Hj).
  reflexivity.
Qed.

Lemma square_flipud : square m (np.flipud t).
Proof.
  destruct Hsq as [Hl Hr]. split.
  - unfold np.flipud. rewrite length_rev. exact Hl.
  - apply Forall_rev. exact Hr.
Qed.

Lemma get_flipud (i j : nat) :
  i < m -> get (np.flipud t) i j = get t (m - 1 - i) j.
Proof.
  intros Hi. unfold get, np.flipud.
  rewrite rev_nth by (rewrite (square_length Hsq); exact Hi).
  rewrite (square_length Hsq).
  replace (m - S i) with (m - 1 - i) by lia. reflexivity.
Qed.

Lemma square_fliplr : square m (np.fliplr t).
Proof.
  apply square_intro.
  - unfold np.fliplr. rewrite length_map. apply (square_length Hsq).
  - intros i Hi. unfold np.fliplr.
    rewrite (nth_map_in _ _ []) by (rewrite (square_length Hsq); exact Hi).
    rewrite length_rev. apply (square_row Hsq Hi).
Qed.

Lemma get_fliplr (i j : nat) :
  i < m -> j < m -> get (np.fliplr t) i j = get t i (m - 1 - j).
Proof.
  intros Hi Hj. unfold get, np.fliplr.
  rewrite (nth_map_in _ _ []) by (rewrite (square_length Hsq); exact Hi).
  rewrite rev_nth by (rewrite (square_row Hsq Hi); exact Hj).
  rewrite (square_row Hsq Hi).
  replace (m - S j) with (m - 1 - j) by lia. reflexivity.
Qed.

Lemma square_add (c : Z) : square m (np.add t c).
Proof.
  apply square_intro.
  - unfold np.add. rewrite length_map. apply (square_length Hsq).
  - intros i Hi. unfold np.add.
    rewrite (nth_map_in _ _ []) by (rewrite (square_length Hsq); exact Hi).
    rewrite length_map. apply (square_row Hsq Hi).
Qed.

Lemma get_add (c : Z) (i j : nat) :
  i < m -> j < m -> get (np.add t c) i j = (get t i j + c)%Z.
Proof.
  intros Hi Hj. unfold get, np.add.
  rewrite (nth_map_in _ _ []) by (rewrite (square_length Hsq); exact Hi).
  rewrite (nth_map_in _ _ 0%Z) by (rewrite (square_row Hsq Hi); exact Hj).
  reflexivity.
Qed.

End SquareArrays.

Lemma length_zip_rows (a b : np.ndarray) :
  length a = length b -> length (np.zip_rows a b) = length a.
Proof.
  revert b. induction a as [|x a IH]; intros [|y b] Hl; simpl in *;
    try reflexivity; try discriminate.
  f_equal. apply IH. lia.
Qed.

Lemma nth_zip_rows (a b : np.ndarray) (i : nat) :
  length a = length b -> i < length a ->
  nth i (np.zip_rows a b) [] = nth i a [] ++ nth i b [].
Proof.
  revert b i. induction a as [|x a IH]; intros [|y b] i Hl Hi; simpl in *;
    try lia.
  destruct i as [|i]; [reflexivity|]. apply IH; lia.
Qed.

(* ------------------------------------------------------------------ *)
(** ** Four square blocks side by side *)

Section Blocks.

Variable m : nat.
Variables a b d c : np.ndarray.
Hypothesis Ha : square m a.
Hypothesis Hb : square m b.
Hypothesis Hd : square m d.
Hypothesis Hc : square m c.

Lemma nth_blocks (i : nat) :
  i < 2 * m ->
  nth i (blocks a b d c) [] =
  if i <? m then nth i a [] ++ nth i b []
  else nth (i - m) d [] ++ nth (i - m) c [].
Proof.
  intros Hi. unfold blocks.
  pose proof (square_length Ha) as La. pose proof (square_length Hb) as Lb.
  pose proof (square_length Hd) as Ld. pose proof (square_length Hc) as Lc.
  destruct (Nat.ltb_spec i m) as [Hlt|Hge].
  - rewrite app_nth1 by (rewrite length_zip_rows; lia).
    apply nth_zip_rows; lia.
  - rewrite app_nth2 by (rewrite length_zip_rows; lia).
    rewrite length_zip_rows, La by lia.
    apply nth_zip_rows; lia.
Qed.

Lemma square_blocks : square (2 * m) (blocks a b d c).
Proof.
  pose proof (square_length Ha) as La. pose proof (square_length Hb) as Lb.
  pose proof (square_length Hd) as Ld. pose proof (square_length Hc) as Lc.
  apply square_intro.
  - unfold blocks. rewrite length_app, !length_zip_rows; lia.
  - intros i Hi. rewrite nth_blocks by exact Hi.
    destruct (Nat.ltb_spec i m) as [Hlt|Hge]; rewrite length_app.
    + rewrite (square_row Ha), (square_row Hb); lia.
    + rewrite (square_row Hd), (square_row Hc); lia.
Qed.

Lemma get_blocks (i j : nat) :
  i < 2 * m -> j < 2 * m ->
  get (blocks a b d c) i j =
  if i <? m then (if j <? m then get a i j else get b i (j - m))
  else (if j <? m then get d (i - m) j else get c (i - m) (j - m)).
Proof.
  intros Hi Hj. unfold get. rewrite nth_blocks by exact Hi.
  destruct (Nat.ltb_spec i m) as [Hlt|Hge];
    destruct (Nat.ltb_spec j m) as [Hjlt|Hjge].
  - apply app_nth1. rewrite (square_row Ha); lia.
  - rewrite app_nth2 by (rewrite (square_row Ha); lia).
    rewrite (square_row Ha) by lia. reflexivity.
  - apply app_nth1. rewrite (square_row Hd); lia.
  - rewrite app_nth2 by (rewrite (square_row Hd); lia).
    rewrite (square_row Hd) by lia. reflexivity.
Qed.

End Blocks.

(* ------------------------------------------------------------------ *)
(** ** One step of the recursion *)

Section Quadrants.

Variable m : nat.
Variable t : np.ndarray.
Hypothesis Hsq : square m t.

Lemma square_top_left : square m (top_left t).
Proof.
  apply square_flipud. change (square m (np.transpose (np.fliplr t))).
  apply square_transpose, square_fliplr, Hsq.
Qed.

Lemma square_bottom_left : square m (bottom_left t).
Proof.
  apply square_flipud. change (square m (np.fliplr (np.transpose t))).
  apply square_fliplr, square_transpose, Hsq.
Qed.

(** Turning by a quarter and flipping is reflection in the diagonal. *)
Lemma get_top_left (i j : nat) :
  i < m -> j < m -> get (top_left t) i j = get t j i.
Proof.
  intros Hi Hj. unfold top_left.
  rewrite (get_flipud (m := m)) by
    (try exact Hi; change (square m (np.transpose (np.fliplr t)));
     apply square_transpose, square_fliplr, Hsq).
  change (np.rot90 t 1) with (np.transpose (np.fliplr t)).
  rewrite (get_transpose (m := m)) by (try lia; apply square_fliplr, Hsq).
  rewrite (get_fliplr Hsq) by lia.
  f_equal. lia.
Qed.

(** The opposite turn and a flip is reflection in the anti-diagonal. *)
Lemma get_bottom_left (i j : nat) :
  i < m -> j < m -> get (bottom_left t) i j = get t (m - 1 - j) (m - 1 - i).
Proof.
  intros Hi Hj. unfold bottom_left.
  rewrite (get_flipud (m := m)) by
    (try exact Hi; change (square m (np.fliplr (np.transpose t)));
     apply square_fliplr, square_transpose, Hsq).
  change (np.rot90 t (-1)) with (np.fliplr (np.transpose t)).
  rewrite (get_fliplr (m := m)) by (try lia; apply square_transpose, Hsq).
  rewrite (get_transpose Hsq) by lia.
  reflexivity.
Qed.

Lemma square_quadrants : square (2 * m) (quadrants t).
Proof.
  unfold quadrants. apply square_blocks.
  - exact square_top_left.
  - apply square_add, Hsq.
  - apply square_add, square_bottom_left.
  - apply square_add, Hsq.
Qed.

Lemma get_quadrants (i j : nat) :
  i < 2 * m -> j < 2 * m ->
  get (quadrants t) i j =
  if i <? m then
    if j <? m then get t j i
    else (get t i (j - m) + Z.of_nat (m * m))%Z
  else
    if j <? m then
      (get t (m - 1 - j) (m - 1 - (i - m)) + Z.of_nat (m * m) * 3)%Z
    else (get t (i - m) (j - m) + Z.of_nat (m * m) * 2)%Z.
Proof.
  intros Hi Hj. unfold quadrants.
  rewrite (get_blocks (m := m)) by
    (try assumption;
     first [ exact square_top_left
           | apply square_add, square_bottom_left
           | apply square_add, Hsq ]).
  rewrite (size_square Hsq).
  destruct (Nat.ltb_spec i m) as [Hlt|Hge];
    destruct (Nat.ltb_spec j m) as [Hjlt|Hjge].
  - apply get_top_left; assumption.
  - apply (get_add Hsq); lia.
  - rewrite (get_add square_bottom_left) by lia.
    rewrite get_bottom_left by lia. reflexivity.
  - apply (get_add Hsq); lia.
Qed.

(** On a square array the shape checks of [hstack] and [vstack] pass. *)
Lemma hilbert_blocks_quadrants :
  0 < m -> hilbert_blocks t = Ok (quadrants t).
Proof.
  intros Hm.
  pose proof square_top_left as Ha.
  pose proof (square_add Hsq (np.size t)) as Hb.
  pose proof (square_add Hsq (np.size t * 2)) as Hc.
  pose proof (square_add square_bottom_left (np.size t * 3)) as Hd.
  unfold hilbert_blocks, np.hstack, np.vstack, np.stack, np.hstack2; simpl.
  fold (top_left t). fold (bottom_left t).
  unfold np.nrows.
  rewrite (square_length Ha), (square_length Hb), (square_length Hc),
    (square_length Hd), Nat.eqb_refl. simpl.
  unfold np.vstack2.
  assert (Hn : forall x y : np.ndarray,
             square m x -> square m y -> np.ncols (np.zip_rows x y) = m + m).
  { intros x y [Lx Rx] [Ly Ry].
    destruct x as [|rx x]; destruct y as [|ry y]; simpl in *; try lia.
    inversion Rx; inversion Ry; subst. rewrite length_app. lia. }
  rewrite (Hn _ _ Ha Hb), (Hn _ _ Hd Hc), Nat.eqb_refl.
  reflexivity.
Qed.

End Quadrants.

(* ------------------------------------------------------------------ *)
(** ** The grids the generator returns *)

Lemma pow2_pos (k : nat) : 0 < 2 ^ k.
Proof. apply Nat.neq_0_lt_0, Nat.pow_nonzero. discriminate. Qed.

Lemma curve_S (k : nat) : curve (S k) = quadrants (curve k).
Proof. reflexivity. Qed.

Lemma coord_S (k v : nat) :
  coord (S k) v =
  let m := 2 ^ k in
  let '(i, j) := coord k (v mod (m * m)) in
  match v / (m * m) with
  | 0 => (j, i)
  | 1 => (i, j + m)
  | 2 => (i + m, j + m)
  | _ => (2 * m - 1 - j, m - 1 - i)
  end.
Proof. reflexivity. Qed.

Lemma curve_square (k : nat) : square (2 ^ k) (curve k).
Proof.
  induction k as [|k IH].
  - split; [reflexivity | repeat constructor].
  - rewrite curve_S, Nat.pow_succ_r'. apply square_quadrants, IH.
Qed.

(** Every [n >= 1] is halved down to 1 in [log2 n] steps, and the grid
    built on the way back depends on that number of steps only. *)
Lemma hilbertCurve_curve (k depth : nat) (n : Z) :
  (2 ^ Z.of_nat k <= n < 2 ^ Z.of_nat (S k))%Z ->
  k < depth ->
  hilbertCurve depth n = Ok (curve k).
Proof.
  revert depth n. induction k as [|k IH]; intros depth n Hn Hd.
  - destruct depth as [|depth]; [lia|].
    change (2 ^ Z.of_nat 0)%Z with 1%Z in Hn.
    change (2 ^ Z.of_nat 1)%Z with 2%Z in Hn.
    simpl. replace n with 1%Z by lia. reflexivity.
  - destruct depth as [|depth]; [lia|].
    rewrite !Nat2Z.inj_succ, !Z.pow_succ_r in Hn by lia.
    assert (Hpos : (0 < 2 ^ Z.of_nat k)%Z) by (apply Z.pow_pos_nonneg; lia).
    simpl hilbertCurve.
    destruct (Z.eqb_spec n 1) as [->|_]; [lia|].
    rewrite (IH depth (n / 2)%Z).
    + simpl bind. rewrite curve_S.
      apply (hilbert_blocks_quadrants (curve_square k)), pow2_pos.
    + rewrite Nat2Z.inj_succ, Z.pow_succ_r by lia. split.
      * apply Z.div_le_lower_bound; lia.
      * apply Z.div_lt_upper_bound; lia.
    + lia.
Qed.

(** Below 1 the halving never reaches 1: whatever the recursion limit,
    the call ends in [RecursionError]. *)
Lemma hilbertCurve_below_1 (depth : nat) (n : Z) :
  (n < 1)%Z -> hilbertCurve depth n = Raise RecursionError.
Proof.
  revert n. induction depth as [|depth IH]; intros n Hn; [reflexivity|].
  simpl. destruct (Z.eqb_spec n 1) as [->|_]; [lia|].
  rewrite IH; [reflexivity|].
  assert (n / 2 <= 0)%Z; [|lia].
  apply Z.div_le_upper_bound; lia.
Qed.

Lemma coord_spec (k v : nat) :
  v < 2 ^ k * 2 ^ k ->
  fst (coord k v) < 2 ^ k /\ snd (coord k v) < 2 ^ k /\
  get (curve k) (fst (coord k v)) (snd (coord k v)) = Z.of_nat v.
Proof.
  revert v. induction k as [|k IH]; intros v Hv.
  - simpl in *. replace v with 0 by lia. repeat split; lia.
  - rewrite coord_S, curve_S. cbv zeta.
    rewrite Nat.pow_succ_r' in *.
    pose proof (pow2_pos k) as Hm. set (m := 2 ^ k) in *.
    assert (HM : 0 < m * m) by nia.
    pose proof (Nat.div_mod_eq v (m * m)) as Hdm.
    pose proof (Nat.mod_upper_bound v (m * m) ltac:(lia)) as Hr.
    assert (Hq : v / (m * m) < 4)
      by (apply Nat.Div0.div_lt_upper_bound; nia).
    destruct (IH (v mod (m * m)) Hr) as (Hi & Hj & Hg).
    destruct (coord k (v mod (m * m))) as [i j]. cbn [fst snd] in *.
    set (M := m * m) in *.
    destruct (v / M) as [|[|[|[|q]]]] eqn:Eq; try lia; cbn [fst snd];
      (split; [lia|]); (split; [lia|]);
      rewrite (get_quadrants (curve_square k)) by (fold m; lia);
      fold m; fold M.
    + destruct (Nat.ltb_spec j m); [|lia]. destruct (Nat.ltb_spec i m); [|lia].
      rewrite Hg. lia.
    + destruct (Nat.ltb_spec i m); [|lia].
      destruct (Nat.ltb_spec (j + m) m); [lia|].
      replace (j + m - m) with j by lia. rewrite Hg. lia.
    + destruct (Nat.ltb_spec (i + m) m); [lia|].
      destruct (Nat.ltb_spec (j + m) m); [lia|].
      replace (i + m - m) with i by lia. replace (j + m - m) with j by lia.
      rewrite Hg. lia.
    + destruct (Nat.ltb_spec (2 * m - 1 - j) m); [lia|].
      destruct (Nat.ltb_spec (m - 1 - i) m); [|lia].
      replace (m - 1 - (m - 1 - i)) with i by lia.
      replace (m - 1 - (2 * m - 1 - j - m)) with j by lia.
      rewrite Hg. lia.
Qed.

Lemma curve_bound (k i j : nat) :
  i < 2 ^ k -> j < 2 ^ k ->
  (0 <= get (curve k) i j < Z.of_nat (2 ^ k * 2 ^ k))%Z.
Proof.
  revert i j. induction k as [|k IH]; intros i j Hi Hj.
  - simpl in *. replace i with 0 by lia. replace j with 0 by lia.
    cbv. split; [discriminate | reflexivity].
  - rewrite curve_S. rewrite Nat.pow_succ_r' in *.
    pose proof (pow2_pos k) as Hm. set (m := 2 ^ k) in *.
    rewrite (get_quadrants (curve_square k)) by (fold m; lia). fold m.
    replace (2 * m * (2 * m)) with (4 * (m * m)) by lia.
    set (M := m * m) in *.
    destruct (Nat.ltb_spec i m); destruct (Nat.ltb_spec j m).
    + pose proof (IH j i ltac:(lia) ltac:(lia)). lia.
    + pose proof (IH i (j - m) ltac:(lia) ltac:(lia)). lia.
    + pose proof (IH (m - 1 - j) (m - 1 - (i - m)) ltac:(lia) ltac:(lia)). lia.
    + pose proof (IH (i - m) (j - m) ltac:(lia) ltac:(lia)). lia.
Qed.

Lemma pow2_Z_nat (k : nat) : (2 ^ Z.of_nat k)%Z = Z.of_nat (2 ^ k).
Proof. rewrite Nat2Z.inj_pow. reflexivity. Qed.

Lemma NoDup_range (n : nat) : NoDup (range n).
Proof.
  unfold range. apply Injective_map_NoDup.
  - intros a b. apply Nat2Z.inj.
  - apply seq_NoDup.
Qed.

Lemma length_range (n : nat) : length (range n) = n.
Proof. unfold range. rewrite length_map, length_seq. reflexivity. Qed.

Lemma In_range (n : nat) (z : Z) :
  In z (range n) <-> exists v, v < n /\ z = Z.of_nat v.
Proof.
  unfold range. rewrite in_map_iff. split.
  - intros (v & <- & Hin). apply in_seq in Hin. exists v. split; [lia | reflexivity].
  - intros (v & Hv & ->). exists v. split; [reflexivity | apply in_seq; lia].
Qed.

(** An entry of a square grid is a member of its flattening. *)
Lemma get_In_ravel (m : nat) (g : np.ndarray) (i j : nat) :
  square m g -> i < m -> j < m -> In (get g i j) (np.ravel g).
Proof.
  intros Hsq Hi Hj. unfold np.ravel, get.
  rewrite <- (nth_concat_square 0%Z Hsq Hi Hj).
  apply nth_In. rewrite (length_concat_square Hsq). nia.
Qed.

Lemma curve_permutation (k : nat) :
  Permutation (np.ravel (curve k)) (range (2 ^ k * 2 ^ k)).
Proof.
  symmetry. apply NoDup_Permutation_bis.
  - apply NoDup_range.
  - unfold np.ravel.
    rewrite (length_concat_square (curve_square k)), length_range. lia.
  - intros z Hz. apply In_range in Hz. destruct Hz as (v & Hv & ->).
    destruct (coord_spec k Hv) as (Hi & Hj & <-).
    apply (get_In_ravel (curve_square k)); assumption.
Qed.

Lemma NoDup_curve (k : nat) : NoDup (np.ravel (curve k)).
Proof.
  apply (Permutation_NoDup (l := range (2 ^ k * 2 ^ k))).
  - symmetry. apply curve_permutation.
  - apply NoDup_range.
Qed.

(** C1. For every power of two [n >= 1] (and a recursion limit that lets
    the [log2 n] nested calls run), [__hilbertCurve(n)] returns a grid of
    [n] rows of [n] entries whose entries, read row by row, are a
    permutation of [0, 1, ..., n*n - 1]: every value appears exactly once. *)
Theorem hilbertCurve_permutation (k depth : nat) (n : Z) :
  n = (2 ^ Z.of_nat k)%Z ->
  k < depth ->
  exists g : np.ndarray,
    hilbertCurve depth n = Ok g /\
    square (Z.to_nat n) g /\
    Permutation (np.ravel g) (range (Z.to_nat (n * n))).
Proof.
  intros -> Hd. exists (curve k).
  rewrite pow2_Z_nat, <- Nat2Z.inj_mul, !Nat2Z.id.
  split; [|split].
  - apply hilbertCurve_curve; [|exact Hd].
    rewrite <- !pow2_Z_nat, Nat2Z.inj_succ, Z.pow_succ_r by lia.
    assert (0 < 2 ^ Z.of_nat k)%Z by (apply Z.pow_pos_nonneg; lia). lia.
  - apply curve_square.
  - apply curve_permutation.
Qed.

Lemma hilbertCurve_permutation_witness :
  exists g : np.ndarray,
    hilbertCurve 5 4 = Ok g /\
    square (Z.to_nat 4) g /\
    Permutation (np.ravel g) (range (Z.to_nat (4 * 4))).
Proof.
  apply (@hilbertCurve_permutation 2 5 4%Z); [reflexivity | lia].
Defined.

(* ------------------------------------------------------------------ *)
(** ** Continuity of the curve *)

Lemma adjacent_iff (i j i' j' : nat) :
  adjacent (i, j) (i', j') = true <->
  (i = i' /\ (j = S j' \/ j' = S j)) \/ (j = j' /\ (i = S i' \/ i' = S i)).
Proof.
  unfold adjacent, distance. cbn [fst snd].
  rewrite orb_true_iff, !andb_true_iff, !Nat.eqb_eq. lia.
Qed.

Lemma coord_first (k : nat) : coord k 0 = (0, 0).
Proof.
  induction k as [|k IH]; [reflexivity|].
  rewrite coord_S. cbv zeta.
  rewrite Nat.Div0.mod_0_l, Nat.Div0.div_0_l, IH. reflexivity.
Qed.

Lemma coord_last (k : nat) : coord k (2 ^ k * 2 ^ k - 1) = (2 ^ k - 1, 0).
Proof.
  induction k as [|k IH]; [reflexivity|].
  rewrite coord_S. cbv zeta. rewrite Nat.pow_succ_r'.
  pose proof (pow2_pos k) as Hm. set (m := 2 ^ k) in *.
  assert (HM : 0 < m * m) by nia. set (M := m * m) in *.
  replace (2 * m * (2 * m) - 1) with (M * 3 + (M - 1)) by (unfold M; nia).
  rewrite <- (Nat.div_unique (M * 3 + (M - 1)) M 3 (M - 1)) by lia.
  rewrite <- (Nat.mod_unique (M * 3 + (M - 1)) M 3 (M - 1)) by lia.
  rewrite IH. f_equal; lia.
Qed.

(** Stepping from [v] to [v + 1] either stays inside a quadrant or
    enters the next one at its first value. *)
Lemma succ_div_mod (M v : nat) :
  0 < M ->
  (S v / M = v / M /\ S v mod M = S (v mod M)) \/
  (S v / M = S (v / M) /\ S v mod M = 0 /\ v mod M = M - 1).
Proof.
  intros HM.
  pose proof (Nat.div_mod_eq v M) as Hv.
  pose proof (Nat.mod_upper_bound v M ltac:(lia)) as Hr.
  destruct (Nat.eq_dec (v mod M) (M - 1)) as [He|Hne].
  - right.
    rewrite <- (Nat.div_unique (S v) M (S (v / M)) 0) by lia.
    rewrite <- (Nat.mod_unique (S v) M (S (v / M)) 0) by lia.
    repeat split. exact He.
  - left.
    rewrite <- (Nat.div_unique (S v) M (v / M) (S (v mod M))) by lia.
    rewrite <- (Nat.mod_unique (S v) M (v / M) (S (v mod M))) by lia.
    split; reflexivity.
Qed.

Lemma coord_adjacent (k v : nat) :
  S v < 2 ^ k * 2 ^ k ->
  adjacent (coord k v) (coord k (S v)) = true.
Proof.
  revert v. induction k as [|k IH]; intros v Hv; [simpl in Hv; lia|].
  rewrite !coord_S. cbv zeta. rewrite Nat.pow_succ_r' in Hv.
  pose proof (pow2_pos k) as Hm.
  pose proof (coord_last k) as Hlast. pose proof (coord_first k) as Hfirst.
  set (m := 2 ^ k) in *.
  assert (HM : 0 < m * m) by nia.
  assert (Hq : S v / (m * m) < 4) by (apply Nat.Div0.div_lt_upper_bound; nia).
  pose proof (Nat.mod_upper_bound v (m * m) ltac:(lia)) as Hr.
  pose proof (coord_spec k Hr) as (Hi & Hj & _). fold m in Hi, Hj.
  set (M := m * m) in *.
  destruct (succ_div_mod v HM) as [[Ed Em]|(Ed & Em & Er)]; rewrite Ed, Em.
  - (* same quadrant *)
    assert (Hr' : S (v mod M) < M) by (rewrite <- Em; apply Nat.mod_upper_bound; lia).
    pose proof (IH _ Hr') as Hadj.
    pose proof (coord_spec k Hr') as (Hi' & Hj' & _). fold m in Hi', Hj'.
    destruct (coord k (v mod M)) as [i j].
    destruct (coord k (S (v mod M))) as [i' j']. cbn [fst snd] in *.
    apply adjacent_iff in Hadj.
    destruct (v / M) as [|[|[|q]]]; apply adjacent_iff; lia.
  - (* the last value of a quadrant, then the first of the next *)
    rewrite Er. fold M in Hlast. rewrite Hlast, Hfirst.
    rewrite Ed in Hq.
    destruct (v / M) as [|[|[|q]]]; try lia; apply adjacent_iff; lia.
Qed.

Lemma NoDup_app_disjoint (A : Type) (l l' : list A) (a : A) :
  NoDup (l ++ l') -> In a l -> ~ In a l'.
Proof.
  induction l as [|x l IH]; simpl; intros Hnd Hin; [contradiction|].
  apply NoDup_cons_iff in Hnd. destruct Hnd as [Hx Hnd].
  destruct Hin as [->|Hin].
  - intros Ha. apply Hx, in_or_app. right. exact Ha.
  - apply IH; assumption.
Qed.

Lemma index_of_absent (v : Z) (l : list Z) : ~ In v l -> index_of v l = None.
Proof.
  induction l as [|x l IH]; simpl; intros Hn; [reflexivity|].
  destruct (Z.eqb_spec x v) as [->|_]; [exfalso; apply Hn; left; reflexivity|].
  rewrite IH; [reflexivity|]. intros Hin. apply Hn. right. exact Hin.
Qed.

Lemma index_of_nth (l : list Z) (j : nat) :
  NoDup l -> j < length l -> index_of (nth j l 0%Z) l = Some j.
Proof.
  revert j. induction l as [|x l IH]; simpl; intros j Hnd Hj; [lia|].
  apply NoDup_cons_iff in Hnd. destruct Hnd as [Hx Hnd].
  destruct j as [|j].
  - rewrite Z.eqb_refl. reflexivity.
  - destruct (Z.eqb_spec x (nth j l 0%Z)) as [He|_].
    + exfalso. apply Hx. rewrite He. apply nth_In. lia.
    + rewrite IH by (try assumption; lia). reflexivity.
Qed.

(** In a grid without repeated entries, searching for the entry at
    [(i, j)] finds that cell. *)
Lemma argwhere_get (g : np.ndarray) (i j : nat) :
  NoDup (np.ravel g) -> i < length g -> j < length (nth i g []) ->
  argwhere g (get g i j) = Some (i, j).
Proof.
  unfold np.ravel, get. revert i.
  induction g as [|row rows IH]; simpl; intros i Hnd Hi Hj; [lia|].
  destruct i as [|i].
  - rewrite index_of_nth by (try assumption; apply (NoDup_app_remove_r _ _ Hnd)).
    reflexivity.
  - assert (Hin : In (nth j (nth i rows []) 0%Z) (concat rows)).
    { apply in_concat. exists (nth i rows []). split; apply nth_In; lia. }
    rewrite index_of_absent.
    + rewrite IH by (try assumption; try lia; apply (NoDup_app_remove_l _ _ Hnd)).
      reflexivity.
    + intros Hrow. exact (NoDup_app_disjoint _ _ _ Hnd Hrow Hin).
Qed.

Lemma argwhere_curve (k v : nat) :
  v < 2 ^ k * 2 ^ k -> argwhere (curve k) (Z.of_nat v) = Some (coord k v).
Proof.
  intros Hv. destruct (coord_spec k Hv) as (Hi & Hj & Hg).
  destruct (coord k v) as [i j]. cbn [fst snd] in *.
  rewrite <- Hg. apply argwhere_get.
  - apply NoDup_curve.
  - rewrite (square_length (curve_square k)). exact Hi.
  - rewrite (square_row (curve_square k) Hi). exact Hj.
Qed.

(** C2. For every power of two [n >= 1] and every [v] with
    [0 <= v < n*n - 1], the cells that hold [v] and [v + 1] in the grid
    returned by [__hilbertCurve(n)] are adjacent: their rows and columns
    differ by exactly 1 in exactly one coordinate and by 0 in the other. *)
Theorem hilbertCurve_continuous (k depth : nat) (n v : Z) :
  n = (2 ^ Z.of_nat k)%Z ->
  k < depth ->
  (0 <= v < n * n - 1)%Z ->
  exists (g : np.ndarray) (p q : nat * nat),
    hilbertCurve depth n = Ok g /\
    argwhere g v = Some p /\
    argwhere g (v + 1) = Some q /\
    adjacent p q = true.
Proof.
  intros -> Hd Hv.
  rewrite pow2_Z_nat, <- Nat2Z.inj_mul in Hv.
  assert (Hs : S (Z.to_nat v) < 2 ^ k * 2 ^ k) by lia.
  exists (curve k), (coord k (Z.to_nat v)), (coord k (S (Z.to_nat v))).
  split; [|split; [|split]].
  - apply hilbertCurve_curve; [|exact Hd].
    rewrite Nat2Z.inj_succ, Z.pow_succ_r by lia.
    assert (0 < 2 ^ Z.of_nat k)%Z by (apply Z.pow_pos_nonneg; lia). lia.
  - rewrite <- (Z2Nat.id v) at 1 by lia. apply argwhere_curve. lia.
  - replace (v + 1)%Z with (Z.of_nat (S (Z.to_nat v))) by lia.
    apply argwhere_curve. exact Hs.
  - apply coord_adjacent. exact Hs.
Qed.

Lemma hilbertCurve_continuous_witness :
  exists (g : np.ndarray) (p q : nat * nat),
    hilbertCurve 5 4 = Ok g /\
    argwhere g 7 = Some p /\
    argwhere g (7 + 1) = Some q /\
    adjacent p q = true.
Proof.
  apply (@hilbertCurve_continuous 2 5 4%Z 7%Z); [reflexivity | lia | lia].
Defined.

(* ------------------------------------------------------------------ *)
(** ** Sizes that are not powers of two *)

Lemma log2_bounds (n : Z) :
  (1 <= n)%Z ->
  (2 ^ Z.of_nat (Z.to_nat (Z.log2 n)) <= n
   < 2 ^ Z.of_nat (S (Z.to_nat (Z.log2 n))))%Z.
Proof.
  intros Hn. pose proof (Z.log2_nonneg n) as Hl.
  rewrite Nat2Z.inj_succ, Z2Nat.id by exact Hl.
  apply Z.log2_spec. lia.
Qed.

Lemma hilbertCurve_log2 (depth : nat) (n : Z) :
  (1 <= n)%Z -> (Z.log2 n < Z.of_nat depth)%Z ->
  hilbertCurve depth n = Ok (curve (Z.to_nat (Z.log2 n))).
Proof.
  intros Hn Hd. pose proof (Z.log2_nonneg n).
  apply hilbertCurve_curve; [apply log2_bounds; exact Hn | lia].
Qed.

(** The generator has no size check: 3 is halved to 1 like 2 is. *)
Lemma hilbertCurve_3 : hilbertCurve 10 3 = Ok [[0; 1]; [3; 2]]%Z.
Proof. reflexivity. Qed.

(** C4, amended.  Below 1 the generator returns no grid: the halving
    never reaches 1 and the call ends in [RecursionError] whatever the
    recursion limit.  From 1 on it raises nothing, power of two or not: it
    returns the grid it returns for the largest power of two not above
    [n], a square of that side. *)
Theorem hilbertCurve_any_size (depth : nat) (n : Z) :
  ((n < 1)%Z -> hilbertCurve depth n = Raise RecursionError) /\
  ((1 <= n)%Z -> (Z.log2 n < Z.of_nat depth)%Z ->
   exists g : np.ndarray,
     hilbertCurve depth n = Ok g /\
     hilbertCurve depth (2 ^ Z.log2 n) = Ok g /\
     square (Z.to_nat (2 ^ Z.log2 n)) g).
Proof.
  split.
  - apply hilbertCurve_below_1.
  - intros Hn Hd. pose proof (Z.log2_nonneg n) as Hl.
    exists (curve (Z.to_nat (Z.log2 n))). split; [|split].
    + apply hilbertCurve_log2; assumption.
    + assert (Hp : (0 < 2 ^ Z.log2 n)%Z) by (apply Z.pow_pos_nonneg; lia).
      rewrite <- (Z.log2_pow2 (Z.log2 n)) at 2 by exact Hl.
      apply hilbertCurve_log2; [lia|].
      rewrite Z.log2_pow2 by exact Hl. exact Hd.
    + rewrite <- (Z2Nat.id (Z.log2 n)) at 1 by exact Hl.
      rewrite pow2_Z_nat, Nat2Z.id. apply curve_square.
Qed.

Lemma hilbertCurve_any_size_witness :
  hilbertCurve 5 0 = Raise RecursionError /\
  exists g : np.ndarray,
    hilbertCurve 5 3 = Ok g /\
    hilbertCurve 5 (2 ^ Z.log2 3) = Ok g /\
    square (Z.to_nat (2 ^ Z.log2 3)) g.
Proof.
  split.
  - apply (proj1 (hilbertCurve_any_size 5 0)). lia.
  - apply (proj2 (hilbertCurve_any_size 5 3)); [lia | reflexivity].
Defined.

(* ------------------------------------------------------------------ *)
(** ** Re-indexing a vector along the curve *)

Lemma mapM_total (A B : Type) (f : A -> result B) (g : A -> B) (l : list A) :
  (forall x, In x l -> f x = Ok (g x)) -> mapM f l = Ok (map g l).
Proof.
  induction l as [|x l IH]; simpl; intros Hf; [reflexivity|].
  rewrite Hf by (left; reflexivity). simpl.
  rewrite IH by (intros y Hy; apply Hf; right; exact Hy). reflexivity.
Qed.

Lemma range_S (n : nat) : range (S n) = range n ++ [Z.of_nat n].
Proof. unfold range. rewrite seq_S, map_app. reflexivity. Qed.

(** On the bins [0, 1, ..., n-1] the bin of an integer is the integer
    itself, capped at [n]. *)
Lemma digitize_range (x : Z) (n : nat) :
  np.digitize x (range n) = Nat.min (Z.to_nat x) n.
Proof.
  unfold np.digitize. induction n as [|n IH]; [simpl; lia|].
  rewrite range_S, filter_app, length_app, IH. simpl.
  destruct (Z.ltb_spec (Z.of_nat n) x); simpl; lia.
Qed.

Lemma getitem_nth (A : Type) (l : list A) (d : A) (i : nat) :
  i < length l -> getitem l i = Ok (nth i l d).
Proof.
  intros Hi. unfold getitem. rewrite (nth_error_nth' l d Hi). reflexivity.
Qed.

Lemma In_curve_bound (k : nat) (x : Z) :
  In x (np.ravel (curve k)) -> (0 <= x < Z.of_nat (2 ^ k * 2 ^ k))%Z.
Proof.
  intros Hin.
  apply (Permutation_in _ (curve_permutation k)), In_range in Hin.
  destruct Hin as (v & Hv & ->). lia.
Qed.

Lemma square_map_map (A B : Type) (f : A -> B) (m : nat) (g : list (list A)) :
  square m g -> square m (map (map f) g).
Proof.
  intros [Hl Hr]. split.
  - rewrite length_map. exact Hl.
  - apply Forall_map. apply (Forall_impl _ (P := fun row => length row = m)).
    + intros row. rewrite length_map. exact (fun e => e).
    + exact Hr.
Qed.

Lemma reshape_map_ravel (A : Type) (f : Z -> A) (m : nat) (g : np.ndarray) :
  square m g -> 0 < m ->
  np.reshape (np.nrows g) (np.ncols g) (map f (np.ravel g)) = map (map f) g.
Proof.
  intros Hsq Hm. unfold np.ravel, np.nrows.
  rewrite (ncols_square Hsq Hm), concat_map.
  destruct (square_map_map f Hsq) as [Hl Hr].
  rewrite <- (length_map (map f) g).
  apply reshape_concat. exact Hr.
Qed.

Lemma picked_curve (A : Type) (k : nat) (v : list A) (d : A) :
  2 ^ k * 2 ^ k <= length v ->
  mapM (getitem v)
       (map (fun x => np.digitize x (range (length v))) (np.ravel (curve k))) =
  Ok (map (fun x => nth (Z.to_nat x) v d) (np.ravel (curve k))).
Proof.
  intros Hfit.
  rewrite (@mapM_total _ _ _ (fun p => nth p v d)).
  - f_equal. rewrite map_map. apply map_ext_in. intros x Hx.
    apply In_curve_bound in Hx. rewrite digitize_range. f_equal. lia.
  - intros p Hp. apply in_map_iff in Hp. destruct Hp as (x & <- & Hx).
    apply In_curve_bound in Hx. rewrite digitize_range.
    apply getitem_nth. lia.
Qed.

Lemma vectorToHilbert_nonempty (A : Type) (depth : nat) (v : list A) :
  0 < length v ->
  vectorToHilbert depth v =
  (hilbert_indices <- hilbertCurve depth (int_sqrt_len v) ;;
   picked <- mapM (getitem v)
                  (map (fun x => np.digitize x (range (length v)))
                       (np.ravel hilbert_indices)) ;;
   Ok (np.reshape (np.nrows hilbert_indices) (np.ncols hilbert_indices) picked)).
Proof. destruct v; simpl; [lia | reflexivity]. Qed.

(** When the curve of order [k] fits into the vector, the result is the
    curve with every index replaced by the element at that index. *)
Lemma vectorToHilbert_curve (A : Type) (depth k : nat) (v : list A) (d : A) :
  hilbertCurve depth (int_sqrt_len v) = Ok (curve k) ->
  0 < length v ->
  2 ^ k * 2 ^ k <= length v ->
  vectorToHilbert depth v =
  Ok (map (map (fun x => nth (Z.to_nat x) v d)) (curve k)).
Proof.
  intros Hc Hne Hfit.
  rewrite (vectorToHilbert_nonempty depth v Hne), Hc. cbn [bind].
  rewrite (picked_curve k v d Hfit). cbn [bind]. f_equal.
  apply (reshape_map_ravel _ (curve_square k)), pow2_pos.
Qed.

(* ------------------------------------------------------------------ *)
(** ** Lengths that are not squares *)

Lemma int_sqrt_len_pos (A : Type) (v : list A) :
  0 < length v -> (1 <= int_sqrt_len v)%Z.
Proof.
  intros Hne. unfold int_sqrt_len.
  pose proof (Z.sqrt_spec (Z.of_nat (length v)) ltac:(lia)) as Hs.
  cbv zeta in Hs.
  pose proof (Z.sqrt_nonneg (Z.of_nat (length v))).
  destruct (Z.eq_dec (Z.sqrt (Z.of_nat (length v))) 0) as [E|]; [|lia].
  rewrite E in Hs. lia.
Qed.

Lemma curve_fits (A : Type) (v : list A) :
  0 < length v ->
  let k := Z.to_nat (Z.log2 (int_sqrt_len v)) in
  2 ^ k * 2 ^ k <= length v.
Proof.
  intros Hne k.
  pose proof (int_sqrt_len_pos v Hne) as Hn.
  pose proof (log2_bounds Hn) as [Hlo _]. fold k in Hlo.
  rewrite pow2_Z_nat in Hlo.
  unfold int_sqrt_len in *.
  pose proof (Z.sqrt_spec (Z.of_nat (length v)) ltac:(lia)) as Hs.
  cbv zeta in Hs. destruct Hs as [Hs _].
  nia.
Qed.

(** Fifteen weights are rendered like the first four: no error is
    raised by [vector_hilbert], by [exportPng] or by [exportHtml]. *)
Lemma render_15_succeeds :
  vector_hilbert 10 sample_15 = Ok [[PInt 0; PInt 1]; [PInt 3; PInt 2]]%Z /\
  exportPng 10 sample_15 0 =
    Ok [[(-1, -1, -1); (0, 0, 0)]; [(0, 0, 0); (0, 0, 0)]]%Z /\
  option_map (map (map sentinel_branch))
    (match exportHtml 10 sample_15 with Ok cells => Some cells | Raise _ => None end)
  = Some [[true; false]; [false; false]].
Proof. vm_compute. repeat split. Qed.

(** C5, amended.  There is no check of the vector's length: for every
    non-empty vector, square or not, the re-indexing behind [exportPng] and
    [vector_hilbert] calls the curve generator with the integer part of
    the square root of the length and, given the frames for its recursion,
    returns a grid: the returned curve with every index replaced by the
    vector's element at that index.  Elements beyond the curve's last
    index are left out. *)
Theorem vectorToHilbert_any_length (A : Type) (depth : nat) (v : list A) (d : A) :
  0 < length v ->
  (Z.log2 (int_sqrt_len v) < Z.of_nat depth)%Z ->
  exists hilbert_indices : np.ndarray,
    hilbertCurve depth (int_sqrt_len v) = Ok hilbert_indices /\
    vectorToHilbert depth v =
    Ok (map (map (fun x => nth (Z.to_nat x) v d)) hilbert_indices).
Proof.
  intros Hne Hd.
  pose proof (hilbertCurve_log2 depth (int_sqrt_len_pos v Hne) Hd) as Hc.
  exists (curve (Z.to_nat (Z.log2 (int_sqrt_len v)))). split; [exact Hc|].
  apply vectorToHilbert_curve; [exact Hc | exact Hne | apply curve_fits, Hne].
Qed.

Lemma vectorToHilbert_any_length_witness :
  exists hilbert_indices : np.ndarray,
    hilbertCurve 10 (int_sqrt_len (range 15)) = Ok hilbert_indices /\
    vectorToHilbert 10 (range 15) =
    Ok (map (map (fun x => nth (Z.to_nat x) (range 15) 0%Z)) hilbert_indices).
Proof.
  apply (@vectorToHilbert_any_length Z 10 (range 15) 0%Z);
    [simpl; lia | reflexivity].
Defined.

(* ------------------------------------------------------------------ *)
(** ** Upsampling *)

Section Division.

Variables f q i : nat.
Hypothesis Hf : 0 < f.

Lemma div_lt_blocks : i < q * f <-> i / f < q.
Proof.
  pose proof (Nat.div_mod_eq i f). pose proof (Nat.mod_upper_bound i f ltac:(lia)).
  split; intros; nia.
Qed.

Lemma div_sub_blocks : q * f <= i -> (i - q * f) / f = i / f - q.
Proof.
  intros Hi.
  pose proof (Nat.div_mod_eq i f). pose proof (Nat.mod_upper_bound i f ltac:(lia)).
  assert (q <= i / f) by nia.
  symmetry. apply (Nat.div_unique _ _ _ (i mod f)); [lia | nia].
Qed.

Lemma div_mirror_blocks : i < q * f -> (q * f - 1 - i) / f = q - 1 - i / f.
Proof.
  intros Hi.
  pose proof (Nat.div_mod_eq i f). pose proof (Nat.mod_upper_bound i f ltac:(lia)).
  assert (i / f < q) by nia.
  symmetry. apply (Nat.div_unique _ _ _ (f - 1 - i mod f)); [lia | nia].
Qed.

End Division.

Section Repeat.

Variable A : Type.

Lemma length_flat_repeat (f : nat) (l : list A) :
  length (flat_map (fun x => repeat x f) l) = length l * f.
Proof.
  apply flat_map_constant_length. intros x _. apply repeat_length.
Qed.

Lemma nth_flat_repeat (f : nat) (l : list A) (d : A) (p : nat) :
  0 < f -> p < length l * f ->
  nth p (flat_map (fun x => repeat x f) l) d = nth (p / f) l d.
Proof.
  intros Hf. revert p. induction l as [|x l IH]; simpl; intros p Hp; [lia|].
  destruct (Nat.lt_ge_cases p f) as [Hlt|Hge].
  - rewrite app_nth1 by (rewrite repeat_length; exact Hlt).
    rewrite nth_repeat_lt by exact Hlt.
    rewrite Nat.div_small by exact Hlt. reflexivity.
  - rewrite app_nth2 by (rewrite repeat_length; exact Hge).
    rewrite repeat_length, IH by lia.
    pose proof (@div_sub_blocks f 1 p Hf ltac:(lia)) as Hd.
    rewrite Nat.mul_1_l in Hd. rewrite Hd.
    assert (1 <= p / f) by (apply Nat.div_le_lower_bound; lia).
    destruct (p / f) as [|n]; [lia|]. simpl. rewrite Nat.sub_0_r. reflexivity.
Qed.

End Repeat.

Section Upsample.

Variable A : Type.

Lemma upsample_rows (f : nat) (g : list (list A)) :
  upsample f g =
  flat_map (fun row => repeat row f)
           (map (flat_map (fun x => repeat x f)) g).
Proof.
  unfold upsample. induction g as [|row g IH]; simpl; [reflexivity|].
  rewrite IH. reflexivity.
Qed.

Lemma square_upsample (f m : nat) (g : list (list A)) :
  square m g -> square (m * f) (upsample f g).
Proof.
  intros [Hl Hr]. rewrite upsample_rows. split.
  - rewrite length_flat_repeat, length_map, Hl. reflexivity.
  - apply Forall_forall. intros row Hin.
    apply in_flat_map in Hin. destruct Hin as (r & Hr' & Hin).
    apply repeat_spec in Hin.
    apply in_map_iff in Hr'. destruct Hr' as (r0 & Er & Hr0).
    rewrite Hin, <- Er, length_flat_repeat.
    rewrite Forall_forall in Hr. rewrite (Hr r0 Hr0). reflexivity.
Qed.

Lemma nth_upsample (f m : nat) (g : list (list A)) (d : A) (i j : nat) :
  square m g -> 0 < f -> i < m * f -> j < m * f ->
  nth j (nth i (upsample f g) []) d = nth (j / f) (nth (i / f) g []) d.
Proof.
  intros Hsq Hf Hi Hj.
  assert (Hi' : i / f < m) by (apply div_lt_blocks; assumption).
  rewrite upsample_rows.
  rewrite nth_flat_repeat by
    (try exact Hf; rewrite length_map, (square_length Hsq); exact Hi).
  rewrite (nth_map_in _ _ []) by (rewrite (square_length Hsq); exact Hi').
  apply nth_flat_repeat; [exact Hf|].
  rewrite (square_row Hsq Hi'). exact Hj.
Qed.

End Upsample.

(** Seen in blocks of side [2^s], the curve of order [k + s] is the
    curve of order [k]: the values of one block are the [4^s] successors of
    [4^s] times the block's value. *)
Lemma curve_coarse (s k i j : nat) :
  i < 2 ^ (k + s) -> j < 2 ^ (k + s) ->
  (get (curve (k + s)) i j / Z.of_nat (2 ^ s * 2 ^ s))%Z =
  get (curve k) (i / 2 ^ s) (j / 2 ^ s).
Proof.
  pose proof (pow2_pos s) as Hf. set (f := 2 ^ s) in *.
  assert (HF : (0 < Z.of_nat (f * f))%Z) by nia.
  revert i j. induction k as [|k IH]; intros i j Hi Hj.
  - change (0 + s) with s in *. fold f in Hi, Hj.
    pose proof (curve_bound s Hi Hj) as Hb. fold f in Hb.
    rewrite Z.div_small by exact Hb.
    rewrite !Nat.div_small by assumption. reflexivity.
  - change (S k + s) with (S (k + s)) in *.
    rewrite Nat.pow_succ_r' in Hi, Hj.
    rewrite !curve_S.
    pose proof (pow2_pos k) as Hm'.
    assert (Em : 2 ^ (k + s) = 2 ^ k * f) by apply Nat.pow_add_r.
    set (m := 2 ^ (k + s)) in *. set (m' := 2 ^ k) in *.
    assert (Hi' : i / f < 2 * m')
      by (apply (proj1 (@div_lt_blocks f (2 * m') i Hf));
          rewrite <- Nat.mul_assoc, <- Em; exact Hi).
    assert (Hj' : j / f < 2 * m')
      by (apply (proj1 (@div_lt_blocks f (2 * m') j Hf));
          rewrite <- Nat.mul_assoc, <- Em; exact Hj).
    rewrite (get_quadrants (curve_square (k + s))) by (fold m; assumption).
    rewrite (get_quadrants (curve_square k)) by (fold m'; assumption).
    fold m. fold m'.
    assert (EM : Z.of_nat (m * m) = (Z.of_nat (m' * m') * Z.of_nat (f * f))%Z) by nia.
    pose proof (@div_lt_blocks f m' i Hf) as Li.
    pose proof (@div_lt_blocks f m' j Hf) as Lj.
    rewrite <- Em in Li, Lj.
    destruct (Nat.ltb_spec i m) as [Him|Him];
      destruct (Nat.ltb_spec (i / f) m') as [Him'|Him']; try lia;
      destruct (Nat.ltb_spec j m) as [Hjm|Hjm];
      destruct (Nat.ltb_spec (j / f) m') as [Hjm'|Hjm']; try lia.
    + apply IH; assumption.
    + rewrite EM, Z.div_add by lia.
      rewrite IH by lia. rewrite Em, div_sub_blocks by lia. reflexivity.
    + replace (Z.of_nat (m * m) * 3)%Z
        with (Z.of_nat (m' * m') * 3 * Z.of_nat (f * f))%Z by lia.
      rewrite Z.div_add by lia. rewrite IH by lia.
      rewrite Em. rewrite !div_mirror_blocks by lia.
      rewrite div_sub_blocks by lia. reflexivity.
    + replace (Z.of_nat (m * m) * 2)%Z
        with (Z.of_nat (m' * m') * 2 * Z.of_nat (f * f))%Z by lia.
      rewrite Z.div_add by lia. rewrite IH by lia.
      rewrite Em. rewrite !div_sub_blocks by lia. reflexivity.
Qed.

Lemma hilbertCurve_pow2 (depth k : nat) :
  k < depth -> hilbertCurve depth (Z.of_nat (2 ^ k)) = Ok (curve k).
Proof.
  intros Hd. apply hilbertCurve_curve; [|exact Hd].
  rewrite <- pow2_Z_nat, Nat2Z.inj_succ, Z.pow_succ_r by lia.
  assert (0 < 2 ^ Z.of_nat k)%Z by (apply Z.pow_pos_nonneg; lia). lia.
Qed.

Lemma int_sqrt_len_square (A : Type) (v : list A) (m : nat) :
  length v = m * m -> int_sqrt_len v = Z.of_nat m.
Proof.
  intros Hl. unfold int_sqrt_len.
  rewrite Hl, Nat2Z.inj_mul. apply Z.sqrt_square. lia.
Qed.

Lemma vectorToHilbert_square (A : Type) (depth k : nat) (v : list A) (d : A) :
  length v = 2 ^ k * 2 ^ k -> k < depth ->
  vectorToHilbert depth v =
  Ok (map (map (fun x => nth (Z.to_nat x) v d)) (curve k)).
Proof.
  intros Hl Hd. pose proof (pow2_pos k).
  apply vectorToHilbert_curve.
  - rewrite (@int_sqrt_len_square _ v _ Hl). apply hilbertCurve_pow2, Hd.
  - nia.
  - lia.
Qed.

(** Reading the rendered grid back through the inverse of the curve
    recovers the vector. *)
Lemma vectorToHilbert_round_trip (A : Type) (depth k : nat) (v : list A)
    (G : list (list A)) (d : A) (i : nat) :
  length v = 2 ^ k * 2 ^ k -> k < depth ->
  vectorToHilbert depth v = Ok G ->
  i < length v ->
  nth (snd (coord k i)) (nth (fst (coord k i)) G []) d = nth i v d.
Proof.
  intros Hl Hd HG Hi.
  rewrite (@vectorToHilbert_square _ depth k v d Hl Hd) in HG.
  injection HG as <-. rewrite Hl in Hi.
  destruct (coord_spec k Hi) as (Hr & Hc & Hg).
  pose proof (curve_square k) as Hsq.
  rewrite (nth_map_in _ _ []) by (rewrite (square_length Hsq); exact Hr).
  rewrite (nth_map_in _ _ 0%Z) by (rewrite (square_row Hsq Hr); exact Hc).
  fold (get (curve k) (fst (coord k i)) (snd (coord k i))).
  rewrite Hg, Nat2Z.id. reflexivity.
Qed.

(** Re-indexing the vector in which every element is repeated [4^s]
    times gives the re-indexed vector with every cell blown up to a block
    of side [2^s]. *)
Lemma vectorToHilbert_scaled (A : Type) (depth k s : nat) (l : list A) :
  length l = 2 ^ k * 2 ^ k ->
  k + s < depth ->
  exists G : list (list A),
    vectorToHilbert depth l = Ok G /\
    vectorToHilbert depth (flat_map (fun e => repeat e (2 ^ s * 2 ^ s)) l) =
    Ok (upsample (2 ^ s) G).
Proof.
  intros Hl Hd.
  pose proof (pow2_pos k) as Hm. pose proof (pow2_pos s) as Hf.
  destruct l as [|d l0] eqn:El; [simpl in Hl; nia|]. rewrite <- El in *. clear El l0.
  exists (map (map (fun x => nth (Z.to_nat x) l d)) (curve k)).
  split; [apply vectorToHilbert_square; [exact Hl | lia]|].
  set (f := 2 ^ s) in *. set (m := 2 ^ k) in *.
  set (scaled := flat_map (fun e => repeat e (f * f)) l).
  assert (Em : 2 ^ (k + s) = m * f) by apply Nat.pow_add_r.
  assert (Hls : length scaled = 2 ^ (k + s) * 2 ^ (k + s)).
  { unfold scaled. rewrite length_flat_repeat, Hl, Em. lia. }
  rewrite (@vectorToHilbert_square _ depth (k + s) scaled d Hls Hd). f_equal.
  pose proof (curve_square (k + s)) as Hsq.
  pose proof (curve_square k) as Hsq0. fold m in Hsq0.
  apply (grid_ext (m := 2 ^ (k + s)) d).
  - apply square_map_map, Hsq.
  - rewrite Em. apply square_upsample, square_map_map, Hsq0.
  - intros i j Hi Hj.
    rewrite (@nth_upsample _ f m _ d i j (square_map_map _ Hsq0) Hf) by lia.
    assert (Hi' : i / f < m) by (apply (proj1 (@div_lt_blocks f m i Hf)); lia).
    assert (Hj' : j / f < m) by (apply (proj1 (@div_lt_blocks f m j Hf)); lia).
    rewrite (nth_map_in _ _ []) by (rewrite (square_length Hsq); exact Hi).
    rewrite (nth_map_in _ _ 0%Z) by (rewrite (square_row Hsq Hi); exact Hj).
    rewrite (nth_map_in _ _ []) by (rewrite (square_length Hsq0); exact Hi').
    rewrite (nth_map_in _ _ 0%Z) by (rewrite (square_row Hsq0 Hi'); exact Hj').
    fold (get (curve (k + s)) i j). fold (get (curve k) (i / f) (j / f)).
    pose proof (curve_bound (k + s) Hi Hj) as Hb.
    pose proof (curve_coarse s k Hi Hj) as Hc. fold f in Hc.
    unfold scaled. rewrite nth_flat_repeat by (rewrite ?Hl; nia).
    f_equal. rewrite <- Hc, Z2Nat.inj_div, Nat2Z.id by lia. reflexivity.
Qed.

Lemma mapM_nth (A B : Type) (f : A -> result B) (l : list A) (ys : list B)
    (d : A) (d' : B) (i : nat) :
  mapM f l = Ok ys -> i < length l -> f (nth i l d) = Ok (nth i ys d').
Proof.
  revert ys i. induction l as [|x l IH]; simpl; intros ys i Hm Hi; [lia|].
  destruct (f x) as [y|e] eqn:Ey; simpl in Hm; [|discriminate].
  destruct (mapM f l) as [zs|e] eqn:Ezs; simpl in Hm; [|discriminate].
  injection Hm as <-. destruct i as [|i]; simpl; [exact Ey|].
  apply IH; [reflexivity | lia].
Qed.

Lemma nth_combine (A B : Type) (l : list A) (l' : list B) (x : A) (y : B)
    (i : nat) :
  i < length l -> i < length l' ->
  nth i (combine l l') (x, y) = (nth i l x, nth i l' y).
Proof.
  revert l' i. induction l as [|a l IH]; intros [|b l'] [|i]; simpl;
    intros H1 H2; try lia; [reflexivity|].
  apply IH; lia.
Qed.

Lemma mapM_length (A B : Type) (f : A -> result B) (l : list A) (l' : list B) :
  mapM f l = Ok l' -> length l' = length l.
Proof.
  revert l'. induction l as [|x l IH]; simpl; intros l' Hm.
  - injection Hm as <-. reflexivity.
  - destruct (f x) as [y|e]; simpl in Hm; [|discriminate].
    destruct (mapM f l) as [ys|e]; simpl in Hm; [|discriminate].
    injection Hm as <-. simpl. f_equal. apply IH. reflexivity.
Qed.

Lemma map_flat_repeat (A B : Type) (h : A -> B) (f : nat) (l : list A) :
  map h (flat_map (fun x => repeat x f) l) =
  flat_map (fun x => repeat x f) (map h l).
Proof.
  induction l as [|x l IH]; simpl; [reflexivity|].
  rewrite map_app, map_repeat, IH. reflexivity.
Qed.

(** Converting the cells commutes with blowing them up. *)
Lemma upsample_map (A B : Type) (h : A -> B) (f : nat) (g : list (list A)) :
  map (map h) (upsample f g) = upsample f (map (map h) g).
Proof.
  unfold upsample. induction g as [|row g IH]; simpl; [reflexivity|].
  rewrite map_app, map_repeat, map_flat_repeat, IH. reflexivity.
Qed.

Lemma pow4_to_nat (s : Z) :
  (0 <= s)%Z -> Z.to_nat (4 ^ s) = 2 ^ Z.to_nat s * 2 ^ Z.to_nat s.
Proof.
  intros Hs. change 4%Z with (2 * 2)%Z.
  rewrite Z.pow_mul_l, <- (Z2Nat.id s) at 1 by exact Hs.
  rewrite <- (Z2Nat.id s) at 2 by exact Hs.
  rewrite pow2_Z_nat, <- Nat2Z.inj_mul, Nat2Z.id. reflexivity.
Qed.

Section ExportPng.

Context {T : Type} `{Number T}.

(** C6. For a vector of [N * N] weights, [N] a power of two, and a scale
    factor [s >= 0], the pixel grid [exportPng] computes (every mapped
    colour repeated [4^s] times in the one-dimensional sequence, which is
    then laid out along the curve of side [N * 2^s]) is the [N] by [N]
    grid of the mapped colours laid out along the curve of side [N] (the
    cell where the curve holds the index [i] gets [__mapColor] of the
    weight and the base colour with index [i]), with every cell replicated
    into a block of [2^s] by [2^s] identical pixels. *)
Theorem exportPng_upsamples (depth k : nat) (s : Z) (self : ApiQR T)
    (colored : list color) :
  length (vector self) = 2 ^ k * 2 ^ k ->
  2 ^ k * 2 ^ k <= length (colors (context self)) ->
  colored_vector self = Ok colored ->
  (0 <= s)%Z ->
  k + Z.to_nat s < depth ->
  (forall i : nat, i < 2 ^ k * 2 ^ k ->
     mapColor (context self) (nth i (vector self) (PInt 0))
              (nth i (colors (context self)) white)
     = Ok (nth i colored white)) /\
  exists hilbert_indices : np.ndarray,
    hilbertCurve depth (2 ^ Z.of_nat k) = Ok hilbert_indices /\
    square (2 ^ k) hilbert_indices /\
    let G :=
      map (map (fun index => nth (Z.to_nat index) colored white))
          hilbert_indices in
    vectorToHilbert depth colored = Ok G /\
    exportPng depth self s =
    Ok (upsample (2 ^ Z.to_nat s) (map (map int8_color) G)).
Proof.
  intros Hv Hc Hcol Hs Hd.
  assert (Hl : length colored = 2 ^ k * 2 ^ k).
  { unfold colored_vector in Hcol. apply mapM_length in Hcol.
    rewrite Hcol, length_combine, Hv. apply Nat.min_l, Hc. }
  split.
  { intros i Hi. unfold colored_vector in Hcol.
    pose proof (@mapM_nth _ _ _ _ _ (PInt 0, white) white i Hcol) as Hn.
    rewrite length_combine, Hv, (Nat.min_l _ _ Hc) in Hn.
    specialize (Hn Hi). rewrite nth_combine in Hn by lia. exact Hn. }
  exists (curve k). split; [rewrite pow2_Z_nat; apply hilbertCurve_pow2; lia|].
  split; [apply curve_square|]. cbv zeta.
  pose proof (@vectorToHilbert_square _ depth k colored white Hl ltac:(lia))
    as HG.
  split; [exact HG|].
  destruct (@vectorToHilbert_scaled _ depth k (Z.to_nat s) colored Hl Hd)
    as (G & HG' & Hscaled).
  rewrite HG in HG'. injection HG' as <-.
  unfold exportPng. rewrite Hcol. cbn [bind].
  unfold scaled_vector.
  destruct (Z.ltb_spec s 0) as [Hneg|_]; [lia|]. cbn [bind].
  rewrite <- flat_map_concat_map, (pow4_to_nat Hs), Hscaled. cbn [bind].
  rewrite upsample_map. reflexivity.
Qed.

End ExportPng.

Lemma exportPng_upsamples_witness :
  (forall i : nat, i < 2 ^ 1 * 2 ^ 1 ->
     mapColor (context sample_4) (nth i (vector sample_4) (PInt 0))
              (nth i (colors (context sample_4)) white)
     = Ok (nth i sample_4_colored white)) /\
  exists hilbert_indices : np.ndarray,
    hilbertCurve 5 (2 ^ Z.of_nat 1) = Ok hilbert_indices /\
    square (2 ^ 1) hilbert_indices /\
    let G :=
      map (map (fun index => nth (Z.to_nat index) sample_4_colored white))
          hilbert_indices in
    vectorToHilbert 5 sample_4_colored = Ok G /\
    exportPng 5 sample_4 1 =
    Ok (upsample (2 ^ Z.to_nat 1) (map (map int8_color) G)).
Proof.
  apply (@exportPng_upsamples float _ 5 1 1%Z sample_4 sample_4_colored);
    [reflexivity | simpl; lia | vm_compute; reflexivity | lia | simpl; lia].
Defined.

(* ------------------------------------------------------------------ *)
(** ** The colour mapper at the ends of the scale *)

(** C7. For every base colour [c], [__mapColor(1, c)] is [c] and
    [__mapColor(0, c)] is the context's sentinel colour, whether 1 and 0
    are written as integers, as floats or as the booleans [True] and
    [False]; in binary64 as in exact arithmetic. *)
Theorem mapColor_endpoints (ctx : ApiQRContext) (c : color) :
  maps_endpoints float ctx c /\ maps_endpoints Q ctx c.
Proof. split; repeat split. Qed.

(* ------------------------------------------------------------------ *)
(** ** The colour mapper in exact arithmetic *)

Lemma Qtrunc_nonneg (x : Q) : (0 <= x)%Q -> Qtrunc x = Qfloor x.
Proof.
  destruct x as [n d]. unfold Qle, Qtrunc, Qfloor. simpl. intros Hn.
  apply Z.quot_div_nonneg; lia.
Qed.

Lemma Qtrunc_nonpos (x : Q) : (x <= 0)%Q -> Qtrunc x = Qceiling x.
Proof.
  destruct x as [n d]. unfold Qle, Qtrunc, Qceiling, Qfloor. simpl. intros Hn.
  rewrite <- (Z.opp_involutive n) at 1.
  rewrite Z.quot_opp_l by lia. f_equal.
  apply Z.quot_div_nonneg; lia.
Qed.

(** Taking the integer part is monotone. *)
Lemma Qtrunc_le (x y : Q) : (x <= y)%Q -> (Qtrunc x <= Qtrunc y)%Z.
Proof.
  intros Hxy.
  destruct (Qlt_le_dec x 0) as [Hx|Hx]; destruct (Qlt_le_dec y 0) as [Hy|Hy].
  - rewrite !Qtrunc_nonpos by lra. apply Qceiling_resp_le, Hxy.
  - rewrite Qtrunc_nonpos, (Qtrunc_nonneg Hy) by lra.
    pose proof (Qceiling_resp_le x 0 ltac:(lra)) as H1.
    pose proof (Qfloor_resp_le 0 y Hy) as H2.
    change (Qceiling 0) with 0%Z in H1. change (Qfloor 0) with 0%Z in H2. lia.
  - lra.
  - rewrite !Qtrunc_nonneg by lra. apply Qfloor_resp_le, Hxy.
Qed.

Lemma Qtrunc_inject_Z (z : Z) : Qtrunc (inject_Z z) = z.
Proof. unfold Qtrunc. simpl. apply Z.quot_1_r. Qed.

Lemma Qtrunc_comp (x y : Q) : (x == y)%Q -> Qtrunc x = Qtrunc y.
Proof.
  intros E. apply Z.le_antisymm; apply Qtrunc_le; rewrite E; apply Qle_refl.
Qed.

Lemma interpolate_0 (c : Z) : (interpolate 0 c == 255)%Q.
Proof. unfold interpolate. ring. Qed.

Lemma interpolate_1 (c : Z) : (interpolate 1 c == inject_Z c)%Q.
Proof. unfold interpolate. ring. Qed.

(** The interpolation moves from 255 towards the base channel. *)
Lemma interpolate_mono (a b : Q) (c : Z) :
  (0 <= a)%Q -> (a <= b)%Q ->
  ((c <= 255)%Z -> (interpolate b c <= interpolate a c <= 255)%Q) /\
  ((255 <= c)%Z -> (255 <= interpolate a c <= interpolate b c)%Q).
Proof.
  intros Ha Hab. unfold interpolate.
  split; intros Hc.
  - assert (Hq : (inject_Z c <= 255)%Q)
      by (change 255%Q with (inject_Z 255); rewrite <- Zle_Qle; exact Hc).
    split; nra.
  - assert (Hq : (255 <= inject_Z c)%Q)
      by (change 255%Q with (inject_Z 255); rewrite <- Zle_Qle; exact Hc).
    split; nra.
Qed.

(** Strictly between 0 and 1 nothing is special-cased or clamped: every
    channel is the integer part of the interpolation. *)
Lemma mapColor_exact_inside (ctx : ApiQRContext) (v : Q) (c0 c1 c2 : Z) :
  (0 < v)%Q -> (v < 1)%Q ->
  mapColor ctx (PFloat v) (c0, c1, c2) =
  Ok (Qtrunc (interpolate v c0), Qtrunc (interpolate v c1),
      Qtrunc (interpolate v c2)).
Proof.
  intros H0 H1.
  assert (E1 : Qeq_bool v (inject_Z 1) = false).
  { apply not_true_is_false. intros E. apply Qeq_bool_iff in E.
    change (inject_Z 1) with 1%Q in E. lra. }
  assert (E0 : Qeq_bool v (inject_Z 0) = false).
  { apply not_true_is_false. intros E. apply Qeq_bool_iff in E.
    change (inject_Z 0) with 0%Q in E. lra. }
  assert (L1 : Qle_bool v (inject_Z 1) = true).
  { apply Qle_bool_iff. change (inject_Z 1) with 1%Q. lra. }
  assert (L0 : Qle_bool (inject_Z 0) v = true).
  { apply Qle_bool_iff. change (inject_Z 0) with 0%Q. lra. }
  unfold mapColor, py_eq, py_max, py_min, py_lt, py_cmp, is_True, is_False.
  cbn [of_int Number_Q num_eqb num_ltb orb].
  rewrite E1, E0. cbn [orb]. rewrite L1. cbn [negb]. rewrite L0. cbn [negb].
  reflexivity.
Qed.

Lemma clamp_inside (v : Q) :
  (0 < v)%Q -> (v < 1)%Q -> (Qmax 0 (Qmin v 1) == v)%Q.
Proof.
  intros H0 H1. rewrite (Q.min_l v 1) by lra. apply Q.max_r. lra.
Qed.

Lemma interpolate_comp (a b : Q) (c : Z) :
  (a == b)%Q -> (interpolate a c == interpolate b c)%Q.
Proof. intros E. unfold interpolate. rewrite E. reflexivity. Qed.

Lemma interpolate_nonneg (v : Q) (c : Z) :
  (0 <= v)%Q -> (v <= 1)%Q -> (0 <= c)%Z -> (0 <= interpolate v c)%Q.
Proof.
  intros H0 H1 Hc. unfold interpolate.
  assert (Hq : (0 <= inject_Z c)%Q)
    by (change 0%Q with (inject_Z 0); rewrite <- Zle_Qle; exact Hc).
  nra.
Qed.

(** The weight 3/4 on black: the code returns 63, the nearest integer to
    63.75 is 64. *)
Lemma mapColor_three_quarters :
  mapColor (sample_context 4) (PFloat 0.75%float) (0, 0, 0)%Z
    = Ok (63, 63, 63)%Z /\
  mapColor (sample_context 4) (PFloat (3 # 4)%Q) (0, 0, 0)%Z
    = Ok (63, 63, 63)%Z /\
  spec_channel (3 # 4) 0 = 64%Z.
Proof. vm_compute. repeat split. Qed.

(* ------------------------------------------------------------------ *)
(** ** Monotonicity *)

(** From 0 to 1 inclusive, with the conventional white sentinel, the
    special cases agree with the interpolation formula. *)
Lemma mapColor_exact_unit (ctx : ApiQRContext) (a : pyval Q) (c0 c1 c2 : Z) :
  colors_white ctx = white ->
  (0 <= weight a)%Q -> (weight a <= 1)%Q ->
  mapColor ctx a (c0, c1, c2) =
  Ok (Qtrunc (interpolate (weight a) c0), Qtrunc (interpolate (weight a) c1),
      Qtrunc (interpolate (weight a) c2)).
Proof.
  intros Hw H0 H1.
  assert (At1 : forall c, Qtrunc (interpolate 1 c) = c).
  { intros c. rewrite (Qtrunc_comp (interpolate_1 c)). apply Qtrunc_inject_Z. }
  assert (At0 : forall c, Qtrunc (interpolate 0 c) = 255%Z).
  { intros c. rewrite (Qtrunc_comp (interpolate_0 c)). reflexivity. }
  assert (One : mapColor ctx (PInt 1) (c0, c1, c2) =
                Ok (Qtrunc (interpolate 1 c0), Qtrunc (interpolate 1 c1),
                    Qtrunc (interpolate 1 c2)))
    by (rewrite !At1; reflexivity).
  assert (Zero : mapColor ctx (PInt 0) (c0, c1, c2) =
                 Ok (Qtrunc (interpolate 0 c0), Qtrunc (interpolate 0 c1),
                     Qtrunc (interpolate 0 c2)))
    by (rewrite !At0; cbn; rewrite Hw; reflexivity).
  destruct a as [[|]|i|x]; cbn [weight int_of_bool] in *.
  - rewrite !At1. reflexivity.
  - rewrite !At0. cbn. rewrite Hw. reflexivity.
  - change 0%Q with (inject_Z 0) in H0. change 1%Q with (inject_Z 1) in H1.
    rewrite <- Zle_Qle in H0, H1.
    assert (Hi : i = 0%Z \/ i = 1%Z) by lia.
    destruct Hi as [-> | ->]; assumption.
  - destruct (Qeq_dec x 1) as [E1|N1]; [|destruct (Qeq_dec x 0) as [E0|N0]].
    + rewrite !(Qtrunc_comp (interpolate_comp _ E1)), !At1.
      unfold mapColor. cbn.
      rewrite (proj2 (Qeq_bool_iff x (inject_Z 1)) E1). reflexivity.
    + rewrite !(Qtrunc_comp (interpolate_comp _ E0)), !At0.
      unfold mapColor. cbn.
      assert (F1 : Qeq_bool x (inject_Z 1) = false).
      { apply not_true_is_false. intros E. apply Qeq_bool_iff in E.
        apply N1. exact E. }
      rewrite F1, (proj2 (Qeq_bool_iff x (inject_Z 0)) E0), Hw. reflexivity.
    + apply mapColor_exact_inside.
      * destruct (Qle_lt_or_eq _ _ H0) as [Hlt|Heq]; [exact Hlt|].
        exfalso. apply N0. symmetry. exact Heq.
      * destruct (Qle_lt_or_eq _ _ H1) as [Hlt|Heq]; [exact Hlt|].
        exfalso. apply N1. exact Heq.
Qed.

(** In binary64 the two neighbouring weights give 143 and then 144 on a
    channel of 1: the larger weight is further from the base colour. *)
Lemma mapColor_binary64_step_back :
  PrimFloat.ltb 0 weight_lo = true /\
  PrimFloat.ltb weight_lo weight_hi = true /\
  PrimFloat.ltb weight_hi 1 = true /\
  mapColor (sample_context 4) (PFloat weight_lo) (1, 1, 1)%Z
    = Ok (143, 143, 143)%Z /\
  mapColor (sample_context 4) (PFloat weight_hi) (1, 1, 1)%Z
    = Ok (144, 144, 144)%Z /\
  ~ between 255 144 143.
Proof.
  repeat split; try (vm_compute; reflexivity).
  unfold between. lia.
Qed.

(* ------------------------------------------------------------------ *)
(** ** The sentinel *)

Lemma color_eqb_eq (c1 c2 : color) : color_eqb c1 c2 = true <-> c1 = c2.
Proof.
  destruct c1 as [[r1 g1] b1], c2 as [[r2 g2] b2]. unfold color_eqb.
  rewrite !andb_true_iff, !Z.eqb_eq. split.
  - intros [[-> ->] ->]. reflexivity.
  - intros E. injection E as -> -> ->. repeat split.
Qed.

Lemma channel_Q_total (alpha : pyval Q) (c : Z) :
  exists z, channel alpha c = Ok z.
Proof. destruct alpha; eexists; reflexivity. Qed.

(** In exact arithmetic [__mapColor] never raises. *)
Lemma mapColor_Q_total (ctx : ApiQRContext) (v : pyval Q) (c : color) :
  exists col, mapColor ctx v c = Ok col.
Proof.
  unfold mapColor.
  destruct (is_True v || py_eq v (PInt 1) || py_eq v (PFloat (of_int 1)));
    [eexists; reflexivity|].
  destruct (is_False v || py_eq v (PInt 0) || py_eq v (PFloat (of_int 0)));
    [eexists; reflexivity|].
  destruct c as [[c0 c1] c2].
  set (alpha := py_max (py_min v (PInt 1)) (PInt 0)).
  destruct (channel_Q_total alpha c0) as [r ->].
  destruct (channel_Q_total alpha c1) as [g ->].
  destruct (channel_Q_total alpha c2) as [b ->].
  eexists; reflexivity.
Qed.

(** Half weight on a white base colour is drawn white, and [exportHtml]
    writes the cell in its sentinel branch.  In binary64 a weight of
    [2^-60] is drawn white on black as well: [1 - alpha] rounds to 1. *)
Lemma mapColor_half_of_white :
  mapColor (sample_context 4) (PFloat 0.5%float) white = Ok white /\
  mapColor (sample_context 4) (PFloat (1 # 2)%Q) white = Ok white /\
  html_cell (sample_context 4) (PFloat 0.5%float) white (Ok [])
    = Ok {| sentinel_branch := true;
            popover := String.EmptyString;
            background := white |} /\
  mapColor (sample_context 4) (PFloat 0x1p-60%float) (0, 0, 0)%Z = Ok white.
Proof. vm_compute. repeat split. Qed.

(* ------------------------------------------------------------------ *)
(** ** Rounding in binary64

    Python's [float] is IEEE binary64 with rounding to nearest, ties to
    even.  The standard library specifies the primitive operations on
    [float] by the functions [SFadd], [SFsub], [SFmul] and [SFcompare] on
    [spec_float] (module [FloatAxioms]).  This part derives from those
    functions what the colour mapper needs: the result of an operation on
    finite numbers that are not negative is finite, not negative, and
    [binary64.near] the exact result. *)

(** *** The number of binary digits *)

Lemma digits2_pos_size (p : positive) : digits2_pos p = Pos.size p.
Proof. induction p; simpl; congruence. Qed.

Lemma digits_bounds (m : positive) :
  (2 ^ (Zpos (digits2_pos m) - 1) <= Zpos m < 2 ^ Zpos (digits2_pos m))%Z.
Proof.
  rewrite digits2_pos_size.
  pose proof (Pos.size_gt m) as Hgt. pose proof (Pos.size_le m) as Hle.
  apply Pos2Z.pos_lt_pos in Hgt. apply Pos2Z.pos_le_pos in Hle.
  rewrite Pos2Z.inj_pow in Hgt, Hle.
  change (Z.pos m~0) with (2 * Z.pos m)%Z in Hle.
  split; [|exact Hgt].
  assert (E : (2 ^ Zpos (Pos.size m) = 2 * 2 ^ (Zpos (Pos.size m) - 1))%Z).
  { rewrite <- Z.pow_succ_r by lia. f_equal. lia. }
  lia.
Qed.

Lemma digits_unique (m : positive) (d : Z) :
  (2 ^ (d - 1) <= Zpos m < 2 ^ d)%Z -> Zpos (digits2_pos m) = d.
Proof.
  intros [Hlo Hhi]. destruct (digits_bounds m) as [Hlo' Hhi'].
  assert (Hd : (0 < d)%Z).
  { destruct (Z.ltb_spec 0 d); [assumption|].
    exfalso. destruct (Z.eq_dec d 0) as [->|Hne]; [simpl in Hhi; lia|].
    rewrite Z.pow_neg_r in Hhi by lia. lia. }
  destruct (Z.lt_trichotomy (Zpos (digits2_pos m)) d) as [H|[H|H]]; [|exact H|].
  - assert (2 ^ Zpos (digits2_pos m) <= 2 ^ (d - 1))%Z
      by (apply Z.pow_le_mono_r; lia).
    lia.
  - assert (2 ^ d <= 2 ^ (Zpos (digits2_pos m) - 1))%Z
      by (apply Z.pow_le_mono_r; lia).
    lia.
Qed.

(** *** Shifting the mantissa right *)

Lemma iter_pos_nat (A : Type) (f : A -> A) (p : positive) (x : A) :
  iter_pos f p x = Nat.iter (Pos.to_nat p) f x.
Proof.
  revert x. induction p as [p IH|p IH|]; intros x; cbn [iter_pos].
  - rewrite !IH, Pos2Nat.inj_xI.
    replace (S (2 * Pos.to_nat p))
      with (Pos.to_nat p + (Pos.to_nat p + 1))%nat by lia.
    rewrite !Nat.iter_add. reflexivity.
  - rewrite !IH, Pos2Nat.inj_xO.
    replace (2 * Pos.to_nat p)%nat
      with (Pos.to_nat p + Pos.to_nat p)%nat by lia.
    rewrite Nat.iter_add. reflexivity.
  - reflexivity.
Qed.

Lemma shr_1_spec (m : Z) (r s : bool) :
  (0 <= m)%Z ->
  shr_1 {| shr_m := m; shr_r := r; shr_s := s |} =
  {| shr_m := (m / 2)%Z; shr_r := Z.odd m; shr_s := r || s |}.
Proof.
  intros Hm. rewrite <- Z.div2_div.
  destruct m as [|[p|p|]|]; try reflexivity. lia.
Qed.

(** After [k] halvings the record holds the quotient by [2^k] and tells
    where the remainder lies with respect to the half. *)
Lemma shr_iter_spec (M : Z) (k : nat) :
  (0 <= M)%Z ->
  let rec :=
    Nat.iter k shr_1 {| shr_m := M; shr_r := false; shr_s := false |} in
  let rem := (M mod 2 ^ Z.of_nat k)%Z in
  shr_m rec = (M / 2 ^ Z.of_nat k)%Z /\
  match shr_r rec, shr_s rec with
  | false, false => rem = 0%Z
  | false, true => (0 < rem /\ 2 * rem < 2 ^ Z.of_nat k)%Z
  | true, false => (2 * rem = 2 ^ Z.of_nat k)%Z
  | true, true => (2 ^ Z.of_nat k < 2 * rem)%Z
  end.
Proof.
  intros HM. induction k as [|k IH]; cbv zeta in *.
  - simpl. rewrite Z.div_1_r, Z.mod_1_r. split; reflexivity.
  - rewrite Nat.iter_succ.
    destruct (Nat.iter k shr_1 _) as [q r s]. cbn [shr_m shr_r shr_s] in IH.
    destruct IH as [Eq Hloc].
    assert (Hp : (0 < 2 ^ Z.of_nat k)%Z) by (apply Z.pow_pos_nonneg; lia).
    assert (Hq : (0 <= q)%Z) by (rewrite Eq; apply Z.div_pos; lia).
    rewrite (shr_1_spec r s Hq). cbn [shr_m shr_r shr_s].
    rewrite Nat2Z.inj_succ, Z.pow_succ_r by lia.
    rewrite (Z.mul_comm 2), <- Z.div_div, <- Eq by lia.
    split; [reflexivity|].
    rewrite Z.rem_mul_r, <- Eq by lia.
    pose proof (Z.mod_pos_bound M (2 ^ Z.of_nat k) Hp) as Hb.
    rewrite (Zmod_odd q).
    destruct (Z.odd q), r, s; cbn [orb]; lia.
Qed.

Lemma shr_spec (M : positive) (e n : Z) :
  (0 < n)%Z ->
  exists r s : bool,
    shr {| shr_m := Zpos M; shr_r := false; shr_s := false |} e n =
    ({| shr_m := (Zpos M / 2 ^ n)%Z; shr_r := r; shr_s := s |}, (e + n)%Z) /\
    let rem := (Zpos M mod 2 ^ n)%Z in
    match r, s with
    | false, false => rem = 0%Z
    | false, true => (0 < rem /\ 2 * rem < 2 ^ n)%Z
    | true, false => (2 * rem = 2 ^ n)%Z
    | true, true => (2 ^ n < 2 * rem)%Z
    end.
Proof.
  intros Hn. destruct n as [|p|p]; try lia.
  unfold shr. rewrite iter_pos_nat.
  pose proof (@shr_iter_spec (Zpos M) (Pos.to_nat p) ltac:(lia)) as H.
  cbv zeta in H. rewrite positive_nat_Z in H.
  destruct (Nat.iter _ shr_1 _) as [q r s]. cbn [shr_m shr_r shr_s] in H.
  destruct H as [-> Hloc]. exists r, s. split; [reflexivity|exact Hloc].
Qed.

(** *** Rounding a mantissa to 53 digits *)

Lemma fexp_eq (x : Z) : fexp prec emax x = Z.max (x - 53) (-1074).
Proof. reflexivity. Qed.

Lemma Zdigits2_small (m : Z) :
  (0 <= m < 2 ^ 53)%Z -> (Zdigits2 m <= 53)%Z.
Proof.
  intros [H0 H1]. destruct m as [|p|p]; simpl; try lia.
  destruct (digits_bounds p) as [Hlo _].
  destruct (Z.le_gt_cases (Zpos (digits2_pos p)) 53) as [H|H]; [exact H|].
  assert (2 ^ 53 <= 2 ^ (Zpos (digits2_pos p) - 1))%Z
    by (apply Z.pow_le_mono_r; lia).
  lia.
Qed.

Lemma shr_fexp_keep (m e : Z) :
  (fexp prec emax (Zdigits2 m + e) <= e)%Z ->
  shr_fexp prec emax m e loc_Exact =
  ({| shr_m := m; shr_r := false; shr_s := false |}, e).
Proof.
  intros H. unfold shr_fexp, shr. cbn [shr_record_of_loc].
  destruct (fexp prec emax (Zdigits2 m + e) - e)%Z eqn:E; try reflexivity. lia.
Qed.

Lemma shr_fexp_shift (M : positive) (e : Z) :
  let n := (fexp prec emax (Zpos (digits2_pos M) + e) - e)%Z in
  (0 < n)%Z ->
  exists r s : bool,
    shr_fexp prec emax (Zpos M) e loc_Exact =
    ({| shr_m := (Zpos M / 2 ^ n)%Z; shr_r := r; shr_s := s |}, (e + n)%Z) /\
    let rem := (Zpos M mod 2 ^ n)%Z in
    match r, s with
    | false, false => rem = 0%Z
    | false, true => (0 < rem /\ 2 * rem < 2 ^ n)%Z
    | true, false => (2 * rem = 2 ^ n)%Z
    | true, true => (2 ^ n < 2 * rem)%Z
    end.
Proof.
  intros n Hn. unfold shr_fexp. cbn [shr_record_of_loc Zdigits2]. fold n.
  apply shr_spec, Hn.
Qed.

(** Rounding a positive number [M * 2^e] whose exponent is not above the
    canonical one: the result is [m1 * 2^e1], with [e1] the canonical
    exponent and [m1] an integer nearest to [M / 2^(e1 - e)]. *)
Lemma binary_round_aux_spec (sx : bool) (M : positive) (e : Z) :
  let d := Zpos (digits2_pos M) in
  let e1 := fexp prec emax (d + e) in
  (e <= e1)%Z -> (d + e <= 1023)%Z ->
  exists m1 : Z,
    (0 <= m1)%Z /\
    (e = e1 -> m1 = Zpos M) /\
    (2 * Z.abs (m1 * 2 ^ (e1 - e) - Zpos M) <= 2 ^ (e1 - e))%Z /\
    ((m1 = 0%Z /\
      binary_round_aux prec emax sx (Zpos M) e loc_Exact = S754_zero sx) \/
     (exists (m2 : positive) (e2 : Z),
        binary_round_aux prec emax sx (Zpos M) e loc_Exact
          = S754_finite sx m2 e2 /\
        (e1 <= e2 <= 971)%Z /\ (Zpos m2 * 2 ^ (e2 - e1) = m1)%Z)).
Proof.
  intros d e1 He Hd.
  assert (He1 : (e1 = Z.max (d + e - 53) (-1074))%Z) by reflexivity.
  destruct (digits_bounds M) as [Mlo Mhi]. fold d in Mlo, Mhi.
  assert (Hdpos : (0 < d)%Z) by (unfold d; lia).
  destruct (Z.eq_dec e e1) as [Eq|Ne].
  - (* nothing to shift *)
    exists (Zpos M). split; [lia|]. split; [reflexivity|].
    replace (e1 - e)%Z with 0%Z by lia. rewrite Z.pow_0_r.
    split; [lia|]. right.
    exists M, e. unfold binary_round_aux.
    assert (K : (fexp prec emax (Zdigits2 (Zpos M) + e) <= e)%Z)
      by (cbn [Zdigits2]; fold d; fold e1; lia).
    rewrite (@shr_fexp_keep _ _ K).
    cbn [shr_m loc_of_shr_record round_nearest_even].
    rewrite (@shr_fexp_keep _ _ K). cbn [shr_m].
    assert (L : (e <=? emax - prec)%Z = true)
      by (apply Z.leb_le; change (emax - prec)%Z with 971%Z; lia).
    rewrite L. split; [reflexivity|]. split; [lia|].
    replace (e - e1)%Z with 0%Z by lia. rewrite Z.pow_0_r. lia.
  - (* [n] low bits are rounded away *)
    set (n := (e1 - e)%Z). assert (Hn : (0 < n)%Z) by (unfold n; lia).
    destruct (@shr_fexp_shift M e) as (r & s & Es & Hloc);
      [fold d; fold e1; exact Hn|].
    fold d in Es, Hloc. fold e1 in Es, Hloc. fold n in Es, Hloc.
    cbv zeta in Hloc.
    assert (Hp : (0 < 2 ^ n)%Z) by (apply Z.pow_pos_nonneg; lia).
    pose proof (Z.div_mod (Zpos M) (2 ^ n) ltac:(lia)) as Hdm.
    pose proof (Z.mod_pos_bound (Zpos M) (2 ^ n) Hp) as Hrem.
    set (q := (Zpos M / 2 ^ n)%Z) in *. set (rem := (Zpos M mod 2 ^ n)%Z) in *.
    assert (Hq0 : (0 <= q)%Z) by (apply Z.div_pos; lia).
    assert (Hq : (q < 2 ^ 53)%Z).
    { apply Z.div_lt_upper_bound; [exact Hp|].
      rewrite <- Z.pow_add_r by lia.
      apply Z.lt_le_trans with (2 ^ d)%Z; [exact Mhi|].
      apply Z.pow_le_mono_r; lia. }
    set (m1 := round_nearest_even q
                 (loc_of_shr_record {| shr_m := q; shr_r := r; shr_s := s |})).
    assert (Hm1 : (q <= m1 <= q + 1)%Z /\
                  (2 * Z.abs (m1 * 2 ^ n - Zpos M) <= 2 ^ n)%Z).
    { unfold m1. destruct r, s; cbv iota in Hloc;
        cbn [loc_of_shr_record round_nearest_even];
        try destruct (Z.even q); split; lia. }
    destruct Hm1 as [Hm1 Herr].
    exists m1. split; [lia|]. split; [intros; contradiction|].
    split; [exact Herr|].
    unfold binary_round_aux. rewrite Es. cbn [shr_m]. fold m1.
    replace (e + n)%Z with e1 by (unfold n; lia).
    destruct (Z.eq_dec m1 (2 ^ 53)) as [Ecarry|Ncarry].
    + (* the mantissa has grown to 2^53 *)
      right. exists (2 ^ 52)%positive, (e1 + 1)%Z.
      rewrite Ecarry.
      assert (Efx : fexp prec emax (Zdigits2 (2 ^ 53) + e1) = (e1 + 1)%Z).
      { rewrite fexp_eq. change (Zdigits2 (2 ^ 53)) with 54%Z. lia. }
      unfold shr_fexp. rewrite Efx.
      replace (e1 + 1 - e1)%Z with 1%Z by lia.
      cbn [shr_record_of_loc shr iter_pos].
      change (shr_1 {| shr_m := 2 ^ 53; shr_r := false; shr_s := false |})
        with {| shr_m := 2 ^ 52; shr_r := false; shr_s := false |}.
      cbn [shr_m]. change (2 ^ 52)%Z with (Zpos (2 ^ 52)).
      cbv iota beta.
      assert (L : (e1 + 1 <=? emax - prec)%Z = true)
        by (apply Z.leb_le; change (emax - prec)%Z with 971%Z; lia).
      rewrite L. split; [reflexivity|]. split; [lia|].
      replace (e1 + 1 - e1)%Z with 1%Z by lia. reflexivity.
    + assert (Hs : (0 <= m1 < 2 ^ 53)%Z) by lia.
      assert (K : (fexp prec emax (Zdigits2 m1 + e1) <= e1)%Z).
      { pose proof (Zdigits2_small Hs). rewrite fexp_eq. lia. }
      rewrite (@shr_fexp_keep _ _ K). cbn [shr_m].
      destruct m1 as [|m2|m2] eqn:Em1; [left; split; reflexivity| |lia].
      right. exists m2, e1.
      assert (L : (e1 <=? emax - prec)%Z = true)
        by (apply Z.leb_le; change (emax - prec)%Z with 971%Z; lia).
      rewrite L. split; [reflexivity|]. split; [lia|].
      rewrite Z.sub_diag, Z.pow_0_r. lia.
Qed.

(** *** Powers of two *)

Lemma Qpow2_pos (z : Z) : (0 < 2 ^ z)%Q.
Proof. apply Qpower_0_lt. reflexivity. Qed.

Lemma Qpow2_add (a b : Z) : (2 ^ (a + b) == 2 ^ a * 2 ^ b)%Q.
Proof. apply Qpower_plus. discriminate. Qed.

Lemma Qpow2_Z (z : Z) : (0 <= z)%Z -> (2 ^ z == inject_Z (2 ^ z))%Q.
Proof. intros Hz. rewrite Zpower_Qpower by exact Hz. reflexivity. Qed.

Lemma Qpow2_le (a b : Z) : (a <= b)%Z -> (2 ^ a <= 2 ^ b)%Q.
Proof. intros H. apply Qpower_le_compat_l; [exact H|discriminate]. Qed.

Lemma eta_pos : (0 < binary64.eta)%Q.
Proof. apply Qpow2_pos. Qed.

Lemma eta_small : (binary64.eta <= 1 # 1267650600228229401496703205376)%Q.
Proof.
  assert (E : (1 # 1267650600228229401496703205376 == 2 ^ (-100))%Q)
    by reflexivity.
  rewrite E. apply Qpow2_le. lia.
Qed.

Lemma unit_roundoff_eq : (binary64.unit_roundoff == 1 # 9007199254740992)%Q.
Proof. reflexivity. Qed.

(** *** The rounded value as a rational number *)

Lemma mantissa_exponent_bound (M : positive) (e : Z) :
  (inject_Z (Zpos M) * 2 ^ e < 2 ^ 1023)%Q ->
  (Zpos (digits2_pos M) + e <= 1023)%Z.
Proof.
  intros HX. destruct (digits_bounds M) as [Mlo _].
  set (d := Zpos (digits2_pos M)) in *.
  destruct (Z.le_gt_cases (d + e) 1023) as [H|H]; [exact H|exfalso].
  assert (H1 : (2 ^ 1023 <= 2 ^ (d - 1 + e))%Q) by (apply Qpow2_le; lia).
  rewrite Qpow2_add in H1.
  rewrite (Qpow2_Z (z := d - 1)) in H1 by (unfold d; lia).
  rewrite Zle_Qle in Mlo.
  pose proof (Qpow2_pos e) as Ht.
  assert (H2 : (inject_Z (2 ^ (d - 1)) * 2 ^ e <= inject_Z (Zpos M) * 2 ^ e)%Q)
    by (apply Qmult_le_compat_r; [exact Mlo | apply Qlt_le_weak, Ht]).
  lra.
Qed.

Lemma round_Q (M : positive) (e : Z) :
  (e <= fexp prec emax (Zpos (digits2_pos M) + e))%Z ->
  (inject_Z (Zpos M) * 2 ^ e < 2 ^ 1023)%Q ->
  let X := (inject_Z (Zpos M) * 2 ^ e)%Q in
  let R := binary_round_aux prec emax false (Zpos M) e loc_Exact in
  binary64.SFnonneg R = true /\
  binary64.near X (binary64.SF2Q R).
Proof.
  intros He HX X R.
  pose proof (@mantissa_exponent_bound M e HX) as Hd.
  destruct (@binary_round_aux_spec false M e He Hd)
    as (m1 & Hm0 & _ & Herr & Hres).
  destruct (digits_bounds M) as [Mlo Mhi].
  set (d := Zpos (digits2_pos M)) in *.
  set (e1 := fexp prec emax (d + e)) in *.
  assert (He1 : (e1 = Z.max (d + e - 53) (-1074))%Z) by reflexivity.
  set (P := (2 ^ (e1 - e))%Z) in *.
  assert (HP : (0 < P)%Z) by (apply Z.pow_pos_nonneg; lia).
  set (t := (2 ^ e)%Q).
  assert (Ht : (0 < t)%Q) by apply Qpow2_pos.
  assert (E1 : (2 ^ e1 == inject_Z P * t)%Q).
  { unfold P, t. rewrite <- Qpow2_Z by lia. rewrite <- Qpow2_add.
    replace (e1 - e + e)%Z with e1 by lia. reflexivity. }
  (* the value of the result *)
  assert (Val : binary64.SFnonneg R = true /\
                (binary64.SF2Q R == inject_Z m1 * 2 ^ e1)%Q).
  { fold R in Hres. destruct Hres as [[-> ->]|(m2 & e2 & -> & He2 & Em)].
    - split; [reflexivity|]. simpl. ring.
    - split; [reflexivity|]. cbn [binary64.SF2Q]. rewrite <- Em, inject_Z_mult.
      rewrite <- (Qpow2_Z (z := e2 - e1)) by lia.
      rewrite <- Qmult_assoc, <- Qpow2_add.
      replace (e2 - e1 + e1)%Z with e2 by lia. reflexivity. }
  destruct Val as [Hnn Val]. split; [exact Hnn|].
  (* the error in units of [2^e] *)
  assert (Hlo : (- inject_Z P <=
                 2 * (inject_Z m1 * inject_Z P - inject_Z (Zpos M)))%Q).
  { Q_of_Z. rewrite <- Zle_Qle. lia. }
  assert (Hhi : (2 * (inject_Z m1 * inject_Z P - inject_Z (Zpos M))
                 <= inject_Z P)%Q).
  { Q_of_Z. rewrite <- Zle_Qle. lia. }
  (* half a unit in the last place *)
  assert (K : (2 ^ e1 <= 2 * (binary64.unit_roundoff * X + binary64.eta))%Q).
  { assert (HXpos : (0 < X)%Q).
    { unfold X. apply Qmult_lt_0_compat; [reflexivity|exact Ht]. }
    destruct (Z.max_spec (d + e - 53) (-1074)) as [[Hlt Hmax]|[Hle Hmax]];
      rewrite <- He1 in Hmax.
    - rewrite Hmax.
      assert (E : (2 ^ (-1074) == 2 * binary64.eta)%Q) by reflexivity.
      rewrite E. rewrite unit_roundoff_eq. lra.
    - rewrite Hmax.
      assert (E : (2 ^ (d + e - 53)
                   == inject_Z (2 ^ (d - 1)) * t * 2 ^ (-52))%Q).
      { unfold t. rewrite <- Qpow2_Z by (unfold d; lia).
        rewrite <- !Qpow2_add.
        replace (d - 1 + e + -52)%Z with (d + e - 53)%Z by lia.
        reflexivity. }
      rewrite E. rewrite Zle_Qle in Mlo.
      assert (E52 : (2 ^ (-52) == 1 # 4503599627370496)%Q) by reflexivity.
      rewrite E52, unit_roundoff_eq. unfold X. fold t.
      pose proof eta_pos.
      assert (H2 : (inject_Z (2 ^ (d - 1)) * t <= inject_Z (Zpos M) * t)%Q)
        by (apply Qmult_le_compat_r; [exact Mlo | apply Qlt_le_weak, Ht]).
      lra. }
  unfold binary64.near.
  rewrite Val. rewrite E1 in K |- *. unfold X in *. fold t in K |- *.
  set (m := inject_Z m1) in *. set (p := inject_Z P) in *.
  set (x := inject_Z (Zpos M)) in *.
  assert (A1 : (0 <= (2 * (m * p - x) + p) * t)%Q)
    by (apply Qmult_le_0_compat; lra).
  assert (A2 : (0 <= (p - 2 * (m * p - x)) * t)%Q)
    by (apply Qmult_le_0_compat; lra).
  split; nra.
Qed.

(** *** Canonical representations *)

Lemma valid_finite (s : bool) (m : positive) (e : Z) :
  valid_binary (S754_finite s m e) = true ->
  (e = Z.max (Zpos (digits2_pos m) + e - 53) (-1074) /\ e <= 971)%Z.
Proof.
  unfold SpecFloat.valid_binary, bounded, canonical_mantissa.
  rewrite andb_true_iff, Z.eqb_eq, Z.leb_le, fexp_eq.
  change (emax - prec)%Z with 971%Z. lia.
Qed.

Lemma digits_mul (mx my : positive) :
  (Zpos (digits2_pos mx) + Zpos (digits2_pos my) - 1
   <= Zpos (digits2_pos (mx * my)))%Z.
Proof.
  destruct (digits_bounds mx) as [Xlo _]. destruct (digits_bounds my) as [Ylo _].
  destruct (digits_bounds (mx * my)) as [_ Phi].
  set (dx := Zpos (digits2_pos mx)) in *. set (dy := Zpos (digits2_pos my)) in *.
  set (d := Zpos (digits2_pos (mx * my))) in *.
  assert (H : (2 ^ (dx - 1 + (dy - 1)) < 2 ^ d)%Z).
  { rewrite Z.pow_add_r by (unfold dx, dy; lia).
    rewrite Pos2Z.inj_mul in Phi. nia. }
  apply Z.pow_lt_mono_r_iff in H; unfold d; lia.
Qed.

Lemma near_0 : binary64.near 0 0.
Proof.
  unfold binary64.near. pose proof eta_pos. rewrite unit_roundoff_eq. lra.
Qed.

Lemma near_refl (x : Q) : (0 <= x)%Q -> binary64.near x x.
Proof.
  intros Hx. unfold binary64.near. pose proof eta_pos.
  rewrite unit_roundoff_eq. lra.
Qed.

Lemma near_comp (x x' r r' : Q) :
  (x == x')%Q -> (r == r')%Q -> binary64.near x r -> binary64.near x' r'.
Proof.
  intros Ex Er. unfold binary64.near. rewrite Ex, Er. exact (fun H => H).
Qed.

(** *** Multiplication *)

Lemma SFmul_spec (x y : spec_float) :
  valid_binary x = true -> valid_binary y = true ->
  binary64.SFnonneg x = true -> binary64.SFnonneg y = true ->
  (binary64.SF2Q x * binary64.SF2Q y < 2 ^ 1023)%Q ->
  binary64.SFnonneg (SFmul prec emax x y) = true /\
  binary64.near (binary64.SF2Q x * binary64.SF2Q y)
                (binary64.SF2Q (SFmul prec emax x y)).
Proof.
  intros Vx Vy Nx Ny Hb.
  destruct x as [sx|sx| |sx mx ex]; try discriminate;
    destruct y as [sy|sy| |sy my ey]; try discriminate;
    try (destruct sx; try discriminate); try (destruct sy; try discriminate);
    try (split; [reflexivity|];
         apply (@near_comp 0 _ 0 _); [simpl; ring | reflexivity | apply near_0]).
  destruct (@valid_finite _ _ _ Vx) as [Cx _].
  destruct (@valid_finite _ _ _ Vy) as [Cy _].
  pose proof (digits_mul mx my) as Hd.
  cbn [binary64.SF2Q] in Hb |- *. cbn [SFmul xorb].
  assert (EX : (inject_Z (Zpos (mx * my)) * 2 ^ (ex + ey)
                == inject_Z (Zpos mx) * 2 ^ ex * (inject_Z (Zpos my) * 2 ^ ey))%Q).
  { rewrite Pos2Z.inj_mul, inject_Z_mult, Qpow2_add. ring. }
  assert (He : (ex + ey
                <= fexp prec emax (Zpos (digits2_pos (mx * my)) + (ex + ey)))%Z).
  { rewrite fexp_eq. lia. }
  destruct (@round_Q (mx * my) (ex + ey) He) as [Hn Hr].
  { rewrite EX. exact Hb. }
  split; [exact Hn|].
  eapply near_comp; [exact EX | reflexivity | exact Hr].
Qed.

(** *** Aligning two exponents *)

Lemma iter_xO (m p : positive) :
  Zpos (Pos.iter xO m p) = (Zpos m * 2 ^ Zpos p)%Z.
Proof.
  induction p as [|p IH] using Pos.peano_ind.
  - cbn [Pos.iter]. rewrite Pos2Z.inj_xO. change (2 ^ 1)%Z with 2%Z. ring.
  - rewrite Pos.iter_succ, Pos2Z.inj_xO, IH, Pos2Z.inj_succ, Z.pow_succ_r by lia.
    ring.
Qed.

Lemma shl_align_spec (mx : positive) (ex ex' : Z) :
  snd (shl_align mx ex ex') = Z.min ex ex' /\
  Zpos (fst (shl_align mx ex ex')) = (Zpos mx * 2 ^ (ex - Z.min ex ex'))%Z.
Proof.
  unfold shl_align. destruct (ex' - ex)%Z as [|p|p] eqn:E; cbn [fst snd].
  - replace (Z.min ex ex') with ex by lia. rewrite Z.sub_diag. simpl. lia.
  - replace (Z.min ex ex') with ex by lia. rewrite Z.sub_diag. simpl. lia.
  - replace (Z.min ex ex') with ex' by lia. split; [reflexivity|].
    rewrite iter_xO. f_equal. f_equal. lia.
Qed.

Lemma aligned_value (mx : positive) (ex ez : Z) :
  (ez <= ex)%Z ->
  (inject_Z (Zpos mx * 2 ^ (ex - ez)) * 2 ^ ez == inject_Z (Zpos mx) * 2 ^ ex)%Q.
Proof.
  intros H. rewrite inject_Z_mult, <- Qpow2_Z by lia.
  rewrite <- Qmult_assoc, <- Qpow2_add.
  replace (ex - ez + ez)%Z with ex by lia. reflexivity.
Qed.

Lemma digits_shift (m : positive) (k : Z) (mz : positive) :
  (0 <= k)%Z -> Zpos mz = (Zpos m * 2 ^ k)%Z ->
  Zpos (digits2_pos mz) = (Zpos (digits2_pos m) + k)%Z.
Proof.
  intros Hk E. apply digits_unique. rewrite E.
  destruct (digits_bounds m) as [Hlo Hhi].
  assert (Hp : (0 < 2 ^ k)%Z) by (apply Z.pow_pos_nonneg; lia).
  replace (Zpos (digits2_pos m) + k - 1)%Z
    with (Zpos (digits2_pos m) - 1 + k)%Z by lia.
  rewrite !Z.pow_add_r by lia. nia.
Qed.

Lemma binary_round_Q (M : positive) (e : Z) :
  (inject_Z (Zpos M) * 2 ^ e < 2 ^ 1023)%Q ->
  binary64.SFnonneg (binary_round prec emax false M e) = true /\
  binary64.near (inject_Z (Zpos M) * 2 ^ e)
                (binary64.SF2Q (binary_round prec emax false M e)).
Proof.
  intros HX. unfold binary_round.
  set (f := fexp prec emax (Zpos (digits2_pos M) + e)).
  destruct (shl_align_spec M e f) as [Es Ef].
  destruct (shl_align M e f) as [mz ez]. cbn [fst snd] in Es, Ef.
  assert (Hez : (ez <= e)%Z) by lia.
  pose proof (@digits_shift M (e - ez) mz ltac:(lia)
                ltac:(rewrite Ef, Es; reflexivity)) as Hd.
  assert (EX : (inject_Z (Zpos mz) * 2 ^ ez == inject_Z (Zpos M) * 2 ^ e)%Q).
  { rewrite Ef, Es. apply aligned_value. lia. }
  assert (He : (ez <= fexp prec emax (Zpos (digits2_pos mz) + ez))%Z).
  { rewrite Hd. replace (Zpos (digits2_pos M) + (e - ez) + ez)%Z
      with (Zpos (digits2_pos M) + e)%Z by lia. fold f. lia. }
  destruct (@round_Q mz ez He) as [Hn Hr].
  { rewrite EX. exact HX. }
  split; [exact Hn|].
  eapply near_comp; [exact EX | reflexivity | exact Hr].
Qed.

(** *** Addition and subtraction *)

Lemma aligned_pair (mx my : positive) (ex ey : Z) :
  let ez := Z.min ex ey in
  (inject_Z (Zpos (fst (shl_align mx ex ez))) * 2 ^ ez
     == inject_Z (Zpos mx) * 2 ^ ex)%Q /\
  (inject_Z (Zpos (fst (shl_align my ey ez))) * 2 ^ ez
     == inject_Z (Zpos my) * 2 ^ ey)%Q.
Proof.
  intros ez.
  destruct (shl_align_spec mx ex ez) as [_ Ex].
  destruct (shl_align_spec my ey ez) as [_ Ey].
  rewrite Ex, Ey.
  replace (Z.min ex ez) with ez by (unfold ez; lia).
  replace (Z.min ey ez) with ez by (unfold ez; lia).
  split; apply aligned_value; unfold ez; lia.
Qed.

Lemma SFadd_spec (x y : spec_float) :
  binary64.SFnonneg x = true -> binary64.SFnonneg y = true ->
  (binary64.SF2Q x + binary64.SF2Q y < 2 ^ 1023)%Q ->
  binary64.SFnonneg (SFadd prec emax x y) = true /\
  binary64.near (binary64.SF2Q x + binary64.SF2Q y)
                (binary64.SF2Q (SFadd prec emax x y)).
Proof.
  intros Nx Ny Hb.
  destruct x as [sx|sx| |sx mx ex]; try discriminate;
    destruct y as [sy|sy| |sy my ey]; try discriminate;
    try (destruct sx; try discriminate); try (destruct sy; try discriminate);
    try (split; [reflexivity|];
         apply (@near_comp 0 _ 0 _); [simpl; ring | reflexivity | apply near_0]).
  - (* 0 + y *)
    split; [reflexivity|]. cbn [SFadd binary64.SF2Q].
    eapply near_comp; [|reflexivity|apply near_refl].
    + ring.
    + apply Qmult_le_0_compat; [discriminate | apply Qlt_le_weak, Qpow2_pos].
  - split; [reflexivity|]. cbn [SFadd binary64.SF2Q].
    eapply near_comp; [|reflexivity|apply near_refl].
    + ring.
    + apply Qmult_le_0_compat; [discriminate | apply Qlt_le_weak, Qpow2_pos].
  - (* x + 0 *)
    split; [reflexivity|]. cbn [SFadd binary64.SF2Q].
    eapply near_comp; [|reflexivity|apply near_refl].
    + ring.
    + apply Qmult_le_0_compat; [discriminate | apply Qlt_le_weak, Qpow2_pos].
  - split; [reflexivity|]. cbn [SFadd binary64.SF2Q].
    eapply near_comp; [|reflexivity|apply near_refl].
    + ring.
    + apply Qmult_le_0_compat; [discriminate | apply Qlt_le_weak, Qpow2_pos].
  - (* two positive numbers *)
    cbn [binary64.SF2Q] in Hb |- *. cbn [SFadd cond_Zopp].
    destruct (aligned_pair mx my ex ey) as [Ex Ey]. cbv zeta in Ex, Ey.
    set (ez := Z.min ex ey) in *.
    set (ax := fst (shl_align mx ex ez)) in *.
    set (ay := fst (shl_align my ey ez)) in *.
    change (Zpos ax + Zpos ay)%Z with (Zpos (ax + ay)).
    cbn [binary_normalize].
    assert (EX : (inject_Z (Zpos (ax + ay)) * 2 ^ ez
                  == inject_Z (Zpos mx) * 2 ^ ex + inject_Z (Zpos my) * 2 ^ ey)%Q).
    { rewrite Pos2Z.inj_add, inject_Z_plus, <- Ex, <- Ey. ring. }
    destruct (@binary_round_Q (ax + ay) ez) as [Hn Hr].
    { rewrite EX. exact Hb. }
    split; [exact Hn|].
    eapply near_comp; [exact EX | reflexivity | exact Hr].
Qed.

Lemma SFsub_spec (x y : spec_float) :
  binary64.SFnonneg x = true -> binary64.SFnonneg y = true ->
  (binary64.SF2Q y <= binary64.SF2Q x)%Q ->
  (binary64.SF2Q x - binary64.SF2Q y < 2 ^ 1023)%Q ->
  binary64.SFnonneg (SFsub prec emax x y) = true /\
  binary64.near (binary64.SF2Q x - binary64.SF2Q y)
                (binary64.SF2Q (SFsub prec emax x y)).
Proof.
  intros Nx Ny Hle Hb.
  destruct x as [sx|sx| |sx mx ex]; try discriminate;
    destruct y as [sy|sy| |sy my ey]; try discriminate;
    try (destruct sx; try discriminate); try (destruct sy; try discriminate);
    try (split; [reflexivity|];
         apply (@near_comp 0 _ 0 _); [simpl; ring | reflexivity | apply near_0]).
  - (* 0 - y with y positive *)
    exfalso. cbn [binary64.SF2Q] in Hle.
    pose proof (Qpow2_pos ey) as Ht.
    assert (0 < inject_Z (Zpos my) * 2 ^ ey)%Q
      by (apply Qmult_lt_0_compat; [reflexivity|exact Ht]).
    lra.
  - exfalso. cbn [binary64.SF2Q] in Hle.
    pose proof (Qpow2_pos ey) as Ht.
    assert (0 < inject_Z (Zpos my) * 2 ^ ey)%Q
      by (apply Qmult_lt_0_compat; [reflexivity|exact Ht]).
    lra.
  - (* x - 0 *)
    split; [reflexivity|]. cbn [SFsub binary64.SF2Q].
    eapply near_comp; [|reflexivity|apply near_refl].
    + ring.
    + apply Qmult_le_0_compat; [discriminate | apply Qlt_le_weak, Qpow2_pos].
  - split; [reflexivity|]. cbn [SFsub binary64.SF2Q].
    eapply near_comp; [|reflexivity|apply near_refl].
    + ring.
    + apply Qmult_le_0_compat; [discriminate | apply Qlt_le_weak, Qpow2_pos].
  - (* two positive numbers *)
    cbn [binary64.SF2Q] in Hb, Hle |- *. cbn [SFsub cond_Zopp].
    destruct (aligned_pair mx my ex ey) as [Ex Ey]. cbv zeta in Ex, Ey.
    set (ez := Z.min ex ey) in *.
    set (ax := fst (shl_align mx ex ez)) in *.
    set (ay := fst (shl_align my ey ez)) in *.
    assert (ED : (inject_Z (Zpos ax - Zpos ay) * 2 ^ ez
                  == inject_Z (Zpos mx) * 2 ^ ex - inject_Z (Zpos my) * 2 ^ ey)%Q).
    { unfold Z.sub. rewrite inject_Z_plus, inject_Z_opp, <- Ex, <- Ey. ring. }
    pose proof (Qpow2_pos ez) as Ht.
    destruct (Zpos ax - Zpos ay)%Z as [|p|p] eqn:ED'.
    + cbn [binary_normalize]. split; [reflexivity|].
      eapply near_comp; [|reflexivity|apply near_0].
      rewrite <- ED. change (inject_Z 0) with 0%Q. ring.
    + cbn [binary_normalize].
      destruct (@binary_round_Q p ez) as [Hn Hr].
      { rewrite ED. exact Hb. }
      split; [exact Hn|].
      eapply near_comp; [exact ED | reflexivity | exact Hr].
    + exfalso.
      assert (Hneg : (inject_Z (Z.neg p) * 2 ^ ez < 0)%Q).
      { assert (Hn : (inject_Z (Z.neg p) < 0)%Q) by reflexivity.
        set (a := inject_Z (Z.neg p)) in *. set (t := (2 ^ ez)%Q) in *.
        assert (0 < (- a) * t)%Q by (apply Qmult_lt_0_compat; lra).
        lra. }
      lra.
Qed.

(** *** Comparison *)

Lemma Qcompare_Lt (p q : Q) : (p < q)%Q -> (p ?= q)%Q = Lt.
Proof. intros H. apply Qlt_alt. exact H. Qed.

Lemma Qcompare_Gt (p q : Q) : (q < p)%Q -> (p ?= q)%Q = Gt.
Proof. intros H. apply Qgt_alt. exact H. Qed.

Lemma Qcompare_Eq (p q : Q) : (p == q)%Q -> (p ?= q)%Q = Eq.
Proof. intros H. apply Qeq_alt. exact H. Qed.

Lemma finite_pos (m : positive) (e : Z) : (0 < inject_Z (Zpos m) * 2 ^ e)%Q.
Proof. apply Qmult_lt_0_compat; [reflexivity | apply Qpow2_pos]. Qed.

(** Of two canonical positive numbers the one with the smaller exponent
    is the smaller number. *)
Lemma canonical_lt (m1 m2 : positive) (e1 e2 : Z) :
  valid_binary (S754_finite false m1 e1) = true ->
  valid_binary (S754_finite false m2 e2) = true ->
  (e1 < e2)%Z ->
  (inject_Z (Zpos m1) * 2 ^ e1 < inject_Z (Zpos m2) * 2 ^ e2)%Q.
Proof.
  intros V1 V2 Hlt.
  destruct (@valid_finite _ _ _ V1) as [C1 _].
  destruct (@valid_finite _ _ _ V2) as [C2 _].
  destruct (digits_bounds m1) as [_ Hhi]. destruct (digits_bounds m2) as [Hlo _].
  set (d1 := Zpos (digits2_pos m1)) in *. set (d2 := Zpos (digits2_pos m2)) in *.
  assert (Hd1 : (d1 <= 53)%Z) by lia.
  assert (Hd2 : (d2 = 53)%Z) by lia.
  rewrite Hd2 in Hlo. change (2 ^ (53 - 1))%Z with (2 ^ 52)%Z in Hlo.
  assert (H1 : (Zpos m1 < 2 ^ 53)%Z).
  { apply Z.lt_le_trans with (2 ^ d1)%Z; [exact Hhi|].
    apply Z.pow_le_mono_r; lia. }
  rewrite Zlt_Qlt in H1. rewrite Zle_Qle in Hlo.
  pose proof (Qpow2_pos e1) as T1. pose proof (Qpow2_pos e2) as T2.
  assert (E : (2 ^ e2 == 2 ^ (e2 - e1 - 1) * 2 * 2 ^ e1)%Q).
  { change 2%Q with (2 ^ 1)%Q at 3. rewrite <- !Qpow2_add.
    replace (e2 - e1 - 1 + 1 + e1)%Z with e2 by lia. reflexivity. }
  assert (G : (1 <= 2 ^ (e2 - e1 - 1))%Q).
  { change 1%Q with (2 ^ 0)%Q. apply Qpow2_le. lia. }
  rewrite E.
  change (inject_Z (2 ^ 53)) with (2 * inject_Z (2 ^ 52))%Q in H1.
  set (a := inject_Z (Zpos m1)) in *. set (b := inject_Z (Zpos m2)) in *.
  set (c := inject_Z (2 ^ 52)) in *.
  set (t := (2 ^ e1)%Q) in *. set (g := (2 ^ (e2 - e1 - 1))%Q) in *.
  assert (A1 : (0 < (2 * c - a) * t)%Q) by (apply Qmult_lt_0_compat; lra).
  assert (A2 : (0 <= (b - c) * t)%Q) by (apply Qmult_le_0_compat; lra).
  assert (A3 : (0 <= (g - 1) * (b * t))%Q).
  { apply Qmult_le_0_compat; [lra|].
    apply Qmult_le_0_compat; [unfold b; discriminate | lra]. }
  nra.
Qed.

Lemma SFcompare_spec (x y : spec_float) :
  valid_binary x = true -> valid_binary y = true ->
  binary64.SFnonneg x = true -> binary64.SFnonneg y = true ->
  SFcompare x y = Some (binary64.SF2Q x ?= binary64.SF2Q y)%Q.
Proof.
  intros Vx Vy Nx Ny.
  destruct x as [sx|sx| |sx mx ex]; try discriminate;
    destruct y as [sy|sy| |sy my ey]; try discriminate;
    try (destruct sx; try discriminate); try (destruct sy; try discriminate);
    try reflexivity; cbn [SFcompare binary64.SF2Q]; f_equal; symmetry.
  1-2: apply Qcompare_Lt, finite_pos.
  1-2: apply Qcompare_Gt, finite_pos.
  destruct (Z.compare_spec ex ey) as [E|L|G].
  - subst ey. change (Pos.compare_cont Eq mx my) with (Pos.compare mx my).
    pose proof (Qpow2_pos ex) as T.
    destruct (Pos.compare_spec mx my) as [E|L|G].
    + subst my. apply Qcompare_Eq. reflexivity.
    + apply Qcompare_Lt. apply Qmult_lt_compat_r; [exact T|].
      rewrite <- Zlt_Qlt. lia.
    + apply Qcompare_Gt. apply Qmult_lt_compat_r; [exact T|].
      rewrite <- Zlt_Qlt. lia.
  - apply Qcompare_Lt, canonical_lt; assumption.
  - apply Qcompare_Gt, canonical_lt; assumption || lia.
Qed.

(** *** The integer part *)

Lemma Qfloor_unique (x : Q) (z : Z) :
  (inject_Z z <= x)%Q -> (x < inject_Z (z + 1))%Q -> Qfloor x = z.
Proof.
  intros Hlo Hhi.
  pose proof (Qfloor_le x) as H1. pose proof (Qlt_floor x) as H2.
  assert (A : (inject_Z (Qfloor x) < inject_Z (z + 1))%Q) by lra.
  assert (B : (inject_Z z < inject_Z (Qfloor x + 1))%Q) by lra.
  rewrite <- Zlt_Qlt in A, B. lia.
Qed.

Lemma Qfloor_finite (m : positive) (e : Z) :
  Qfloor (inject_Z (Zpos m) * 2 ^ e) =
  match e with
  | Z0 => Zpos m
  | Zpos p => Z.shiftl (Zpos m) (Zpos p)
  | Zneg p => Z.shiftr (Zpos m) (Zpos p)
  end.
Proof.
  destruct e as [|p|p].
  - apply Qfloor_unique.
    + change (2 ^ 0)%Q with 1%Q. rewrite Qmult_1_r. apply Qle_refl.
    + change (2 ^ 0)%Q with 1%Q. rewrite Qmult_1_r. rewrite <- Zlt_Qlt. lia.
  - rewrite Z.shiftl_mul_pow2 by lia.
    rewrite (Qpow2_Z (z := Zpos p)) by lia. rewrite <- inject_Z_mult.
    apply Qfloor_Z.
  - rewrite Z.shiftr_div_pow2 by lia.
    assert (Hp : (0 < 2 ^ Zpos p)%Z) by (apply Z.pow_pos_nonneg; lia).
    pose proof (Z.div_mod (Zpos m) (2 ^ Zpos p) ltac:(lia)) as Hdm.
    pose proof (Z.mod_pos_bound (Zpos m) (2 ^ Zpos p) Hp) as Hrem.
    set (q := (Zpos m / 2 ^ Zpos p)%Z) in *.
    set (r := (Zpos m mod 2 ^ Zpos p)%Z) in *.
    pose proof (Qpow2_pos (Zneg p)) as T.
    assert (E : (inject_Z (2 ^ Zpos p) * 2 ^ Zneg p == 1)%Q).
    { rewrite <- Qpow2_Z by lia. rewrite <- Qpow2_add.
      replace (Zpos p + Zneg p)%Z with 0%Z by lia. reflexivity. }
    rewrite Hdm, inject_Z_plus, inject_Z_mult.
    assert (Hr0 : (0 <= inject_Z r)%Q)
      by (change 0%Q with (inject_Z 0); rewrite <- Zle_Qle; lia).
    assert (Hr1 : (inject_Z r + 1 <= inject_Z (2 ^ Zpos p))%Q).
    { change 1%Q with (inject_Z 1). rewrite <- inject_Z_plus, <- Zle_Qle. lia. }
    set (P := inject_Z (2 ^ Zpos p)) in *. set (t := (2 ^ Zneg p)%Q) in *.
    set (a := inject_Z r) in *. set (b := inject_Z q) in *.
    assert (A1 : (0 <= a * t)%Q) by (apply Qmult_le_0_compat; lra).
    assert (A2 : (0 <= (P - a - 1) * t)%Q) by (apply Qmult_le_0_compat; lra).
    assert (E2 : (P * b * t == b)%Q).
    { transitivity (b * (P * t))%Q; [ring|]. rewrite E. ring. }
    apply Qfloor_unique.
    + fold b. lra.
    + rewrite inject_Z_plus. fold b. change (inject_Z 1) with 1%Q. lra.
Qed.

(* ------------------------------------------------------------------ *)
(** ** Binary64 numbers *)

Lemma positive_nonneg (x : float) :
  (0 < binary64.to_Q x)%Q -> binary64.nonneg x = true.
Proof.
  unfold binary64.to_Q, binary64.nonneg.
  destruct (Prim2SF x) as [s|s| |s m e]; cbn [binary64.SF2Q binary64.SFnonneg];
    intros H; try reflexivity; try (exfalso; lra).
  destruct s; [exfalso|reflexivity].
  pose proof (finite_pos m e). lra.
Qed.

Lemma nonneg_to_Q (x : float) :
  binary64.nonneg x = true -> (0 <= binary64.to_Q x)%Q.
Proof.
  unfold binary64.to_Q, binary64.nonneg.
  destruct (Prim2SF x) as [s|s| |s m e]; cbn [binary64.SF2Q binary64.SFnonneg];
    intros H; try discriminate; try lra.
  destruct s; [discriminate|]. apply Qlt_le_weak, finite_pos.
Qed.

Lemma mul64 (x y : float) :
  binary64.nonneg x = true -> binary64.nonneg y = true ->
  (binary64.to_Q x * binary64.to_Q y < 2 ^ 1023)%Q ->
  binary64.nonneg (x * y) = true /\
  binary64.near (binary64.to_Q x * binary64.to_Q y) (binary64.to_Q (x * y)).
Proof.
  unfold binary64.nonneg, binary64.to_Q. rewrite mul_spec.
  apply SFmul_spec; apply Prim2SF_valid.
Qed.

Lemma add64 (x y : float) :
  binary64.nonneg x = true -> binary64.nonneg y = true ->
  (binary64.to_Q x + binary64.to_Q y < 2 ^ 1023)%Q ->
  binary64.nonneg (x + y) = true /\
  binary64.near (binary64.to_Q x + binary64.to_Q y) (binary64.to_Q (x + y)).
Proof.
  unfold binary64.nonneg, binary64.to_Q. rewrite add_spec. apply SFadd_spec.
Qed.

Lemma sub64 (x y : float) :
  binary64.nonneg x = true -> binary64.nonneg y = true ->
  (binary64.to_Q y <= binary64.to_Q x)%Q ->
  (binary64.to_Q x - binary64.to_Q y < 2 ^ 1023)%Q ->
  binary64.nonneg (x - y) = true /\
  binary64.near (binary64.to_Q x - binary64.to_Q y) (binary64.to_Q (x - y)).
Proof.
  unfold binary64.nonneg, binary64.to_Q. rewrite sub_spec. apply SFsub_spec.
Qed.

Lemma compare64 (x y : float) :
  binary64.nonneg x = true -> binary64.nonneg y = true ->
  SFcompare (Prim2SF x) (Prim2SF y)
  = Some (binary64.to_Q x ?= binary64.to_Q y)%Q.
Proof. intros Nx Ny. apply SFcompare_spec; try apply Prim2SF_valid; assumption. Qed.

Lemma ltb64_true (x y : float) :
  binary64.nonneg x = true -> binary64.nonneg y = true ->
  (binary64.to_Q x < binary64.to_Q y)%Q -> PrimFloat.ltb x y = true.
Proof.
  intros Nx Ny H. rewrite ltb_spec. unfold SFltb.
  rewrite (compare64 x y Nx Ny), (Qcompare_Lt H). reflexivity.
Qed.

Lemma ltb64_false (x y : float) :
  binary64.nonneg x = true -> binary64.nonneg y = true ->
  (binary64.to_Q y <= binary64.to_Q x)%Q -> PrimFloat.ltb x y = false.
Proof.
  intros Nx Ny H. rewrite ltb_spec. unfold SFltb.
  rewrite (compare64 x y Nx Ny).
  destruct (Qcompare_spec (binary64.to_Q x) (binary64.to_Q y)) as [E|L|G];
    try reflexivity. exfalso. lra.
Qed.

Lemma eqb64_true (x y : float) :
  binary64.nonneg x = true -> binary64.nonneg y = true ->
  (binary64.to_Q x == binary64.to_Q y)%Q -> PrimFloat.eqb x y = true.
Proof.
  intros Nx Ny H. rewrite eqb_spec. unfold SFeqb.
  rewrite (compare64 x y Nx Ny), (Qcompare_Eq H). reflexivity.
Qed.

Lemma eqb64_false (x y : float) :
  binary64.nonneg x = true -> binary64.nonneg y = true ->
  ~ (binary64.to_Q x == binary64.to_Q y)%Q -> PrimFloat.eqb x y = false.
Proof.
  intros Nx Ny H. rewrite eqb_spec. unfold SFeqb.
  rewrite (compare64 x y Nx Ny).
  destruct (Qcompare_spec (binary64.to_Q x) (binary64.to_Q y)) as [E|L|G];
    try reflexivity. exfalso. exact (H E).
Qed.

(** [int(x)] of a number that is not negative is its floor. *)
Lemma trunc64 (x : float) :
  binary64.nonneg x = true ->
  binary64.trunc x = Ok (Qfloor (binary64.to_Q x)).
Proof.
  unfold binary64.nonneg, binary64.trunc, binary64.to_Q.
  destruct (Prim2SF x) as [s|s| |s m e]; cbn [binary64.SF2Q binary64.SFnonneg];
    intros H; try discriminate; [reflexivity|].
  destruct s; [discriminate|]. rewrite Qfloor_finite. reflexivity.
Qed.

(** The integers from 0 to 255 are converted exactly. *)
Lemma of_Z_table :
  forallb (fun c => binary64.nonneg (binary64.of_Z c)
                    && Qeq_bool (binary64.to_Q (binary64.of_Z c)) (inject_Z c))
          (range 256) = true.
Proof. vm_compute. reflexivity. Qed.

Lemma of_Z_byte (c : Z) :
  (0 <= c <= 255)%Z ->
  binary64.nonneg (binary64.of_Z c) = true /\
  (binary64.to_Q (binary64.of_Z c) == inject_Z c)%Q.
Proof.
  intros Hc. pose proof of_Z_table as Ht. rewrite forallb_forall in Ht.
  specialize (Ht c). rewrite andb_true_iff, Qeq_bool_iff in Ht. apply Ht.
  unfold range. apply in_map_iff. exists (Z.to_nat c). split; [lia|].
  apply in_seq. lia.
Qed.

Lemma below_overflow (x : Q) : (x <= 1024)%Q -> (x < 2 ^ 1023)%Q.
Proof.
  intros H. apply Qle_lt_trans with (2 ^ 10)%Q; [exact H|].
  apply Qpower_lt_compat_l; [lia|reflexivity].
Qed.

(* ------------------------------------------------------------------ *)
(** ** The colour mapper in binary64 *)

Lemma channel_float (v : float) (c : Z) :
  channel (PFloat v) c =
  binary64.trunc
    ((binary64.of_Z 1 - v) * binary64.of_Z 255 + v * binary64.of_Z c)%float.
Proof. reflexivity. Qed.

Lemma weighted_channel_bounds (q : Q) (c : Z) :
  (0 <= q)%Q -> (0 <= c <= 255)%Z ->
  (0 <= q * inject_Z c <= 255 * q)%Q.
Proof.
  intros Hq Hc.
  assert (H0 : (0 <= inject_Z c)%Q)
    by (change 0%Q with (inject_Z 0); rewrite <- Zle_Qle; lia).
  assert (H1 : (inject_Z c <= 255)%Q)
    by (change 255%Q with (inject_Z 255); rewrite <- Zle_Qle; lia).
  split; nra.
Qed.

(** One channel, for a weight strictly between 0 and 1: the integer part
    of a number that the four roundings leave within [3 * 2^-45] of the
    exact interpolation. *)
Lemma channel_binary64 (v : float) (c : Z) :
  (0 < binary64.to_Q v)%Q -> (binary64.to_Q v < 1)%Q -> (0 <= c <= 255)%Z ->
  exists F : Q,
    channel (PFloat v) c = Ok (Qfloor F) /\
    (0 <= F)%Q /\
    (interpolate (binary64.to_Q v) c - rounding_error <= F
     <= interpolate (binary64.to_Q v) c + rounding_error)%Q.
Proof.
  intros H0 H1 Hc.
  pose proof (positive_nonneg v H0) as Nv.
  destruct (@of_Z_byte 1 ltac:(lia)) as [N1 E1].
  destruct (@of_Z_byte 255 ltac:(lia)) as [N255 E255].
  destruct (@of_Z_byte c Hc) as [Nc Ec].
  change (inject_Z 1) with 1%Q in E1. change (inject_Z 255) with 255%Q in E255.
  destruct (weighted_channel_bounds (q := binary64.to_Q v) (c := c)
              ltac:(lra) Hc) as [W0 W1].
  pose proof eta_pos as Heta. pose proof eta_small as Heta'.
  set (q := binary64.to_Q v) in *.
  (* 1 - alpha *)
  destruct (@sub64 (binary64.of_Z 1) v N1 Nv) as [Ns Rs].
  { rewrite E1. fold q. lra. }
  { apply below_overflow. rewrite E1. fold q. lra. }
  set (s1 := (binary64.of_Z 1 - v)%float) in *.
  unfold binary64.near in Rs. rewrite E1, unit_roundoff_eq in Rs. fold q in Rs.
  set (S1 := binary64.to_Q s1) in *.
  (* (1 - alpha) * 255 *)
  destruct (@mul64 s1 (binary64.of_Z 255) Ns N255) as [Np1 Rp1].
  { apply below_overflow. rewrite E255. fold S1. lra. }
  set (p1 := (s1 * binary64.of_Z 255)%float) in *.
  unfold binary64.near in Rp1. rewrite E255, unit_roundoff_eq in Rp1.
  fold S1 in Rp1. set (P1 := binary64.to_Q p1) in *.
  (* alpha * c *)
  destruct (@mul64 v (binary64.of_Z c) Nv Nc) as [Np2 Rp2].
  { apply below_overflow. rewrite Ec. fold q. lra. }
  set (p2 := (v * binary64.of_Z c)%float) in *.
  unfold binary64.near in Rp2. rewrite Ec, unit_roundoff_eq in Rp2.
  fold q in Rp2. set (P2 := binary64.to_Q p2) in *.
  set (w := (q * inject_Z c)%Q) in *.
  (* the sum *)
  destruct (@add64 p1 p2 Np1 Np2) as [Nf Rf].
  { apply below_overflow. fold P1 P2. lra. }
  set (f := (p1 + p2)%float) in *.
  unfold binary64.near in Rf. rewrite unit_roundoff_eq in Rf.
  fold P1 P2 in Rf.
  exists (binary64.to_Q f). split; [|split].
  - rewrite channel_float. fold s1 p1 p2 f. apply trunc64, Nf.
  - apply nonneg_to_Q, Nf.
  - unfold interpolate, rounding_error. fold w.
    set (F := binary64.to_Q f) in *. lra.
Qed.

Lemma integer_part_near_comp (x x' : Q) (out : Z) :
  (x == x')%Q -> integer_part_near x out -> integer_part_near x' out.
Proof.
  intros E (f & H0 & Hf & Eo). exists f. rewrite <- E. repeat split; tauto.
Qed.

Lemma integer_part_near_exact (z : Z) :
  (0 <= z)%Z -> integer_part_near (inject_Z z) z.
Proof.
  intros Hz. exists (inject_Z z). split; [|split].
  - change 0%Q with (inject_Z 0). rewrite <- Zle_Qle. exact Hz.
  - unfold rounding_error. lra.
  - symmetry. apply Qfloor_Z.
Qed.

(** What the integer part of such a number can be. *)
Lemma integer_part_near_bounds (x : Q) (out : Z) :
  integer_part_near x out ->
  (x - rounding_error - 1 < inject_Z out <= x + rounding_error)%Q /\
  (0 <= out)%Z.
Proof.
  intros (f & H0 & [Hlo Hhi] & ->).
  pose proof (Qfloor_le f) as H1. pose proof (Qlt_floor f) as H2.
  rewrite inject_Z_plus in H2. change (inject_Z 1) with 1%Q in H2.
  split; [lra|].
  change 0%Z with (Qfloor 0). apply Qfloor_resp_le, H0.
Qed.

Lemma to_Q_one : (binary64.to_Q (binary64.of_Z 1) == 1)%Q.
Proof. reflexivity. Qed.

Lemma to_Q_zero : (binary64.to_Q (binary64.of_Z 0) == 0)%Q.
Proof. reflexivity. Qed.

Lemma nonneg_one : binary64.nonneg (binary64.of_Z 1) = true.
Proof. reflexivity. Qed.

Lemma nonneg_zero : binary64.nonneg (binary64.of_Z 0) = true.
Proof. reflexivity. Qed.

(** Strictly between 0 and 1 nothing is special-cased or clamped. *)
Lemma mapColor_binary64_inside (ctx : ApiQRContext) (v : float) (c0 c1 c2 : Z) :
  (0 < binary64.to_Q v)%Q -> (binary64.to_Q v < 1)%Q ->
  mapColor ctx (PFloat v) (c0, c1, c2) =
  (r <- channel (PFloat v) c0 ;;
   g <- channel (PFloat v) c1 ;;
   b <- channel (PFloat v) c2 ;;
   Ok (r, g, b)).
Proof.
  intros H0 H1. pose proof (positive_nonneg v H0) as Nv.
  pose proof to_Q_one as E1. pose proof to_Q_zero as E0.
  unfold mapColor, py_eq, py_max, py_min, py_lt, py_cmp, is_True, is_False.
  cbn [of_int Number_float num_eqb num_ltb orb].
  rewrite (@eqb64_false v (binary64.of_Z 1) Nv nonneg_one)
    by (rewrite E1; lra).
  rewrite (@eqb64_false v (binary64.of_Z 0) Nv nonneg_zero)
    by (rewrite E0; lra).
  rewrite (@ltb64_false (binary64.of_Z 1) v nonneg_one Nv)
    by (rewrite E1; lra).
  rewrite (@ltb64_false v (binary64.of_Z 0) Nv nonneg_zero)
    by (rewrite E0; lra).
  reflexivity.
Qed.

Lemma channel_binary64_near (v : float) (c : Z) :
  (0 < binary64.to_Q v)%Q -> (binary64.to_Q v < 1)%Q -> (0 <= c <= 255)%Z ->
  exists out : Z,
    channel (PFloat v) c = Ok out /\
    integer_part_near (interpolate (binary64.to_Q v) c) out.
Proof.
  intros H0 H1 Hc.
  destruct (channel_binary64 v H0 H1 Hc) as (F & EF & HF0 & HF).
  exists (Qfloor F). split; [exact EF|]. exists F. repeat split; tauto.
Qed.

Lemma mapColor_binary64_near (ctx : ApiQRContext) (v : float) (c0 c1 c2 : Z) :
  (0 < binary64.to_Q v)%Q -> (binary64.to_Q v < 1)%Q ->
  Forall (fun c => 0 <= c <= 255)%Z [c0; c1; c2] ->
  exists r g b : Z,
    mapColor ctx (PFloat v) (c0, c1, c2) = Ok (r, g, b) /\
    Forall2 (fun out c => integer_part_near (interpolate (binary64.to_Q v) c) out)
            [r; g; b] [c0; c1; c2].
Proof.
  intros H0 H1 Hc.
  inversion Hc as [|? ? Hc0 Hc']; subst.
  inversion Hc' as [|? ? Hc1 Hc'']; subst.
  inversion Hc'' as [|? ? Hc2 _]; subst.
  destruct (channel_binary64_near v H0 H1 Hc0) as (r & Er & Hr).
  destruct (channel_binary64_near v H0 H1 Hc1) as (g & Eg & Hg).
  destruct (channel_binary64_near v H0 H1 Hc2) as (b & Eb & Hb).
  exists r, g, b. split.
  - rewrite (@mapColor_binary64_inside ctx v c0 c1 c2 H0 H1), Er, Eg, Eb.
    reflexivity.
  - constructor; [exact Hr|]. constructor; [exact Hg|].
    constructor; [exact Hb|]. constructor.
Qed.

Lemma near_spec_channel (q : Q) (c out : Z) :
  (0 < q)%Q -> (q < 1)%Q ->
  integer_part_near (interpolate q c) out ->
  (spec_channel q c - 1 <= out <= spec_channel q c)%Z.
Proof.
  intros H0 H1 Hn.
  destruct (integer_part_near_bounds Hn) as [[Hlo Hhi] _].
  unfold spec_channel.
  fold (interpolate (Qmax 0 (Qmin q 1)) c).
  assert (Er : round_nearest (interpolate (Qmax 0 (Qmin q 1)) c)
               = round_nearest (interpolate q c)).
  { unfold round_nearest. apply Qfloor_comp.
    rewrite (interpolate_comp c (clamp_inside H0 H1)). reflexivity. }
  rewrite Er. unfold round_nearest.
  set (x := interpolate q c) in *.
  pose proof (Qfloor_le (x + (1 # 2))) as F1.
  pose proof (Qlt_floor (x + (1 # 2))) as F2.
  rewrite inject_Z_plus in F2. change (inject_Z 1) with 1%Q in F2.
  unfold rounding_error in Hlo, Hhi.
  set (n := Qfloor (x + (1 # 2))) in *.
  assert (A : (inject_Z out < inject_Z (n + 1))%Q)
    by (rewrite inject_Z_plus; change (inject_Z 1) with 1%Q; lra).
  assert (B : (inject_Z (n - 2) < inject_Z out)%Q).
  { unfold Z.sub. rewrite inject_Z_plus. change (inject_Z (- (2))) with (- 2)%Q. lra. }
  rewrite <- Zlt_Qlt in A, B. lia.
Qed.

(** C3, amended.  For every binary64 weight strictly between 0 and 1 and
    every base colour with channels in [0, 255], each channel [__mapColor]
    returns is the integer part, not the nearest integer, of the binary64
    value of [(1 - alpha) * 255 + alpha * base] with [alpha = value]; that
    value lies within [3 * 2^-45] of the exact interpolation, and the
    channel is the integer nearest to the exact interpolation or one
    less. *)
Theorem mapColor_rounds_down (ctx : ApiQRContext) (v : float) (c0 c1 c2 : Z) :
  (0 < binary64.to_Q v)%Q -> (binary64.to_Q v < 1)%Q ->
  Forall (fun c => 0 <= c <= 255)%Z [c0; c1; c2] ->
  exists r g b : Z,
    mapColor ctx (PFloat v) (c0, c1, c2) = Ok (r, g, b) /\
    Forall2 (fun out c =>
               integer_part_near (interpolate (binary64.to_Q v) c) out /\
               (spec_channel (binary64.to_Q v) c - 1 <= out
                <= spec_channel (binary64.to_Q v) c)%Z)
            [r; g; b] [c0; c1; c2].
Proof.
  intros H0 H1 Hc.
  destruct (@mapColor_binary64_near ctx v c0 c1 c2 H0 H1 Hc)
    as (r & g & b & Em & Hn).
  exists r, g, b. split; [exact Em|].
  inversion Hn as [|? ? ? ? Hr Hn']; subst.
  inversion Hn' as [|? ? ? ? Hg Hn'']; subst.
  inversion Hn'' as [|? ? ? ? Hb _]; subst.
  constructor; [split; [exact Hr | exact (near_spec_channel H0 H1 Hr)]|].
  constructor; [split; [exact Hg | exact (near_spec_channel H0 H1 Hg)]|].
  constructor; [split; [exact Hb | exact (near_spec_channel H0 H1 Hb)]|].
  constructor.
Qed.

Lemma mapColor_rounds_down_witness :
  exists r g b : Z,
    mapColor (sample_context 4) (PFloat 0.75%float) (0, 128, 255)%Z
      = Ok (r, g, b) /\
    Forall2 (fun out c =>
               integer_part_near (interpolate (binary64.to_Q 0.75%float) c) out /\
               (spec_channel (binary64.to_Q 0.75%float) c - 1 <= out
                <= spec_channel (binary64.to_Q 0.75%float) c)%Z)
            [r; g; b] [0; 128; 255]%Z.
Proof.
  apply (@mapColor_rounds_down (sample_context 4) 0.75%float 0 128 255);
    [vm_compute; reflexivity | vm_compute; reflexivity
    | repeat constructor; lia].
Defined.

(* ------------------------------------------------------------------ *)
(** ** Monotonicity in binary64 *)

Lemma finite64_nonneg (x : float) :
  finite64 (PFloat x) = true -> (0 <= binary64.to_Q x)%Q ->
  binary64.nonneg x = true.
Proof.
  unfold finite64, binary64.to_Q, binary64.nonneg.
  destruct (Prim2SF x) as [s|s| |s m e];
    cbn [binary64.SF2Q binary64.SFnonneg]; intros Hf H; try discriminate;
    try reflexivity.
  destruct s; [exfalso|reflexivity].
  pose proof (finite_pos m e). lra.
Qed.

Lemma mapColor_binary64_at_1 (ctx : ApiQRContext) (x : float) (c : color) :
  binary64.nonneg x = true -> (binary64.to_Q x == 1)%Q ->
  mapColor ctx (PFloat x) c = Ok c.
Proof.
  intros Nx E. unfold mapColor, py_eq, py_cmp, is_True.
  cbn [of_int Number_float num_eqb orb].
  rewrite (@eqb64_true x (binary64.of_Z 1) Nx nonneg_one)
    by (rewrite to_Q_one; exact E).
  reflexivity.
Qed.

Lemma mapColor_binary64_at_0 (ctx : ApiQRContext) (x : float) (c : color) :
  binary64.nonneg x = true -> (binary64.to_Q x == 0)%Q ->
  mapColor ctx (PFloat x) c = Ok (colors_white ctx).
Proof.
  intros Nx E. unfold mapColor, py_eq, py_cmp, is_True, is_False.
  cbn [of_int Number_float num_eqb orb].
  rewrite (@eqb64_false x (binary64.of_Z 1) Nx nonneg_one)
    by (rewrite to_Q_one, E; discriminate).
  rewrite (@eqb64_true x (binary64.of_Z 0) Nx nonneg_zero)
    by (rewrite to_Q_zero; exact E).
  reflexivity.
Qed.

Lemma near_base (q : Q) (c : Z) :
  (0 <= c)%Z -> (q == 1)%Q -> integer_part_near (interpolate q c) c.
Proof.
  intros Hc E. apply (@integer_part_near_comp (inject_Z c)).
  - rewrite (interpolate_comp c E). symmetry. apply interpolate_1.
  - apply integer_part_near_exact, Hc.
Qed.

Lemma near_white (q : Q) (c : Z) :
  (q == 0)%Q -> integer_part_near (interpolate q c) 255.
Proof.
  intros E. apply (@integer_part_near_comp (inject_Z 255)).
  - rewrite (interpolate_comp c E). symmetry. apply interpolate_0.
  - apply integer_part_near_exact. lia.
Qed.

(** From 0 to 1 inclusive, with the conventional white sentinel, every
    channel is the integer part of a number within the rounding error of
    the exact interpolation. *)
Lemma mapColor_binary64_unit (ctx : ApiQRContext) (w : pyval float)
    (c0 c1 c2 : Z) :
  colors_white ctx = white ->
  Forall (fun c => 0 <= c <= 255)%Z [c0; c1; c2] ->
  finite64 w = true ->
  (0 <= weight64 w)%Q -> (weight64 w <= 1)%Q ->
  exists r g b : Z,
    mapColor ctx w (c0, c1, c2) = Ok (r, g, b) /\
    Forall2 (fun out c => integer_part_near (interpolate (weight64 w) c) out)
            [r; g; b] [c0; c1; c2].
Proof.
  intros Hw Hc Hf H0 H1.
  assert (Base : forall q, (q == 1)%Q ->
            Forall2 (fun out c => integer_part_near (interpolate q c) out)
                    [c0; c1; c2] [c0; c1; c2]).
  { intros q E.
    inversion Hc as [|? ? Hc0 Hc']; subst.
    inversion Hc' as [|? ? Hc1 Hc'']; subst.
    inversion Hc'' as [|? ? Hc2 _]; subst.
    repeat (constructor; [apply near_base; [lia | exact E]|]). constructor. }
  assert (White : forall q, (q == 0)%Q ->
            Forall2 (fun out c => integer_part_near (interpolate q c) out)
                    [255; 255; 255]%Z [c0; c1; c2]).
  { intros q E. repeat (constructor; [apply near_white, E|]). constructor. }
  destruct w as [[|]|i|x]; cbn [weight64 int_of_bool] in *.
  - exists c0, c1, c2. split; [reflexivity|]. apply Base. reflexivity.
  - exists 255%Z, 255%Z, 255%Z. split; [cbn; rewrite Hw; reflexivity|].
    apply White. reflexivity.
  - change 0%Q with (inject_Z 0) in H0. change 1%Q with (inject_Z 1) in H1.
    rewrite <- Zle_Qle in H0, H1.
    assert (Hi : i = 0%Z \/ i = 1%Z) by lia.
    destruct Hi as [-> | ->].
    + exists 255%Z, 255%Z, 255%Z. split; [cbn; rewrite Hw; reflexivity|].
      apply White. reflexivity.
    + exists c0, c1, c2. split; [reflexivity|]. apply Base. reflexivity.
  - pose proof (finite64_nonneg x Hf H0) as Nx.
    destruct (Qeq_dec (binary64.to_Q x) 1) as [E1|N1];
      [|destruct (Qeq_dec (binary64.to_Q x) 0) as [E0|N0]].
    + exists c0, c1, c2.
      split; [apply mapColor_binary64_at_1; assumption | apply Base, E1].
    + exists 255%Z, 255%Z, 255%Z. split; [|apply White, E0].
      rewrite (@mapColor_binary64_at_0 ctx x (c0, c1, c2) Nx E0), Hw.
      reflexivity.
    + apply mapColor_binary64_near; [| |exact Hc].
      * destruct (Qle_lt_or_eq _ _ H0) as [Hlt|Heq]; [exact Hlt|].
        exfalso. apply N0. symmetry. exact Heq.
      * destruct (Qle_lt_or_eq _ _ H1) as [Hlt|Heq]; [exact Hlt|].
        exfalso. apply N1. exact Heq.
Qed.

(** Two channels of one base channel, the second for the larger weight. *)
Lemma near_monotone (qa qb : Q) (c x y : Z) :
  (0 <= qa)%Q -> (qa <= qb)%Q -> (0 <= c <= 255)%Z ->
  integer_part_near (interpolate qa c) x ->
  integer_part_near (interpolate qb c) y ->
  (y - 1 <= x <= 255)%Z.
Proof.
  intros H0 Hab Hc Hx Hy.
  destruct (integer_part_near_bounds Hx) as [[Xlo Xhi] _].
  destruct (integer_part_near_bounds Hy) as [[Ylo Yhi] _].
  destruct (interpolate_mono c H0 Hab) as [Hm _].
  destruct (Hm ltac:(lia)) as [M1 M2].
  unfold rounding_error in *.
  assert (A : (inject_Z (y - 2) < inject_Z x)%Q).
  { unfold Z.sub. rewrite inject_Z_plus. change (inject_Z (- (2))) with (- 2)%Q.
    lra. }
  assert (B : (inject_Z x < inject_Z 256)%Q)
    by (change (inject_Z 256) with 256%Q; lra).
  rewrite <- Zlt_Qlt in A, B. lia.
Qed.

(** C8, amended.  In binary64 and with the white sentinel
    [(255, 255, 255)]: for all weights [0 <= a < b <= 1] and every base
    colour with channels in [0, 255], each channel of [__mapColor(a, c)]
    is at most 255 and at least the corresponding channel of
    [__mapColor(b, c)] minus one: the rounding of the interpolation can
    invert two weights, by one unit and no more. *)
Theorem mapColor_monotone_binary64 (ctx : ApiQRContext) (a b : pyval float)
    (c : color) :
  colors_white ctx = white ->
  Forall (fun x => 0 <= x <= 255)%Z (channels c) ->
  finite64 a = true -> finite64 b = true ->
  (0 <= weight64 a)%Q -> (weight64 a < weight64 b)%Q -> (weight64 b <= 1)%Q ->
  exists ca cb : color,
    mapColor ctx a c = Ok ca /\
    mapColor ctx b c = Ok cb /\
    Forall2 (fun x y => y - 1 <= x <= 255)%Z (channels ca) (channels cb).
Proof.
  intros Hw Hc Fa Fb H0 Hab H1. destruct c as [[c0 c1] c2].
  cbn [channels] in Hc.
  destruct (@mapColor_binary64_unit ctx a c0 c1 c2 Hw Hc Fa)
    as (ra & ga & ba & Ea & Na); [lra | lra |].
  destruct (@mapColor_binary64_unit ctx b c0 c1 c2 Hw Hc Fb)
    as (rb & gb & bb & Eb & Nb); [lra | lra |].
  exists (ra, ga, ba), (rb, gb, bb). split; [exact Ea|]. split; [exact Eb|].
  inversion Hc as [|? ? Hc0 Hc']; subst.
  inversion Hc' as [|? ? Hc1 Hc'']; subst.
  inversion Hc'' as [|? ? Hc2 _]; subst.
  inversion Na as [|? ? ? ? Ar Na']; subst.
  inversion Na' as [|? ? ? ? Ag Na'']; subst.
  inversion Na'' as [|? ? ? ? Ab _]; subst.
  inversion Nb as [|? ? ? ? Br Nb']; subst.
  inversion Nb' as [|? ? ? ? Bg Nb'']; subst.
  inversion Nb'' as [|? ? ? ? Bb _]; subst.
  assert (Hle : (weight64 a <= weight64 b)%Q) by lra.
  cbn [channels].
  constructor; [exact (near_monotone H0 Hle Hc0 Ar Br)|].
  constructor; [exact (near_monotone H0 Hle Hc1 Ag Bg)|].
  constructor; [exact (near_monotone H0 Hle Hc2 Ab Bb)|].
  constructor.
Qed.

Lemma mapColor_monotone_binary64_witness :
  exists ca cb : color,
    mapColor (sample_context 4) (PFloat weight_lo) (1, 200, 255)%Z = Ok ca /\
    mapColor (sample_context 4) (PFloat weight_hi) (1, 200, 255)%Z = Ok cb /\
    Forall2 (fun x y => y - 1 <= x <= 255)%Z (channels ca) (channels cb).
Proof.
  apply (@mapColor_monotone_binary64 (sample_context 4) (PFloat weight_lo)
           (PFloat weight_hi) (1, 200, 255)%Z);
    [reflexivity | repeat constructor; lia | reflexivity | reflexivity
    | vm_compute; discriminate | vm_compute; reflexivity
    | vm_compute; discriminate].
Defined.

(* ------------------------------------------------------------------ *)
(** ** The sentinel in binary64 *)

Lemma channel_binary64_at_1 (c : Z) : channel (T := float) (PInt 1) c = Ok c.
Proof.
  unfold channel, py_int, py_add, py_mul, py_sub, py_binop. cbv beta iota.
  f_equal. lia.
Qed.

(** Above 1 the weight is clamped to the integer 1. *)
Lemma mapColor_binary64_above (ctx : ApiQRContext) (x : float) (c : color) :
  binary64.nonneg x = true -> (1 < binary64.to_Q x)%Q ->
  mapColor ctx (PFloat x) c = Ok c.
Proof.
  intros Nx H. destruct c as [[c0 c1] c2].
  unfold mapColor, py_eq, py_max, py_min, py_lt, py_cmp, is_True, is_False.
  cbn [of_int Number_float num_eqb num_ltb orb].
  rewrite (@eqb64_false x (binary64.of_Z 1) Nx nonneg_one)
    by (rewrite to_Q_one; lra).
  rewrite (@eqb64_false x (binary64.of_Z 0) Nx nonneg_zero)
    by (rewrite to_Q_zero; lra).
  rewrite (@ltb64_true (binary64.of_Z 1) x nonneg_one Nx)
    by (rewrite to_Q_one; lra).
  change (1 <? 0)%Z with false. cbv iota.
  rewrite !channel_binary64_at_1. reflexivity.
Qed.

(** A weight that is finite and not negative is always mapped to a
    colour: the base colour from 1 on, and below 1 what the interpolation
    gives. *)
Lemma mapColor_binary64_nonneg (ctx : ApiQRContext) (x : float)
    (c0 c1 c2 : Z) :
  colors_white ctx = white ->
  Forall (fun c => 0 <= c <= 255)%Z [c0; c1; c2] ->
  binary64.nonneg x = true ->
  exists r g b : Z,
    mapColor ctx (PFloat x) (c0, c1, c2) = Ok (r, g, b) /\
    Forall2 (fun out c =>
               integer_part_near (interpolate (Qmin (binary64.to_Q x) 1) c) out)
            [r; g; b] [c0; c1; c2].
Proof.
  intros Hw Hc Nx. pose proof (nonneg_to_Q x Nx) as H0.
  destruct (Qlt_le_dec 1 (binary64.to_Q x)) as [Hhi|Hhi].
  - exists c0, c1, c2. split; [apply mapColor_binary64_above; assumption|].
    assert (E : (Qmin (binary64.to_Q x) 1 == 1)%Q) by (apply Q.min_r; lra).
    inversion Hc as [|? ? Hc0 Hc']; subst.
    inversion Hc' as [|? ? Hc1 Hc'']; subst.
    inversion Hc'' as [|? ? Hc2 _]; subst.
    repeat (constructor; [apply near_base; [lia | exact E]|]). constructor.
  - assert (E : (Qmin (binary64.to_Q x) 1 == binary64.to_Q x)%Q)
      by (apply Q.min_l; lra).
    assert (Hf : finite64 (PFloat x) = true).
    { unfold finite64. unfold binary64.nonneg in Nx.
      destruct (Prim2SF x); try discriminate; reflexivity. }
    destruct (@mapColor_binary64_unit ctx (PFloat x) c0 c1 c2 Hw Hc Hf H0 Hhi)
      as (r & g & b & Em & Hn).
    exists r, g, b. split; [exact Em|]. cbn [weight64] in Hn.
    inversion Hn as [|? ? ? ? Hr Hn']; subst.
    inversion Hn' as [|? ? ? ? Hg Hn'']; subst.
    inversion Hn'' as [|? ? ? ? Hb _]; subst.
    assert (G : forall c out,
              integer_part_near (interpolate (binary64.to_Q x) c) out ->
              integer_part_near (interpolate (Qmin (binary64.to_Q x) 1) c) out).
    { intros c out. apply integer_part_near_comp.
      apply interpolate_comp. symmetry. exact E. }
    constructor; [apply G, Hr|]. constructor; [apply G, Hg|].
    constructor; [apply G, Hb|]. constructor.
Qed.

(** From [2^-43] on, a channel whose base is below 255 comes out below
    255. *)
Lemma near_below_255 (q : Q) (c out : Z) :
  (1 # 8796093022208 <= q)%Q -> (q <= 1)%Q -> (0 <= c < 255)%Z ->
  integer_part_near (interpolate q c) out -> (out < 255)%Z.
Proof.
  intros Hlo Hhi Hc Hn.
  destruct (integer_part_near_bounds Hn) as [[_ Hout] _].
  unfold rounding_error, interpolate in Hout.
  assert (Hq : (inject_Z c <= 254)%Q)
    by (change 254%Q with (inject_Z 254); rewrite <- Zle_Qle; lia).
  assert (Hp : (0 <= (254 - inject_Z c) * q)%Q)
    by (apply Qmult_le_0_compat; lra).
  assert (A : (inject_Z out < inject_Z 255)%Q)
    by (change (inject_Z 255) with 255%Q; lra).
  rewrite <- Zlt_Qlt in A. exact A.
Qed.

Lemma not_white (c0 c1 c2 : Z) :
  Forall (fun c => 0 <= c <= 255)%Z [c0; c1; c2] ->
  (c0, c1, c2) <> white ->
  (c0 < 255 \/ c1 < 255 \/ c2 < 255)%Z.
Proof.
  intros Hc Hne.
  inversion Hc as [|? ? Hc0 Hc']; subst.
  inversion Hc' as [|? ? Hc1 Hc'']; subst.
  inversion Hc'' as [|? ? Hc2 _]; subst.
  destruct (Z.eq_dec c0 255) as [->|]; [|lia].
  destruct (Z.eq_dec c1 255) as [->|]; [|lia].
  destruct (Z.eq_dec c2 255) as [->|]; [|lia].
  exfalso. apply Hne. reflexivity.
Qed.

(** The weight [exportHtml] maps a present cell with, in binary64. *)
Lemma rescaled_binary64 (v : float) :
  binary64.nonneg v = true -> (binary64.to_Q v <= 1)%Q ->
  let v' := (of_Q (4 # 10) + v * (binary64.of_Z 1 - of_Q (4 # 10)))%float in
  py_add (PFloat (of_Q (4 # 10)))
         (py_mul (PFloat v) (py_sub (PInt 1) (PFloat (of_Q (4 # 10)))))
  = PFloat v' /\
  binary64.nonneg v' = true /\
  (3999 # 10000 <= binary64.to_Q v')%Q.
Proof.
  intros Nv H1 v'. split; [reflexivity|].
  pose proof (nonneg_to_Q v Nv) as H0.
  pose proof eta_pos as Heta. pose proof eta_small as Heta'.
  assert (N4 : binary64.nonneg (of_Q (4 # 10)) = true) by reflexivity.
  assert (N6 : binary64.nonneg (binary64.of_Z 1 - of_Q (4 # 10)) = true)
    by reflexivity.
  assert (Q4 : (4 # 10 <= binary64.to_Q (of_Q (4 # 10)) <= 5 # 10)%Q)
    by (split; vm_compute; discriminate).
  assert (Q6 : (0 <= binary64.to_Q (binary64.of_Z 1 - of_Q (4 # 10)) <= 1)%Q)
    by (split; vm_compute; discriminate).
  set (k4 := of_Q (4 # 10)) in *. set (k6 := (binary64.of_Z 1 - k4)%float) in *.
  set (q := binary64.to_Q v) in *.
  assert (W : (0 <= q * binary64.to_Q k6 <= 1)%Q) by (split; nra).
  destruct (@mul64 v k6 Nv N6) as [Ny Ry].
  { apply below_overflow. fold q. lra. }
  unfold binary64.near in Ry. rewrite unit_roundoff_eq in Ry. fold q in Ry.
  set (w := (q * binary64.to_Q k6)%Q) in *.
  destruct (@add64 k4 (v * k6)%float N4 Ny) as [Nz Rz].
  { apply below_overflow. lra. }
  unfold binary64.near in Rz. rewrite unit_roundoff_eq in Rz.
  split; [exact Nz|]. fold v'. fold v' in Rz.
  pose proof (nonneg_to_Q (v * k6)%float Ny) as Hy.
  lra.
Qed.

(** Near white the rounding decides: [0.04] on a white base colour comes
    out one unit below white, and a weight of [3 * 2^-47] on a base colour
    one unit below white is drawn white. *)
Example mapColor_near_white :
  mapColor (sample_context 4) (PFloat weight_near_white) white
    = Ok (254, 254, 254)%Z /\
  mapColor (sample_context 4) (PFloat 0x1.8p-46%float) (254, 254, 254)%Z
    = Ok white.
Proof. vm_compute. split; reflexivity. Qed.

(** C9, amended.  In binary64 and with the white sentinel
    [(255, 255, 255)]: for every weight from [2^-43] up to, but not
    including, 1 and every base colour with channels in [0, 255] other
    than white, [__mapColor] returns a colour that differs from the
    sentinel, and [exportHtml] writes the cell outside its sentinel
    branch. *)
Theorem mapColor_present_binary64 (ctx : ApiQRContext) (v : float) (c : color)
    (labels : list String.string) :
  colors_white ctx = white ->
  (1 # 8796093022208 <= binary64.to_Q v)%Q -> (binary64.to_Q v < 1)%Q ->
  Forall (fun x => 0 <= x <= 255)%Z (channels c) ->
  c <> white ->
  exists col : color,
    mapColor ctx (PFloat v) c = Ok col /\
    col <> colors_white ctx /\
    exists out : cell,
      html_cell ctx (PFloat v) c (Ok labels) = Ok out /\
      sentinel_branch out = false.
Proof.
  intros Hw Hlo Hhi Hc Hne. destruct c as [[c0 c1] c2]. cbn [channels] in Hc.
  assert (H0 : (0 < binary64.to_Q v)%Q) by lra.
  pose proof (positive_nonneg v H0) as Nv.
  destruct (@mapColor_binary64_near ctx v c0 c1 c2 H0 Hhi Hc)
    as (r & g & b & Em & Hn).
  assert (Hcol : (r, g, b) <> colors_white ctx).
  { rewrite Hw. unfold white. intros E. injection E as -> -> ->.
    inversion Hc as [|? ? Hc0 Hc']; subst.
    inversion Hc' as [|? ? Hc1 Hc'']; subst.
    inversion Hc'' as [|? ? Hc2 _]; subst.
    inversion Hn as [|? ? ? ? Hr Hn']; subst.
    inversion Hn' as [|? ? ? ? Hg Hn'']; subst.
    inversion Hn'' as [|? ? ? ? Hb _]; subst.
    assert (Hq1 : (binary64.to_Q v <= 1)%Q) by lra.
    destruct (not_white Hc Hne) as [L|[L|L]].
    - pose proof (@near_below_255 _ c0 255 Hlo Hq1 ltac:(lia) Hr). lia.
    - pose proof (@near_below_255 _ c1 255 Hlo Hq1 ltac:(lia) Hg). lia.
    - pose proof (@near_below_255 _ c2 255 Hlo Hq1 ltac:(lia) Hb). lia. }
  exists (r, g, b). split; [exact Em|]. split; [exact Hcol|].
  unfold html_cell. rewrite Em. cbn [bind].
  destruct (color_eqb (r, g, b) (colors_white ctx)) eqn:Eb.
  - exfalso. apply color_eqb_eq in Eb. exact (Hcol Eb).
  - cbn [bind].
    destruct (@rescaled_binary64 v Nv ltac:(lra)) as (Ev' & Nv' & _).
    rewrite Ev'.
    destruct (@mapColor_binary64_nonneg ctx _ c0 c1 c2 Hw Hc Nv')
      as (r' & g' & b' & Em' & _).
    rewrite Em'. cbn [bind]. eexists. split; reflexivity.
Qed.

Lemma mapColor_present_binary64_witness :
  exists col : color,
    mapColor (sample_context 4) (PFloat 0.5%float) (0, 0, 0)%Z = Ok col /\
    col <> colors_white (sample_context 4) /\
    exists out : cell,
      html_cell (sample_context 4) (PFloat 0.5%float) (0, 0, 0)%Z (Ok [])
        = Ok out /\
      sentinel_branch out = false.
Proof.
  apply (@mapColor_present_binary64 (sample_context 4) 0.5%float (0, 0, 0)%Z []);
    [reflexivity | vm_compute; discriminate | vm_compute; reflexivity
    | repeat constructor; lia | discriminate].
Defined.

(* ------------------------------------------------------------------ *)
(** ** Addition *)

(** The constructor accepts the call its signature describes. *)
Example bind_keywords_init :
  bind_keywords ApiQR_init_params ["winapi1024_filepath"; "vector"]%string
  = Ok tt.
Proof. reflexivity. Qed.

(** C10. For every pair of [ApiQR] instances, [__add__] raises and never
    returns a sum: with different contexts it raises the [ValueError] it
    states, and otherwise the constructor call fails with [TypeError],
    because [context] is no parameter of [__init__] (and
    [winapi1024_filepath], which has no default, receives nothing),
    whatever the vectors are. *)
Theorem add_never_returns (T : Type) `{Number T}
    (context_ne : ApiQRContext -> ApiQRContext -> bool)
    (self other : ApiQR T) :
  add context_ne self (AnApiQR other) =
    Raise (if context_ne (context self) (context other)
           then ValueError else TypeError) /\
  raises (add context_ne self (AnApiQR other)) /\
  (forall (v : list (pyval T)) (ctx : ApiQRContext),
     ApiQR_call v ctx = Raise TypeError).
Proof.
  assert (E : add context_ne self (AnApiQR other) =
              Raise (if context_ne (context self) (context other)
                     then ValueError else TypeError)).
  { unfold add. destruct (context_ne (context self) (context other)); reflexivity. }
  split; [exact E|]. split.
  - eexists. exact E.
  - intros v ctx. reflexivity.
Qed.

(* ------------------------------------------------------------------ *)
(** ** More on the curve generator *)

Lemma hilbertCurve_power (depth k : nat) :
  k < depth -> hilbertCurve depth (2 ^ Z.of_nat k) = Ok (curve k).
Proof. intros Hd. rewrite pow2_Z_nat. apply hilbertCurve_pow2, Hd. Qed.

(** X1. For every power of two [n], the curve starts in the top left
    corner and ends in the bottom left corner: the returned grid holds 0 at
    row 0, column 0 and [n*n - 1] at row [n - 1], column 0. *)
Theorem hilbertCurve_corners (k depth : nat) (n : Z) :
  n = (2 ^ Z.of_nat k)%Z ->
  k < depth ->
  exists g : np.ndarray,
    hilbertCurve depth n = Ok g /\
    get g 0 0 = 0%Z /\
    get g (Z.to_nat n - 1) 0 = (n * n - 1)%Z.
Proof.
  intros -> Hd. exists (curve k). split; [apply hilbertCurve_power, Hd|].
  pose proof (pow2_pos k) as Hm.
  rewrite pow2_Z_nat, Nat2Z.id. split.
  - assert (H0 : 0 < 2 ^ k * 2 ^ k) by nia.
    destruct (coord_spec k H0) as (_ & _ & Hg).
    rewrite coord_first in Hg. exact Hg.
  - assert (Hl : 2 ^ k * 2 ^ k - 1 < 2 ^ k * 2 ^ k) by nia.
    destruct (coord_spec k Hl) as (_ & _ & Hg).
    rewrite coord_last in Hg. cbn [fst snd] in Hg. rewrite Hg. nia.
Qed.

Lemma hilbertCurve_corners_witness :
  exists g : np.ndarray,
    hilbertCurve 5 8 = Ok g /\
    get g 0 0 = 0%Z /\
    get g (Z.to_nat 8 - 1) 0 = (8 * 8 - 1)%Z.
Proof.
  apply (@hilbertCurve_corners 3 5 8%Z); [reflexivity | lia].
Defined.

(** X2. The grid of side [2n] is made of the grid [t] of side [n] (a power
    of two): the top left quadrant is [t] reflected in its diagonal, the top
    right quadrant is [t + n*n], the bottom right quadrant is [t + 2*n*n]
    and the bottom left quadrant is [t] reflected in its anti-diagonal,
    plus [3*n*n]. *)
Theorem hilbertCurve_doubling (k depth : nat) (n : Z) (i j : nat) :
  n = (2 ^ Z.of_nat k)%Z ->
  k < depth ->
  i < 2 * Z.to_nat n -> j < 2 * Z.to_nat n ->
  exists t g : np.ndarray,
    hilbertCurve depth n = Ok t /\
    hilbertCurve (S depth) (2 * n) = Ok g /\
    get g i j =
    let m := Z.to_nat n in
    if i <? m then
      if j <? m then get t j i else (get t i (j - m) + n * n)%Z
    else
      if j <? m then (get t (m - 1 - j) (m - 1 - (i - m)) + n * n * 3)%Z
      else (get t (i - m) (j - m) + n * n * 2)%Z.
Proof.
  intros -> Hd Hi Hj. exists (curve k), (curve (S k)).
  split; [apply hilbertCurve_power, Hd|]. split.
  - rewrite <- Z.pow_succ_r, <- Nat2Z.inj_succ by lia.
    apply hilbertCurve_power. lia.
  - cbv zeta. rewrite pow2_Z_nat, Nat2Z.id in *.
    rewrite curve_S, (get_quadrants (curve_square k)) by assumption.
    rewrite <- Nat2Z.inj_mul. reflexivity.
Qed.

Lemma hilbertCurve_doubling_witness :
  exists t g : np.ndarray,
    hilbertCurve 5 4 = Ok t /\
    hilbertCurve (S 5) (2 * 4) = Ok g /\
    get g 6 1 =
    let m := Z.to_nat 4 in
    if 6 <? m then
      if 1 <? m then get t 1 6 else (get t 6 (1 - m) + 4 * 4)%Z
    else
      if 1 <? m then (get t (m - 1 - 1) (m - 1 - (6 - m)) + 4 * 4 * 3)%Z
      else (get t (6 - m) (1 - m) + 4 * 4 * 2)%Z.
Proof.
  apply (@hilbertCurve_doubling 2 5 4%Z 6 1); [reflexivity | lia | simpl; lia | simpl; lia].
Defined.

Lemma hilbertCurve_shallow (depth : nat) (n : Z) :
  (2 ^ Z.of_nat depth <= n)%Z -> hilbertCurve depth n = Raise RecursionError.
Proof.
  revert n. induction depth as [|depth IH]; intros n Hn; [reflexivity|].
  rewrite Nat2Z.inj_succ, Z.pow_succ_r in Hn by lia.
  assert (Hp : (0 < 2 ^ Z.of_nat depth)%Z) by (apply Z.pow_pos_nonneg; lia).
  simpl. destruct (Z.eqb_spec n 1) as [->|_]; [lia|].
  rewrite IH; [reflexivity|]. apply Z.div_le_lower_bound; lia.
Qed.

(** X3. For [n >= 1] the recursion nests [log2 n + 1] calls of
    [__hilbertCurve]: when the recursion limit lets at most [log2 n] calls
    nest, the generator raises [RecursionError] and returns no grid. *)
Theorem hilbertCurve_frames (depth : nat) (n : Z) :
  (1 <= n)%Z ->
  (Z.of_nat depth <= Z.log2 n)%Z ->
  hilbertCurve depth n = Raise RecursionError.
Proof.
  intros Hn Hd. apply hilbertCurve_shallow.
  destruct (Z.log2_spec n ltac:(lia)) as [Hlo _].
  apply Z.le_trans with (2 ^ Z.log2 n)%Z; [|exact Hlo].
  apply Z.pow_le_mono_r; lia.
Qed.

Lemma hilbertCurve_frames_witness :
  hilbertCurve 5 32 = Raise RecursionError.
Proof.
  apply (@hilbertCurve_frames 5 32%Z); [lia | vm_compute; discriminate].
Defined.

(** X4. Neighbouring values stay together: in the grid of side [n * 2^s]
    ([n] a power of two) the cells of one aligned block of side [2^s] hold
    the [4^s] values whose quotient by [4^s] is the value the grid of side
    [n] holds at the block's position. *)
Theorem hilbertCurve_blockwise (k s depth i j : nat) :
  k + s < depth ->
  i < 2 ^ (k + s) -> j < 2 ^ (k + s) ->
  exists coarse fine : np.ndarray,
    hilbertCurve depth (2 ^ Z.of_nat k) = Ok coarse /\
    hilbertCurve depth (2 ^ Z.of_nat k * 2 ^ Z.of_nat s) = Ok fine /\
    (get fine i j / 4 ^ Z.of_nat s)%Z = get coarse (i / 2 ^ s) (j / 2 ^ s).
Proof.
  intros Hd Hi Hj. exists (curve k), (curve (k + s)).
  split; [apply hilbertCurve_power; lia|]. split.
  - rewrite <- Z.pow_add_r, <- Nat2Z.inj_add by lia.
    apply hilbertCurve_power, Hd.
  - rewrite <- (curve_coarse s k Hi Hj). f_equal.
    change 4%Z with (2 * 2)%Z.
    rewrite Z.pow_mul_l, pow2_Z_nat, Nat2Z.inj_mul. reflexivity.
Qed.

Lemma hilbertCurve_blockwise_witness :
  exists coarse fine : np.ndarray,
    hilbertCurve 5 (2 ^ Z.of_nat 1) = Ok coarse /\
    hilbertCurve 5 (2 ^ Z.of_nat 1 * 2 ^ Z.of_nat 2) = Ok fine /\
    (get fine 5 2 / 4 ^ Z.of_nat 2)%Z = get coarse (5 / 2 ^ 2) (2 / 2 ^ 2).
Proof.
  apply (@hilbertCurve_blockwise 1 2 5 5 2); [lia | simpl; lia | simpl; lia].
Defined.

(* ------------------------------------------------------------------ *)
(** ** More on the re-indexing *)

Lemma map_nth_seq (A : Type) (v : list A) (d : A) (n : nat) :
  n <= length v -> map (fun i => nth i v d) (seq 0 n) = firstn n v.
Proof.
  revert n. induction v as [|x v IH]; intros n Hn; simpl in Hn.
  - replace n with 0 by lia. reflexivity.
  - destruct n as [|n]; [reflexivity|].
    simpl. f_equal. rewrite <- seq_shift, map_map. apply IH. lia.
Qed.

Lemma map_nth_range (A : Type) (v : list A) (d : A) (n : nat) :
  n <= length v ->
  map (fun x => nth (Z.to_nat x) v d) (range n) = firstn n v.
Proof.
  intros Hn. unfold range. rewrite map_map, <- (map_nth_seq v d Hn).
  apply map_ext. intros i. rewrite Nat2Z.id. reflexivity.
Qed.

(** X5. For every non-empty vector, [__vectorToHilbert] returns a square
    grid of side [m], the largest power of two not above the integer part
    of the square root of the length, and the grid holds the first [m * m]
    elements of the vector, each once: nothing is repeated, and only the
    elements from index [m * m] on are dropped. *)
Theorem vectorToHilbert_keeps_prefix (A : Type) (depth : nat) (v : list A) :
  0 < length v ->
  (Z.log2 (int_sqrt_len v) < Z.of_nat depth)%Z ->
  exists G : list (list A),
    vectorToHilbert depth v = Ok G /\
    let m := 2 ^ Z.to_nat (Z.log2 (int_sqrt_len v)) in
    square m G /\ Permutation (concat G) (firstn (m * m) v).
Proof.
  intros Hne Hd.
  destruct v as [|d v0] eqn:Ev; [simpl in Hne; lia|]. rewrite <- Ev in *. clear Ev v0.
  set (k := Z.to_nat (Z.log2 (int_sqrt_len v))).
  pose proof (hilbertCurve_log2 depth (int_sqrt_len_pos v Hne) Hd) as Hc. fold k in Hc.
  pose proof (curve_fits v Hne) as Hfit. cbv zeta in Hfit. fold k in Hfit.
  exists (map (map (fun x => nth (Z.to_nat x) v d)) (curve k)).
  split; [apply vectorToHilbert_curve; assumption|].
  cbv zeta. split.
  - apply square_map_map, curve_square.
  - rewrite <- concat_map, <- (map_nth_range v d Hfit).
    apply Permutation_map, curve_permutation.
Qed.

Lemma vectorToHilbert_keeps_prefix_witness :
  exists G : list (list Z),
    vectorToHilbert 10 (range 15) = Ok G /\
    let m := 2 ^ Z.to_nat (Z.log2 (int_sqrt_len (range 15))) in
    square m G /\ Permutation (concat G) (firstn (m * m) (range 15)).
Proof.
  apply (@vectorToHilbert_keeps_prefix Z 10 (range 15)); [simpl; lia | reflexivity].
Defined.

(** X6. Round trip: for a vector of [4^k] elements, the element with
    index [i] is found in the rendered grid at the cell where the curve
    holds [i]. *)
Theorem vectorToHilbert_inverse (A : Type) (depth k : nat) (v : list A)
    (d : A) (i : nat) :
  length v = 2 ^ k * 2 ^ k ->
  k < depth ->
  i < length v ->
  exists (H : np.ndarray) (G : list (list A)) (r c : nat),
    hilbertCurve depth (int_sqrt_len v) = Ok H /\
    vectorToHilbert depth v = Ok G /\
    argwhere H (Z.of_nat i) = Some (r, c) /\
    nth c (nth r G []) d = nth i v d.
Proof.
  intros Hl Hd Hi.
  exists (curve k), (map (map (fun x => nth (Z.to_nat x) v d)) (curve k)),
         (fst (coord k i)), (snd (coord k i)).
  pose proof (@vectorToHilbert_square _ depth k v d Hl Hd) as HG.
  split; [|split; [exact HG|split]].
  - rewrite (@int_sqrt_len_square _ v _ Hl). apply hilbertCurve_pow2, Hd.
  - rewrite <- surjective_pairing. apply argwhere_curve. lia.
  - apply (@vectorToHilbert_round_trip _ depth k v _ d i Hl Hd HG Hi).
Qed.

Lemma vectorToHilbert_inverse_witness :
  exists (H : np.ndarray) (G : list (list Z)) (r c : nat),
    hilbertCurve 5 (int_sqrt_len (range 16)) = Ok H /\
    vectorToHilbert 5 (range 16) = Ok G /\
    argwhere H (Z.of_nat 9) = Some (r, c) /\
    nth c (nth r G []) 0%Z = nth 9 (range 16) 0%Z.
Proof.
  apply (@vectorToHilbert_inverse Z 5 2 (range 16) 0%Z 9);
    [reflexivity | lia | simpl; lia].
Defined.

(* ------------------------------------------------------------------ *)
(** ** Edge cases of the renderers *)

(** X7. Without weights nothing is rendered: for an empty vector
    [vector_hilbert] and [exportPng] (whatever the scale factor) raise
    [IndexError], because [__vectorToHilbert] looks at the first element,
    and [exportHtml] raises [ZeroDivisionError], because its style header
    divides by the side of the grid. *)
Theorem render_empty (T : Type) `{Number T} (depth : nat) (self : ApiQR T)
    (scale_factor : Z) :
  vector self = [] ->
  vector_hilbert depth self = Raise IndexError /\
  exportPng depth self scale_factor = Raise IndexError /\
  exportHtml depth self = Raise ZeroDivisionError.
Proof.
  intros He. unfold vector_hilbert, exportPng, exportHtml, colored_vector,
    scaled_vector.
  rewrite He. cbn [combine mapM bind].
  repeat split. destruct (scale_factor <? 0)%Z; reflexivity.
Qed.

Lemma render_empty_witness :
  vector_hilbert 5 {| vector := @nil (pyval float); context := sample_context 4 |}
    = Raise IndexError /\
  exportPng 5 {| vector := @nil (pyval float); context := sample_context 4 |} 5
    = Raise IndexError /\
  exportHtml 5 {| vector := @nil (pyval float); context := sample_context 4 |}
    = Raise ZeroDivisionError.
Proof.
  apply (@render_empty float _ 5
           {| vector := @nil (pyval float); context := sample_context 4 |} 5%Z).
  reflexivity.
Defined.

Lemma mapM_all_ok (A B : Type) (f : A -> result B) (l : list A) :
  (forall x, In x l -> exists y, f x = Ok y) ->
  exists ys, mapM f l = Ok ys /\
    forall (i : nat) (d : A) (d' : B),
      i < length l -> f (nth i l d) = Ok (nth i ys d').
Proof.
  induction l as [|x l IH]; intros Hf.
  - exists []. split; [reflexivity|]. intros i d d' Hi. simpl in Hi. lia.
  - destruct (Hf x (or_introl eq_refl)) as [y Hy].
    destruct IH as (ys & Hys & Hn); [intros z Hz; apply Hf; right; exact Hz|].
    exists (y :: ys). split; [simpl; rewrite Hy, Hys; reflexivity|].
    intros [|i] d d' Hi; simpl in *; [exact Hy | apply Hn; lia].
Qed.

Lemma mapM_In (A B : Type) (f : A -> result B) (l : list A) (ys : list B) (y : B) :
  mapM f l = Ok ys -> In y ys -> exists x, In x l /\ f x = Ok y.
Proof.
  revert ys. induction l as [|x l IH]; simpl; intros ys Hm Hy.
  - injection Hm as <-. contradiction.
  - destruct (f x) as [z|e] eqn:Ez; simpl in Hm; [|discriminate].
    destruct (mapM f l) as [zs|e] eqn:Ezs; simpl in Hm; [|discriminate].
    injection Hm as <-. destruct Hy as [<-|Hy].
    + exists x. split; [left; reflexivity | exact Ez].
    + destruct (IH zs eq_refl Hy) as (x' & Hx' & Hfx').
      exists x'. split; [right; exact Hx' | exact Hfx'].
Qed.

(** In exact arithmetic every weight gets a colour. *)
Lemma colored_vector_exact (self : ApiQR Q) :
  exists colored : list color,
    colored_vector self = Ok colored /\
    length colored =
      Nat.min (length (vector self)) (length (colors (context self))).
Proof.
  unfold colored_vector.
  destruct (@mapM_all_ok _ _
              (fun vc => mapColor (context self) (fst vc) (snd vc))
              (combine (vector self) (colors (context self))))
    as (ys & Hys & _).
  - intros x _. apply mapColor_Q_total.
  - exists ys. split; [exact Hys|].
    erewrite mapM_length by exact Hys. apply length_combine.
Qed.

(** X8. A negative scale factor is refused: when there is at least one
    weight and one colour, [exportPng] raises [TypeError], since
    [4 ** scale_factor] is then a float and a list cannot be repeated a
    fractional number of times.  (Exact arithmetic, where the colour
    mapping itself cannot fail.) *)
Theorem exportPng_negative_scale (depth : nat) (self : ApiQR Q)
    (scale_factor : Z) :
  vector self <> [] ->
  colors (context self) <> [] ->
  (scale_factor < 0)%Z ->
  exportPng depth self scale_factor = Raise TypeError.
Proof.
  intros Hv Hc Hs.
  destruct (colored_vector_exact self) as (colored & Hcol & Hlen).
  unfold exportPng, scaled_vector. rewrite Hcol. cbn [bind].
  destruct (Z.ltb_spec scale_factor 0) as [_|Hge]; [|lia].
  destruct colored as [|c colored]; [|reflexivity].
  exfalso. simpl in Hlen.
  destruct (vector self); [apply Hv; reflexivity|].
  destruct (colors (context self)); [apply Hc; reflexivity|].
  simpl in Hlen. discriminate.
Qed.

Lemma exportPng_negative_scale_witness :
  exportPng 5 {| vector := [PFloat (1 # 2)%Q]; context := sample_context 1 |} (-1)
  = Raise TypeError.
Proof.
  apply (@exportPng_negative_scale 5
           {| vector := [PFloat (1 # 2)%Q]; context := sample_context 1 |} (-1)%Z);
    [discriminate | discriminate | lia].
Defined.

Lemma reshape_In (A : Type) (r c : nat) (flat row : list A) (x : A) :
  In row (np.reshape r c flat) -> In x row -> In x flat.
Proof.
  revert flat. induction r as [|r IH]; simpl; intros flat Hrow Hx; [contradiction|].
  rewrite <- (firstn_skipn c flat). apply in_or_app.
  destruct Hrow as [<-|Hrow]; [left; exact Hx|].
  right. apply (IH _ Hrow Hx).
Qed.

(** The rendered grid holds elements of the vector only. *)
Lemma vectorToHilbert_members (A : Type) (depth : nat) (v : list A)
    (G : list (list A)) (row : list A) (x : A) :
  vectorToHilbert depth v = Ok G -> In row G -> In x row -> In x v.
Proof.
  unfold vectorToHilbert. destruct v as [|a v0] eqn:Ev; [discriminate|].
  rewrite <- Ev. clear Ev.
  destruct (hilbertCurve depth (int_sqrt_len v)) as [H|e]; [|discriminate].
  cbn [bind].
  destruct (mapM (getitem v) _) as [picked|e] eqn:Ep; [|discriminate].
  cbn [bind]. intros E Hrow Hx. injection E as <-.
  assert (Hin : In x picked) by (eapply reshape_In; eassumption).
  eapply mapM_In in Ep; [|exact Hin]. destruct Ep as (p & _ & Hp).
  unfold getitem in Hp. destruct (nth_error v p) as [y|] eqn:En; [|discriminate].
  injection Hp as <-. eapply nth_error_In. exact En.
Qed.

Lemma int8_range (z : Z) : (-128 <= int8 z <= 127)%Z.
Proof.
  unfold int8. pose proof (Z.mod_pos_bound (z + 128) 256 ltac:(lia)). lia.
Qed.

Lemma int8_byte (z : Z) : (int8 z mod 256 = z mod 256)%Z.
Proof.
  unfold int8. rewrite Zminus_mod_idemp_l. f_equal. lia.
Qed.

(** X9. Every pixel of the array [exportPng] builds is one of the mapped
    colours converted by [np.int8]: each channel lies in [-128, 127] and
    has the byte of the mapped channel, so a mapped channel from 128 to 255
    is stored as that channel minus 256. *)
Theorem exportPng_pixels (T : Type) `{Number T} (depth : nat) (self : ApiQR T)
    (scale_factor : Z) (colored : list color) (pixels : list (list color)) :
  colored_vector self = Ok colored ->
  exportPng depth self scale_factor = Ok pixels ->
  Forall (Forall (fun p =>
    exists c : color,
      In c colored /\ p = int8_color c /\
      Forall2 (fun out ch => (-128 <= out <= 127)%Z /\
                             (out mod 256 = ch mod 256)%Z)
              (channels p) (channels c))) pixels.
Proof.
  intros Hcol Hpng. unfold exportPng in Hpng. rewrite Hcol in Hpng.
  cbn [bind] in Hpng.
  destruct (scaled_vector scale_factor colored) as [scaled|e] eqn:Es;
    [|discriminate].
  cbn [bind] in Hpng.
  destruct (vectorToHilbert depth scaled) as [G|e] eqn:EG; [|discriminate].
  cbn [bind] in Hpng. injection Hpng as <-.
  assert (Hsc : forall c, In c scaled -> In c colored).
  { unfold scaled_vector in Es.
    destruct (scale_factor <? 0)%Z.
    - destruct colored; [|discriminate]. injection Es as <-. intros c [].
    - injection Es as <-. intros c Hc.
      apply in_concat in Hc. destruct Hc as (l & Hl & Hc).
      apply in_map_iff in Hl. destruct Hl as (c' & <- & Hc').
      apply repeat_spec in Hc. subst c. exact Hc'. }
  apply Forall_forall. intros row Hrow. apply Forall_forall. intros p Hp.
  apply in_map_iff in Hrow. destruct Hrow as (row0 & <- & Hrow0).
  apply in_map_iff in Hp. destruct Hp as (c & <- & Hc).
  exists c. split; [apply Hsc; eapply vectorToHilbert_members; eassumption|].
  split; [reflexivity|].
  destruct c as [[r g] b]. cbn [int8_color channels].
  repeat constructor; try apply int8_range; apply int8_byte.
Qed.

Lemma exportPng_pixels_witness :
  Forall (Forall (fun p =>
    exists c : color,
      In c sample_4_colored /\ p = int8_color c /\
      Forall2 (fun out ch => (-128 <= out <= 127)%Z /\
                             (out mod 256 = ch mod 256)%Z)
              (channels p) (channels c)))
    [[(10, 20, 30); (-79, 127, -29)]; [(7, 7, 7); (-1, -1, -1)]]%Z.
Proof.
  apply (@exportPng_pixels float _ 5 sample_4 0%Z sample_4_colored);
    vm_compute; reflexivity.
Defined.

(* ------------------------------------------------------------------ *)
(** ** More on the colour mapper (exact arithmetic) *)

Lemma Qle_bool_false (x y : Q) : (y < x)%Q -> Qle_bool x y = false.
Proof.
  intros Hlt. apply not_true_is_false. intros E. apply Qle_bool_iff in E. lra.
Qed.

Lemma Qeq_bool_false (x y : Q) : ~ (x == y)%Q -> Qeq_bool x y = false.
Proof.
  intros Hne. apply not_true_is_false. intros E. apply Qeq_bool_iff in E.
  exact (Hne E).
Qed.

Lemma channel_at_1 (c : Z) : channel (T := Q) (PInt 1) c = Ok c.
Proof.
  unfold channel, py_int, py_add, py_mul, py_sub, py_binop. cbv beta iota.
  f_equal. lia.
Qed.

Lemma channel_at_0 (c : Z) : channel (T := Q) (PInt 0) c = Ok 255%Z.
Proof.
  unfold channel, py_int, py_add, py_mul, py_sub, py_binop. cbv beta iota.
  f_equal.
Qed.

Lemma not_special_outside (v : pyval Q) :
  (1 < weight v)%Q \/ (weight v < 0)%Q ->
  is_True v || py_eq v (PInt 1) || py_eq v (PFloat (of_int 1)) = false /\
  is_False v || py_eq v (PInt 0) || py_eq v (PFloat (of_int 0)) = false.
Proof.
  intros Hw. unfold py_eq, py_cmp, is_True, is_False.
  cbn [of_int Number_Q num_eqb].
  destruct v as [[|]|i|x]; cbn [weight int_of_bool] in Hw.
  - exfalso. destruct Hw as [Hw|Hw]; revert Hw; apply Qle_not_lt; discriminate.
  - exfalso. destruct Hw as [Hw|Hw]; revert Hw; apply Qle_not_lt; discriminate.
  - assert (Hi : (1 < i)%Z \/ (i < 0)%Z).
    { destruct Hw as [Hw|Hw]; [left|right].
      - change 1%Q with (inject_Z 1) in Hw. rewrite <- Zlt_Qlt in Hw. exact Hw.
      - change 0%Q with (inject_Z 0) in Hw. rewrite <- Zlt_Qlt in Hw. exact Hw. }
    rewrite !(Qeq_bool_false (x := inject_Z i)) by
      (rewrite inject_Z_injective; lia).
    rewrite (proj2 (Z.eqb_neq i 1)), (proj2 (Z.eqb_neq i 0)) by lia.
    split; reflexivity.
  - rewrite !(Qeq_bool_false (x := x)) by
      (change (inject_Z 1) with 1%Q; change (inject_Z 0) with 0%Q; lra).
    split; reflexivity.
Qed.

Lemma alpha_above (v : pyval Q) :
  (1 < weight v)%Q -> py_max (py_min v (PInt 1)) (PInt 0) = PInt 1.
Proof.
  intros Hw. unfold py_max, py_min, py_lt, py_cmp. cbn [of_int Number_Q num_ltb].
  destruct v as [[|]|i|x]; cbn [weight int_of_bool] in Hw.
  - exfalso. revert Hw. apply Qle_not_lt. discriminate.
  - exfalso. revert Hw. apply Qle_not_lt. discriminate.
  - change 1%Q with (inject_Z 1) in Hw. rewrite <- Zlt_Qlt in Hw.
    rewrite (proj2 (Z.ltb_lt 1 i)) by lia. reflexivity.
  - rewrite (Qle_bool_false (x := x) (y := inject_Z 1)) by exact Hw.
    reflexivity.
Qed.

Lemma alpha_below (v : pyval Q) :
  (weight v < 0)%Q -> py_max (py_min v (PInt 1)) (PInt 0) = PInt 0.
Proof.
  intros Hw. unfold py_max, py_min, py_lt, py_cmp. cbn [of_int Number_Q num_ltb].
  destruct v as [[|]|i|x]; cbn [weight int_of_bool] in Hw.
  - exfalso. revert Hw. apply Qle_not_lt. discriminate.
  - exfalso. revert Hw. apply Qle_not_lt. discriminate.
  - change 0%Q with (inject_Z 0) in Hw. rewrite <- Zlt_Qlt in Hw.
    rewrite (proj2 (Z.ltb_ge 1 i)) by lia.
    rewrite (proj2 (Z.ltb_lt i 0)) by lia. reflexivity.
  - rewrite (proj2 (Qle_bool_iff x (inject_Z 1))) by
      (change (inject_Z 1) with 1%Q; lra).
    cbn [negb].
    rewrite (Qle_bool_false (x := inject_Z 0) (y := x)) by exact Hw.
    reflexivity.
Qed.

Lemma mapColor_above (ctx : ApiQRContext) (v : pyval Q) (c : color) :
  (1 < weight v)%Q -> mapColor ctx v c = Ok c.
Proof.
  intros Hw. destruct c as [[c0 c1] c2]. unfold mapColor.
  destruct (not_special_outside v (or_introl Hw)) as [-> ->].
  rewrite (alpha_above v Hw), !channel_at_1. reflexivity.
Qed.

Lemma mapColor_below (ctx : ApiQRContext) (v : pyval Q) (c : color) :
  (weight v < 0)%Q -> mapColor ctx v c = Ok (255, 255, 255)%Z.
Proof.
  intros Hw. destruct c as [[c0 c1] c2]. unfold mapColor.
  destruct (not_special_outside v (or_intror Hw)) as [-> ->].
  rewrite (alpha_below v Hw), !channel_at_0. reflexivity.
Qed.

(** X10. Weights outside the scale are clamped, not refused: a weight
    above 1 is mapped to the base colour unchanged, and a weight below 0
    is mapped to [(255, 255, 255)], whatever the context's sentinel colour
    is.  (Exact arithmetic.) *)
Theorem mapColor_clamps (ctx : ApiQRContext) (v : pyval Q) (c : color) :
  ((1 < weight v)%Q -> mapColor ctx v c = Ok c) /\
  ((weight v < 0)%Q -> mapColor ctx v c = Ok (255, 255, 255)%Z).
Proof. split; [apply mapColor_above | apply mapColor_below]. Qed.

Lemma mapColor_clamps_witness :
  mapColor (sample_context 4) (PFloat (7 # 2)%Q) (10, 20, 30)%Z
    = Ok (10, 20, 30)%Z /\
  mapColor (sample_context 4) (PInt (-3)) (10, 20, 30)%Z
    = Ok (255, 255, 255)%Z.
Proof.
  split.
  - apply (proj1 (@mapColor_clamps (sample_context 4) (PFloat (7 # 2)%Q)
                    (10, 20, 30)%Z)).
    reflexivity.
  - apply (proj2 (@mapColor_clamps (sample_context 4) (PInt (-3))
                    (10, 20, 30)%Z)).
    reflexivity.
Defined.

(* ------------------------------------------------------------------ *)
(** ** The range of the colour mapper (binary64) *)

Lemma channel_binary64_at_0 (c : Z) : channel (T := float) (PInt 0) c = Ok 255%Z.
Proof.
  unfold channel, py_int, py_add, py_mul, py_sub, py_binop. cbv beta iota.
  f_equal.
Qed.

Lemma Prim2SF_one :
  Prim2SF (binary64.of_Z 1) = S754_finite false 4503599627370496 (-52).
Proof. reflexivity. Qed.

Lemma Prim2SF_zero : Prim2SF (binary64.of_Z 0) = S754_zero false.
Proof. reflexivity. Qed.

(** A negative weight, finite or not, is clamped to the integer 0. *)
Lemma mapColor_binary64_negative (ctx : ApiQRContext) (x : float) (c : color) :
  (exists m e, Prim2SF x = S754_finite true m e)
  \/ Prim2SF x = S754_infinity true ->
  mapColor ctx (PFloat x) c = Ok (255, 255, 255)%Z.
Proof.
  intros Hx. destruct c as [[c0 c1] c2].
  unfold mapColor, py_eq, py_max, py_min, py_lt, py_cmp, is_True, is_False.
  cbn [of_int Number_float num_eqb num_ltb orb].
  rewrite !eqb_spec, !ltb_spec, Prim2SF_one, Prim2SF_zero.
  destruct Hx as [(m & e & E)|E]; rewrite E; cbn;
    rewrite ltb_spec, E; change (Prim2SF 0) with (S754_zero false);
    reflexivity.
Qed.

(** Plus infinity is clamped to the integer 1. *)
Lemma mapColor_binary64_infinity (ctx : ApiQRContext) (x : float) (c : color) :
  Prim2SF x = S754_infinity false -> mapColor ctx (PFloat x) c = Ok c.
Proof.
  intros Hx. destruct c as [[c0 c1] c2].
  unfold mapColor, py_eq, py_max, py_min, py_lt, py_cmp, is_True, is_False.
  cbn [of_int Number_float num_eqb num_ltb orb].
  rewrite !eqb_spec, !ltb_spec, Prim2SF_one, Prim2SF_zero, Hx.
  cbn [SFeqb SFltb SFcompare orb Z.ltb Z.compare].
  rewrite !channel_binary64_at_1. reflexivity.
Qed.

(** An integer weight is mapped like 0 or like 1. *)
Lemma mapColor_binary64_int (ctx : ApiQRContext) (i : Z) (c : color) :
  mapColor ctx (PInt (T := float) i) c = Ok c \/
  mapColor ctx (PInt (T := float) i) c = Ok (colors_white ctx) \/
  mapColor ctx (PInt (T := float) i) c = Ok (255, 255, 255)%Z.
Proof.
  destruct c as [[c0 c1] c2]. unfold mapColor.
  destruct (is_True (PInt i) || py_eq (PInt i) (PInt 1)
            || py_eq (PInt i) (PFloat (of_int 1))) eqn:C1;
    [left; reflexivity|].
  destruct (is_False (PInt i) || py_eq (PInt i) (PInt 0)
            || py_eq (PInt i) (PFloat (of_int 0))) eqn:C0;
    [right; left; reflexivity|].
  apply orb_false_iff in C1. destruct C1 as [C1 _].
  apply orb_false_iff in C1. destruct C1 as [_ C1].
  apply orb_false_iff in C0. destruct C0 as [C0 _].
  apply orb_false_iff in C0. destruct C0 as [_ C0].
  unfold py_eq, py_cmp in C0, C1. apply Z.eqb_neq in C0, C1.
  unfold py_max, py_min, py_lt, py_cmp.
  destruct (Z.ltb_spec 1 i) as [Hi|Hi].
  - left. change (1 <? 0)%Z with false. cbv iota.
    rewrite !channel_binary64_at_1. reflexivity.
  - right; right. rewrite (proj2 (Z.ltb_lt i 0)) by lia.
    rewrite !channel_binary64_at_0. reflexivity.
Qed.

Lemma near_range (q : Q) (c out : Z) :
  (0 <= q)%Q -> (q <= 1)%Q -> (0 <= c <= 255)%Z ->
  integer_part_near (interpolate q c) out ->
  (Z.max 0 (c - 1) <= out <= 255)%Z.
Proof.
  intros H0 H1 Hc Hn.
  destruct (integer_part_near_bounds Hn) as [[Hlo Hhi] Hpos].
  destruct (interpolate_mono c H0 H1) as [Hm _].
  destruct (Hm ltac:(lia)) as [M1 M2].
  rewrite interpolate_1 in M1. unfold rounding_error in *.
  assert (A : (inject_Z (c - 2) < inject_Z out)%Q).
  { unfold Z.sub. rewrite inject_Z_plus. change (inject_Z (- (2))) with (- 2)%Q.
    lra. }
  assert (B : (inject_Z out < inject_Z 256)%Q)
    by (change (inject_Z 256) with 256%Q; lra).
  rewrite <- Zlt_Qlt in A, B. lia.
Qed.

Lemma in_range_base (c0 c1 c2 : Z) :
  Forall (fun c => 0 <= c <= 255)%Z [c0; c1; c2] ->
  Forall2 (fun out ch => Z.max 0 (ch - 1) <= out <= 255)%Z
          [c0; c1; c2] [c0; c1; c2].
Proof.
  intros Hc.
  inversion Hc as [|? ? Hc0 Hc']; subst.
  inversion Hc' as [|? ? Hc1 Hc'']; subst.
  inversion Hc'' as [|? ? Hc2 _]; subst.
  repeat (constructor; [lia|]). constructor.
Qed.

Lemma in_range_white (c0 c1 c2 : Z) :
  Forall (fun c => 0 <= c <= 255)%Z [c0; c1; c2] ->
  Forall2 (fun out ch => Z.max 0 (ch - 1) <= out <= 255)%Z
          [255; 255; 255]%Z [c0; c1; c2].
Proof.
  intros Hc.
  inversion Hc as [|? ? Hc0 Hc']; subst.
  inversion Hc' as [|? ? Hc1 Hc'']; subst.
  inversion Hc'' as [|? ? Hc2 _]; subst.
  repeat (constructor; [lia|]). constructor.
Qed.

(** X11. In binary64, with the white sentinel and a base colour whose
    channels lie in [0, 255], every weight that is a number (a [bool], an
    [int], a [float] other than [nan], infinite or not) is mapped to a
    colour, and each channel of the result lies between the base channel
    minus one and 255, and is not negative: it is a valid 8-bit
    channel. *)
Theorem mapColor_in_range (ctx : ApiQRContext) (v : pyval float) (c : color) :
  colors_white ctx = white ->
  Forall (fun x => 0 <= x <= 255)%Z (channels c) ->
  number64 v = true ->
  exists col : color,
    mapColor ctx v c = Ok col /\
    Forall2 (fun out ch => Z.max 0 (ch - 1) <= out <= 255)%Z
            (channels col) (channels c).
Proof.
  intros Hw Hc Hv. destruct c as [[c0 c1] c2]. cbn [channels] in Hc.
  pose proof (in_range_base Hc) as Base.
  pose proof (in_range_white Hc) as White.
  destruct v as [[|]|i|x].
  - exists (c0, c1, c2). split; [reflexivity | exact Base].
  - exists (255, 255, 255)%Z. split; [cbn; rewrite Hw; reflexivity | exact White].
  - destruct (mapColor_binary64_int ctx i (c0, c1, c2)) as [E|[E|E]].
    + exists (c0, c1, c2). split; [exact E | exact Base].
    + exists (255, 255, 255)%Z. split; [rewrite E, Hw; reflexivity | exact White].
    + exists (255, 255, 255)%Z. split; [exact E | exact White].
  - cbn [number64] in Hv.
    destruct (Prim2SF x) as [s|[|]| |[|] m e] eqn:Ex; try discriminate.
    + (* zero *)
      destruct (@mapColor_binary64_nonneg ctx x c0 c1 c2 Hw Hc)
        as (r & g & b & Em & Hn).
      { unfold binary64.nonneg. rewrite Ex. reflexivity. }
      exists (r, g, b). split; [exact Em|].
      assert (Eq0 : (Qmin (binary64.to_Q x) 1 == 0)%Q).
      { unfold binary64.to_Q. rewrite Ex. reflexivity. }
      inversion Hc as [|? ? Hc0 Hc']; subst.
      inversion Hc' as [|? ? Hc1 Hc'']; subst.
      inversion Hc'' as [|? ? Hc2 _]; subst.
      inversion Hn as [|? ? ? ? Hr Hn']; subst.
      inversion Hn' as [|? ? ? ? Hg Hn'']; subst.
      inversion Hn'' as [|? ? ? ? Hb _]; subst.
      cbn [channels].
      constructor; [apply (@near_range (Qmin (binary64.to_Q x) 1));
                    [rewrite Eq0; discriminate | apply Q.le_min_r | lia | exact Hr]|].
      constructor; [apply (@near_range (Qmin (binary64.to_Q x) 1));
                    [rewrite Eq0; discriminate | apply Q.le_min_r | lia | exact Hg]|].
      constructor; [apply (@near_range (Qmin (binary64.to_Q x) 1));
                    [rewrite Eq0; discriminate | apply Q.le_min_r | lia | exact Hb]|].
      constructor.
    + (* minus infinity *)
      exists (255, 255, 255)%Z. split; [|exact White].
      apply mapColor_binary64_negative. right. exact Ex.
    + (* plus infinity *)
      exists (c0, c1, c2). split; [|exact Base].
      apply mapColor_binary64_infinity. exact Ex.
    + (* negative *)
      exists (255, 255, 255)%Z. split; [|exact White].
      apply mapColor_binary64_negative. left. exists m, e. exact Ex.
    + (* positive *)
      assert (Nx : binary64.nonneg x = true)
        by (unfold binary64.nonneg; rewrite Ex; reflexivity).
      destruct (@mapColor_binary64_nonneg ctx x c0 c1 c2 Hw Hc Nx)
        as (r & g & b & Em & Hn).
      exists (r, g, b). split; [exact Em|].
      pose proof (nonneg_to_Q x Nx) as H0.
      assert (Q0 : (0 <= Qmin (binary64.to_Q x) 1)%Q)
        by (apply Q.min_glb; [exact H0 | discriminate]).
      inversion Hc as [|? ? Hc0 Hc']; subst.
      inversion Hc' as [|? ? Hc1 Hc'']; subst.
      inversion Hc'' as [|? ? Hc2 _]; subst.
      inversion Hn as [|? ? ? ? Hr Hn']; subst.
      inversion Hn' as [|? ? ? ? Hg Hn'']; subst.
      inversion Hn'' as [|? ? ? ? Hb _]; subst.
      cbn [channels].
      constructor; [apply (@near_range (Qmin (binary64.to_Q x) 1));
                    [exact Q0 | apply Q.le_min_r | lia | exact Hr]|].
      constructor; [apply (@near_range (Qmin (binary64.to_Q x) 1));
                    [exact Q0 | apply Q.le_min_r | lia | exact Hg]|].
      constructor; [apply (@near_range (Qmin (binary64.to_Q x) 1));
                    [exact Q0 | apply Q.le_min_r | lia | exact Hb]|].
      constructor.
Qed.

Lemma mapColor_in_range_witness :
  exists col : color,
    mapColor (sample_context 4) (PFloat weight_near_white) (10, 200, 255)%Z = Ok col /\
    Forall2 (fun out ch => Z.max 0 (ch - 1) <= out <= 255)%Z
            (channels col) (channels (10, 200, 255)%Z).
Proof.
  apply (@mapColor_in_range (sample_context 4) (PFloat weight_near_white)
           (10, 200, 255)%Z);
    [reflexivity | repeat constructor; lia | reflexivity].
Defined.

(* ------------------------------------------------------------------ *)
(** ** The cells of the table (exact arithmetic) *)

(** A fifth of the way from white to the base channel. *)
Lemma dim_channel (c : Z) :
  (0 <= c)%Z -> Qtrunc (interpolate (2 # 10) c) = (204 + c / 5)%Z.
Proof.
  intros Hc.
  assert (E : (interpolate (2 # 10) c == (204 * 5 + c) # 5)%Q).
  { symmetry. etransitivity; [apply Qmake_Qdiv|].
    rewrite inject_Z_plus. unfold interpolate.
    change (inject_Z (204 * 5)) with 1020%Q.
    change (inject_Z (Z.pos 5)) with 5%Q. field. }
  rewrite (Qtrunc_comp E). unfold Qtrunc. cbn [Qnum Qden].
  rewrite Z.quot_div_nonneg by lia. apply Z.div_add_l. lia.
Qed.

(** X12. A weight equal to zero ([0], [0.0] or [False]) is written by
    [exportHtml] in its sentinel branch, with the labels joined by colons
    as popover text; its background is not the sentinel but the base
    colour at a fifth of its strength: each channel is [204 + base / 5].
    (Exact arithmetic, white sentinel, base channels in [0, 255].) *)
Theorem html_cell_absent (ctx : ApiQRContext) (v : pyval Q) (c0 c1 c2 : Z)
    (labels : list String.string) :
  colors_white ctx = white ->
  (weight v == 0)%Q ->
  Forall (fun x => 0 <= x <= 255)%Z [c0; c1; c2] ->
  html_cell ctx v (c0, c1, c2) (Ok labels) =
  Ok {| sentinel_branch := true;
        popover := String.concat ":" labels;
        background := (204 + c0 / 5, 204 + c1 / 5, 204 + c2 / 5)%Z |}.
Proof.
  intros Hw Hv Hc.
  inversion Hc as [|? ? Hc0 Hc']; subst.
  inversion Hc' as [|? ? Hc1 Hc'']; subst.
  inversion Hc'' as [|? ? Hc2 _]; subst.
  assert (Hz : forall c, Qtrunc (interpolate (weight v) c) = 255%Z).
  { intros c. rewrite (Qtrunc_comp (interpolate_comp c Hv)).
    rewrite (Qtrunc_comp (interpolate_0 c)). reflexivity. }
  unfold html_cell.
  rewrite (@mapColor_exact_unit ctx v c0 c1 c2 Hw) by (rewrite Hv; discriminate).
  rewrite !Hz, Hw. cbn [bind]. change (color_eqb (255, 255, 255)%Z white) with true.
  cbv iota. cbn [of_Q Number_Q].
  rewrite (@mapColor_exact_inside ctx (2 # 10) c0 c1 c2) by reflexivity.
  cbn [bind]. rewrite !dim_channel by lia. reflexivity.
Qed.

Lemma html_cell_absent_witness :
  html_cell (sample_context 4) (PBool false) (10, 200, 255)%Z
            (Ok ["kernel32.dll"; "Sleep"]%string) =
  Ok {| sentinel_branch := true;
        popover := String.concat ":" ["kernel32.dll"; "Sleep"]%string;
        background := (204 + 10 / 5, 204 + 200 / 5, 204 + 255 / 5)%Z |}.
Proof.
  apply (@html_cell_absent (sample_context 4) (PBool false) 10 200 255
           ["kernel32.dll"; "Sleep"]%string);
    [reflexivity | reflexivity | repeat constructor; lia].
Defined.

(* ------------------------------------------------------------------ *)
(** ** The cells of the table (binary64) *)

(** The float a weight is multiplied as. *)
Lemma rescaled_any (v : pyval float) :
  finite64 v = true -> (0 <= weight64 v)%Q -> (weight64 v <= 1)%Q ->
  exists x : float,
    binary64.nonneg x = true /\
    (binary64.to_Q x == weight64 v)%Q /\
    py_add (PFloat (of_Q (4 # 10)))
           (py_mul v (py_sub (PInt 1) (PFloat (of_Q (4 # 10)))))
    = py_add (PFloat (of_Q (4 # 10)))
             (py_mul (PFloat x) (py_sub (PInt 1) (PFloat (of_Q (4 # 10))))).
Proof.
  intros Hf H0 H1. destruct v as [[|]|i|x]; cbn [weight64 int_of_bool] in *.
  - exists (binary64.of_Z 1). repeat split; reflexivity.
  - exists (binary64.of_Z 0). repeat split; reflexivity.
  - change 0%Q with (inject_Z 0) in H0. change 1%Q with (inject_Z 1) in H1.
    rewrite <- Zle_Qle in H0, H1.
    assert (Hi : i = 0%Z \/ i = 1%Z) by lia.
    destruct Hi as [-> | ->].
    + exists (binary64.of_Z 0). repeat split; reflexivity.
    + exists (binary64.of_Z 1). repeat split; reflexivity.
  - exists x. split; [apply finite64_nonneg; assumption|].
    split; reflexivity.
Qed.

(** From two fifths on, a channel is at most what two fifths give. *)
Lemma near_faint (q : Q) (c out : Z) :
  (3999 # 10000 <= q)%Q -> (q <= 1)%Q -> (0 <= c <= 255)%Z ->
  integer_part_near (interpolate q c) out ->
  (out <= 153 + 2 * c / 5)%Z.
Proof.
  intros Hlo Hhi Hc Hn.
  destruct (integer_part_near_bounds Hn) as [[_ Hout] _].
  unfold rounding_error, interpolate in Hout.
  assert (Hq0 : (0 <= inject_Z c)%Q)
    by (change 0%Q with (inject_Z 0); rewrite <- Zle_Qle; lia).
  assert (Hq : (inject_Z c <= 255)%Q)
    by (change 255%Q with (inject_Z 255); rewrite <- Zle_Qle; lia).
  assert (Hp : (0 <= (255 - inject_Z c) * (q - (3999 # 10000)))%Q)
    by (apply Qmult_le_0_compat; lra).
  assert (A : (inject_Z (5 * out) < inject_Z (766 + 2 * c))%Q).
  { rewrite inject_Z_mult, inject_Z_plus, inject_Z_mult.
    change (inject_Z 5) with 5%Q. change (inject_Z 766) with 766%Q.
    change (inject_Z 2) with 2%Q. lra. }
  rewrite <- Zlt_Qlt in A.
  pose proof (Z.div_mod (2 * c) 5 ltac:(lia)) as Hdm.
  pose proof (Z.mod_pos_bound (2 * c) 5 ltac:(lia)) as Hrem.
  lia.
Qed.

(** X13. In binary64, with the white sentinel: a weight from [2^-43] up
    to 1 on a base colour other than white, with channels in [0, 255], is
    written by [exportHtml] outside its sentinel branch, with the labels
    joined by colons as popover text, and drawn at two fifths of the base
    colour's strength or more: each channel of the background is a valid
    8-bit channel between the base channel minus one and
    [153 + 2 * base / 5]. *)
Theorem html_cell_present (ctx : ApiQRContext) (v : pyval float) (c : color)
    (labels : list String.string) :
  colors_white ctx = white ->
  finite64 v = true ->
  (1 # 8796093022208 <= weight64 v)%Q -> (weight64 v <= 1)%Q ->
  Forall (fun x => 0 <= x <= 255)%Z (channels c) ->
  c <> white ->
  exists bg : color,
    html_cell ctx v c (Ok labels) =
    Ok {| sentinel_branch := false;
          popover := String.concat ":" labels;
          background := bg |} /\
    Forall2 (fun out ch => Z.max 0 (ch - 1) <= out <= 153 + 2 * ch / 5)%Z
            (channels bg) (channels c).
Proof.
  intros Hw Hf Hlo Hhi Hc Hne. destruct c as [[c0 c1] c2]. cbn [channels] in Hc.
  assert (H0 : (0 <= weight64 v)%Q) by lra.
  destruct (@mapColor_binary64_unit ctx v c0 c1 c2 Hw Hc Hf H0 Hhi)
    as (r & g & b & Em & Hn).
  inversion Hc as [|? ? Hc0 Hc']; subst.
  inversion Hc' as [|? ? Hc1 Hc'']; subst.
  inversion Hc'' as [|? ? Hc2 _]; subst.
  assert (Hcol : (r, g, b) <> colors_white ctx).
  { rewrite Hw. unfold white. intros E. injection E as -> -> ->.
    inversion Hn as [|? ? ? ? Hr Hn']; subst.
    inversion Hn' as [|? ? ? ? Hg Hn'']; subst.
    inversion Hn'' as [|? ? ? ? Hb _]; subst.
    destruct (not_white Hc Hne) as [L|[L|L]].
    - pose proof (@near_below_255 _ c0 255 Hlo Hhi ltac:(lia) Hr). lia.
    - pose proof (@near_below_255 _ c1 255 Hlo Hhi ltac:(lia) Hg). lia.
    - pose proof (@near_below_255 _ c2 255 Hlo Hhi ltac:(lia) Hb). lia. }
  destruct (@rescaled_any v Hf H0 Hhi) as (x & Nx & Ex & Ev).
  destruct (@rescaled_binary64 x Nx ltac:(rewrite Ex; exact Hhi))
    as (Ev' & Nv' & Hv').
  set (x' := (of_Q (4 # 10) + x * (binary64.of_Z 1 - of_Q (4 # 10)))%float) in *.
  destruct (@mapColor_binary64_nonneg ctx x' c0 c1 c2 Hw Hc Nv')
    as (r' & g' & b' & Em' & Hn').
  exists (r', g', b'). split.
  - unfold html_cell. rewrite Em. cbn [bind].
    destruct (color_eqb (r, g, b) (colors_white ctx)) eqn:Eb.
    + exfalso. apply color_eqb_eq in Eb. exact (Hcol Eb).
    + cbn [bind]. rewrite Ev, Ev', Em'. reflexivity.
  - set (q := Qmin (binary64.to_Q x') 1) in *.
    assert (Q0 : (3999 # 10000 <= q)%Q)
      by (apply Q.min_glb; [exact Hv' | discriminate]).
    assert (Q1 : (q <= 1)%Q) by apply Q.le_min_r.
    assert (G : forall ch out, (0 <= ch <= 255)%Z ->
              integer_part_near (interpolate q ch) out ->
              (Z.max 0 (ch - 1) <= out <= 153 + 2 * ch / 5)%Z).
    { intros ch out Hch Ho.
      pose proof (@near_range q ch out ltac:(lra) Q1 Hch Ho).
      pose proof (@near_faint q ch out Q0 Q1 Hch Ho). lia. }
    inversion Hn' as [|? ? ? ? Hr Hn'1]; subst.
    inversion Hn'1 as [|? ? ? ? Hg Hn'2]; subst.
    inversion Hn'2 as [|? ? ? ? Hb _]; subst.
    cbn [channels].
    constructor; [apply G; assumption|]. constructor; [apply G; assumption|].
    constructor; [apply G; assumption|]. constructor.
Qed.

Lemma html_cell_present_witness :
  exists bg : color,
    html_cell (sample_context 4) (PFloat weight_near_white) (10, 200, 255)%Z
              (Ok ["kernel32.dll"; "Sleep"]%string) =
    Ok {| sentinel_branch := false;
          popover := String.concat ":" ["kernel32.dll"; "Sleep"]%string;
          background := bg |} /\
    Forall2 (fun out ch => Z.max 0 (ch - 1) <= out <= 153 + 2 * ch / 5)%Z
            (channels bg) (channels (10, 200, 255)%Z).
Proof.
  apply (@html_cell_present (sample_context 4) (PFloat weight_near_white)
           (10, 200, 255)%Z ["kernel32.dll"; "Sleep"]%string);
    [reflexivity | reflexivity | vm_compute; discriminate
    | vm_compute; discriminate | repeat constructor; lia | discriminate].
Defined.

(* ------------------------------------------------------------------ *)
(** ** The table (exact arithmetic) *)

(** When every failure is the same exception and some element fails, the
    whole traversal fails with it. *)
Lemma mapM_raises (A B : Type) (f : A -> result B) (l : list A) (e : exn) :
  (forall x, In x l -> f x = Raise e \/ exists y, f x = Ok y) ->
  (exists x, In x l /\ f x = Raise e) ->
  mapM f l = Raise e.
Proof.
  induction l as [|x l IH]; intros Hall (x0 & Hin & Hx0); [contradiction|].
  simpl. destruct (Hall x (or_introl eq_refl)) as [Hx|[y Hy]].
  - rewrite Hx. reflexivity.
  - rewrite Hy. cbn [bind]. rewrite IH; [reflexivity | | ].
    + intros z Hz. apply Hall. right. exact Hz.
    + destruct Hin as [<-|Hin]; [rewrite Hy in Hx0; discriminate|].
      exists x0. split; assumption.
Qed.

(** With its labels at hand a cell is always written. *)
Lemma html_cell_labelled (ctx : ApiQRContext) (v : pyval Q) (c : color)
    (labels : list String.string) :
  exists out : cell, html_cell ctx v c (Ok labels) = Ok out.
Proof.
  unfold html_cell.
  destruct (mapColor_Q_total ctx v c) as [col ->]. cbn [bind].
  destruct (color_eqb col (colors_white ctx)).
  - match goal with
    | |- context [mapColor ctx ?w c] =>
        destruct (mapColor_Q_total ctx w c) as [c' ->]
    end.
    cbn [bind]. eexists. reflexivity.
  - cbn [bind].
    match goal with
    | |- context [mapColor ctx ?w c] =>
        destruct (mapColor_Q_total ctx w c) as [c' ->]
    end.
    cbn [bind]. eexists. reflexivity.
Qed.

(** Without its labels a cell fails with the lookup's exception. *)
Lemma html_cell_unlabelled (ctx : ApiQRContext) (v : pyval Q) (c : color)
    (e : exn) :
  html_cell ctx v c (Raise e) = Raise e.
Proof.
  unfold html_cell.
  destruct (mapColor_Q_total ctx v c) as [col ->]. cbn [bind].
  destruct (color_eqb col (colors_white ctx)).
  - match goal with
    | |- context [mapColor ctx ?w c] =>
        destruct (mapColor_Q_total ctx w c) as [c' ->]
    end.
    reflexivity.
  - reflexivity.
Qed.

Lemma getitem_some (A : Type) (l : list A) (i : nat) :
  i < length l -> exists x, nth_error l i = Some x /\ getitem l i = Ok x.
Proof.
  intros Hi. unfold getitem. destruct (nth_error l i) as [x|] eqn:E.
  - exists x. split; reflexivity.
  - apply nth_error_None in E. lia.
Qed.

Lemma getitem_none (A : Type) (l : list A) (i : nat) :
  length l <= i -> getitem l i = Raise IndexError.
Proof.
  intros Hi. unfold getitem. rewrite (proj2 (nth_error_None l i) Hi). reflexivity.
Qed.

Lemma exportHtml_square (depth k : nat) (self : ApiQR Q) :
  length (vector self) = 2 ^ k * 2 ^ k ->
  k < depth ->
  exportHtml depth self =
  mapM (mapM (fun index =>
                let i := Z.to_nat index in
                value <- getitem (vector self) i ;;
                raw_color <- getitem (colors (context self)) i ;;
                html_cell (context self) value raw_color
                          (getitem (apis (context self)) i)))
       (curve k).
Proof.
  intros Hl Hd. unfold exportHtml. cbv zeta.
  rewrite (@int_sqrt_len_square _ (vector self) _ Hl).
  pose proof (pow2_pos k) as Hm.
  destruct (Z.eqb_spec (Z.of_nat (2 ^ k)) 0) as [E|_]; [lia|].
  rewrite (hilbertCurve_pow2 Hd). reflexivity.
Qed.

Lemma table_cell_written (self : ApiQR Q) (n : nat) (x : Z) :
  length (vector self) = n ->
  n <= length (colors (context self)) ->
  n <= length (apis (context self)) ->
  (0 <= x < Z.of_nat n)%Z ->
  exists (value : pyval Q) (raw : color) (labels : list String.string) (out : cell),
    nth_error (vector self) (Z.to_nat x) = Some value /\
    nth_error (colors (context self)) (Z.to_nat x) = Some raw /\
    nth_error (apis (context self)) (Z.to_nat x) = Some labels /\
    html_cell (context self) value raw (Ok labels) = Ok out /\
    (let i := Z.to_nat x in
     value <- getitem (vector self) i ;;
     raw_color <- getitem (colors (context self)) i ;;
     html_cell (context self) value raw_color (getitem (apis (context self)) i))
    = Ok out.
Proof.
  intros Hv Hc Ha Hx. cbv zeta.
  destruct (@getitem_some _ (vector self) (Z.to_nat x) ltac:(lia))
    as (value & Nv & Gv).
  destruct (@getitem_some _ (colors (context self)) (Z.to_nat x) ltac:(lia))
    as (raw & Nc & Gc).
  destruct (@getitem_some _ (apis (context self)) (Z.to_nat x) ltac:(lia))
    as (labels & Na & Ga).
  destruct (html_cell_labelled (context self) value raw labels) as [out Ho].
  exists value, raw, labels, out.
  rewrite Gv, Gc, Ga. cbn [bind]. repeat split; assumption.
Qed.

(** X14. For a vector of [4^k] weights and colour and label tables at
    least as long, [exportHtml] writes a square table of side [2^k]: the
    cell in row [i], column [j] is the cell of the index the curve holds
    there, made from that index's weight, base colour and labels.  (Exact
    arithmetic.) *)
Theorem exportHtml_cells (depth k : nat) (self : ApiQR Q) (i j : nat) (d : cell) :
  length (vector self) = 2 ^ k * 2 ^ k ->
  2 ^ k * 2 ^ k <= length (colors (context self)) ->
  2 ^ k * 2 ^ k <= length (apis (context self)) ->
  k < depth ->
  i < 2 ^ k -> j < 2 ^ k ->
  exists (H : np.ndarray) (cells : list (list cell))
         (value : pyval Q) (raw : color) (labels : list String.string),
    hilbertCurve depth (int_sqrt_len (vector self)) = Ok H /\
    exportHtml depth self = Ok cells /\
    square (2 ^ k) cells /\
    nth_error (vector self) (Z.to_nat (get H i j)) = Some value /\
    nth_error (colors (context self)) (Z.to_nat (get H i j)) = Some raw /\
    nth_error (apis (context self)) (Z.to_nat (get H i j)) = Some labels /\
    html_cell (context self) value raw (Ok labels) = Ok (nth j (nth i cells []) d).
Proof.
  intros Hv Hc Ha Hd Hi Hj.
  rewrite (exportHtml_square self Hv Hd).
  set (f := fun index : Z =>
              let i := Z.to_nat index in
              value <- getitem (vector self) i ;;
              raw_color <- getitem (colors (context self)) i ;;
              html_cell (context self) value raw_color
                        (getitem (apis (context self)) i)).
  pose proof (curve_square k) as Hsq.
  assert (Hf : forall x, In x (np.ravel (curve k)) -> exists out, f x = Ok out).
  { intros x Hx. apply In_curve_bound in Hx.
    destruct (@table_cell_written self _ x Hv Hc Ha Hx)
      as (_ & _ & _ & out & _ & _ & _ & _ & Ho).
    exists out. exact Ho. }
  destruct (@mapM_all_ok _ _ (mapM f) (curve k)) as (cells & Hcells & _).
  { intros row Hrow.
    destruct (@mapM_all_ok _ _ f row) as (ys & Hys & _); [|exists ys; exact Hys].
    intros x Hx. apply Hf, in_concat. exists row. split; assumption. }
  assert (Hrow : mapM f (nth i (curve k) []) = Ok (nth i cells [])).
  { apply mapM_nth; [exact Hcells|]. rewrite (square_length Hsq). exact Hi. }
  pose proof (@mapM_nth _ _ f _ _ 0%Z d j Hrow
                ltac:(rewrite (square_row Hsq Hi); exact Hj)) as Hcell.
  fold (get (curve k) i j) in Hcell.
  pose proof (curve_bound k Hi Hj) as Hb.
  destruct (@table_cell_written self _ (get (curve k) i j) Hv Hc Ha Hb)
    as (value & raw & labels & out & Nv & Nc & Na & Ho & Hfx).
  change (f (get (curve k) i j) = Ok out) in Hfx.
  rewrite Hcell in Hfx. injection Hfx as <-.
  exists (curve k), cells, value, raw, labels.
  split; [rewrite (@int_sqrt_len_square _ (vector self) _ Hv);
          apply hilbertCurve_pow2, Hd|].
  split; [exact Hcells|]. split; [|repeat split; assumption].
  apply square_intro.
  - rewrite (mapM_length _ _ Hcells). apply (square_length Hsq).
  - intros i' Hi'.
    assert (Hrow' : mapM f (nth i' (curve k) []) = Ok (nth i' cells []))
      by (apply mapM_nth; [exact Hcells | rewrite (square_length Hsq); exact Hi']).
    rewrite (mapM_length _ _ Hrow'). apply (square_row Hsq Hi').
Qed.

Lemma exportHtml_cells_witness :
  exists (H : np.ndarray) (cells : list (list cell))
         (value : pyval Q) (raw : color) (labels : list String.string),
    hilbertCurve 5 (int_sqrt_len (vector sample_4_exact)) = Ok H /\
    exportHtml 5 sample_4_exact = Ok cells /\
    square (2 ^ 1) cells /\
    nth_error (vector sample_4_exact) (Z.to_nat (get H 1 0)) = Some value /\
    nth_error (colors (context sample_4_exact)) (Z.to_nat (get H 1 0))
      = Some raw /\
    nth_error (apis (context sample_4_exact)) (Z.to_nat (get H 1 0))
      = Some labels /\
    html_cell (context sample_4_exact) value raw (Ok labels)
      = Ok (nth 0 (nth 1 cells []) blank_cell).
Proof.
  apply (@exportHtml_cells 5 1 sample_4_exact 1 0 blank_cell);
    [reflexivity | simpl; lia | simpl; lia | lia | simpl; lia | simpl; lia].
Defined.

Lemma getitem_cases (A : Type) (l : list A) (i : nat) :
  getitem l i = Raise IndexError \/ exists x, getitem l i = Ok x.
Proof.
  unfold getitem. destruct (nth_error l i) as [x|]; [right; exists x|left];
    reflexivity.
Qed.

Lemma mapM_cases (A B : Type) (f : A -> result B) (l : list A) (e : exn) :
  (forall x, In x l -> f x = Raise e \/ exists y, f x = Ok y) ->
  mapM f l = Raise e \/ exists ys, mapM f l = Ok ys.
Proof.
  induction l as [|x l IH]; intros Hall; [right; exists []; reflexivity|].
  simpl. destruct (Hall x (or_introl eq_refl)) as [Hx|[y Hy]].
  - left. rewrite Hx. reflexivity.
  - rewrite Hy. cbn [bind].
    destruct IH as [Hr|[ys Hys]]; [intros z Hz; apply Hall; right; exact Hz| |].
    + left. rewrite Hr. reflexivity.
    + right. exists (y :: ys). rewrite Hys. reflexivity.
Qed.

(** X15. A colour table or a label table shorter than a vector of [4^k]
    weights makes [exportHtml] raise [IndexError]: the table is read at
    every index of the curve.  (Exact arithmetic.) *)
Theorem exportHtml_short_table (depth k : nat) (self : ApiQR Q) :
  length (vector self) = 2 ^ k * 2 ^ k ->
  k < depth ->
  length (colors (context self)) < 2 ^ k * 2 ^ k \/
  length (apis (context self)) < 2 ^ k * 2 ^ k ->
  exportHtml depth self = Raise IndexError.
Proof.
  intros Hv Hd Hshort.
  rewrite (exportHtml_square self Hv Hd).
  set (f := fun index : Z =>
              let i := Z.to_nat index in
              value <- getitem (vector self) i ;;
              raw_color <- getitem (colors (context self)) i ;;
              html_cell (context self) value raw_color
                        (getitem (apis (context self)) i)).
  pose proof (pow2_pos k) as Hm.
  assert (Hcases : forall x, In x (np.ravel (curve k)) ->
                     f x = Raise IndexError \/ exists out, f x = Ok out).
  { intros x Hx. apply In_curve_bound in Hx. unfold f. cbv zeta.
    destruct (@getitem_some _ (vector self) (Z.to_nat x) ltac:(lia))
      as (value & _ & ->).
    cbn [bind].
    destruct (getitem_cases (colors (context self)) (Z.to_nat x)) as [->|[raw ->]];
      [left; reflexivity|].
    cbn [bind].
    destruct (getitem_cases (apis (context self)) (Z.to_nat x)) as [->|[labels ->]].
    - left. apply html_cell_unlabelled.
    - right. apply html_cell_labelled. }
  set (last := Z.of_nat (2 ^ k * 2 ^ k - 1)).
  assert (Hlast : In last (np.ravel (curve k))).
  { apply (Permutation_in _ (Permutation_sym (curve_permutation k))), In_range.
    exists (2 ^ k * 2 ^ k - 1). split; [nia | reflexivity]. }
  assert (Hfail : f last = Raise IndexError).
  { unfold f, last. cbv zeta. rewrite Nat2Z.id.
    destruct (@getitem_some _ (vector self) (2 ^ k * 2 ^ k - 1) ltac:(nia))
      as (value & _ & ->).
    cbn [bind].
    destruct (getitem_cases (colors (context self)) (2 ^ k * 2 ^ k - 1))
      as [->|[raw Hraw]]; [reflexivity|].
    rewrite Hraw. cbn [bind].
    destruct Hshort as [Hs|Hs].
    - rewrite getitem_none in Hraw by lia. discriminate.
    - rewrite (getitem_none (apis (context self))) by lia.
      apply html_cell_unlabelled. }
  unfold np.ravel in Hlast. apply in_concat in Hlast.
  destruct Hlast as (row & Hrow & Hin).
  apply mapM_raises.
  - intros r Hr. apply mapM_cases. intros x Hx.
    apply Hcases, in_concat. exists r. split; assumption.
  - exists row. split; [exact Hrow|].
    apply mapM_raises.
    + intros x Hx. apply Hcases, in_concat. exists row. split; assumption.
    + exists last. split; assumption.
Qed.

Lemma exportHtml_short_table_witness :
  exportHtml 5 {| vector := vector sample_4_exact; context := sample_context 3 |}
  = Raise IndexError.
Proof.
  apply (@exportHtml_short_table 5 1
           {| vector := vector sample_4_exact; context := sample_context 3 |});
    [reflexivity | lia | left; simpl; lia].
Defined.

(* ------------------------------------------------------------------ *)
(** ** Scaling *)

(** X16. Scaling never returns a scaled object.  [__mul__], [__div__] and
    [__truediv__] refuse an operand that is no number with [ValueError].
    For a number, [__mul__] always ends in the constructor's [TypeError]
    ([context] is no parameter of [__init__]); [__div__] and [__truediv__]
    do the same, except that a divisor equal to zero raises
    [ZeroDivisionError] at the first weight, before the constructor is
    reached. *)
Theorem scaling_never_returns (T : Type) `{Number T} `{Divide T}
    (self : ApiQR T) (other : operand T) :
  mul self other =
    Raise (match other with
           | NotANumber => ValueError
           | ANumber _ => TypeError
           end) /\
  div self other =
    Raise (match other with
           | NotANumber => ValueError
           | ANumber o =>
               match vector self with
               | [] => TypeError
               | _ :: _ =>
                   if py_eq o (PInt 0) then ZeroDivisionError else TypeError
               end
           end) /\
  truediv self other = div self other.
Proof.
  split; [destruct other; reflexivity|]. split; [|reflexivity].
  destruct other as [o|]; [|reflexivity].
  unfold div, py_truediv.
  destruct (py_eq o (PInt 0)) eqn:Ez.
  - destruct (vector self) as [|x xs]; reflexivity.
  - rewrite (@mapM_total _ _ _
               (fun x => PFloat (num_div (py_float (py_mul (PFloat (of_int 1)) x))
                                         (py_float o))))
      by (intros; reflexivity).
    cbn [bind]. destruct (vector self); reflexivity.
Qed.

(* ------------------------------------------------------------------ *)
(** ** The size of the image *)

(** X17. For [4^k] weights, as many colours and a scale factor [s >= 0],
    the array [exportPng] hands to the image library is square, with
    [2^k * 2^s] rows of [2^k * 2^s] pixels: 1024 weights at the default
    scale factor 5 give 1024 by 1024 pixels. *)
Theorem exportPng_side (T : Type) `{Number T} (depth k : nat) (s : Z)
    (self : ApiQR T) (colored : list color) :
  length (vector self) = 2 ^ k * 2 ^ k ->
  length (colors (context self)) = 2 ^ k * 2 ^ k ->
  colored_vector self = Ok colored ->
  (0 <= s)%Z ->
  k + Z.to_nat s < depth ->
  exists pixels : list (list color),
    exportPng depth self s = Ok pixels /\
    square (2 ^ k * 2 ^ Z.to_nat s) pixels.
Proof.
  intros Hv Hc Hcol Hs Hd.
  assert (Hl : length colored = 2 ^ k * 2 ^ k).
  { unfold colored_vector in Hcol. apply mapM_length in Hcol.
    rewrite Hcol, length_combine, Hv, Hc. apply Nat.min_id. }
  destruct (@vectorToHilbert_scaled _ depth k (Z.to_nat s) colored Hl Hd)
    as (G & HG & Hscaled).
  rewrite (@vectorToHilbert_square _ depth k colored white Hl ltac:(lia)) in HG.
  injection HG as <-.
  eexists. split.
  - unfold exportPng, scaled_vector. rewrite Hcol. cbn [bind].
    destruct (Z.ltb_spec s 0) as [Hneg|_]; [lia|]. cbn [bind].
    rewrite <- flat_map_concat_map, (pow4_to_nat Hs), Hscaled. reflexivity.
  - apply square_map_map, square_upsample, square_map_map, curve_square.
Qed.

Lemma exportPng_side_witness :
  exists pixels : list (list color),
    exportPng 5 sample_4 1 = Ok pixels /\
    square (2 ^ 1 * 2 ^ Z.to_nat 1) pixels.
Proof.
  apply (@exportPng_side float _ 5 1 1%Z sample_4 sample_4_colored);
    [reflexivity | reflexivity | vm_compute; reflexivity | lia | simpl; lia].
Defined.
